(** * PeopleSwarm: the shopper simulation core (behavior.py, agent_group.py)

    A shallow embedding of the agent state machine, the checkout-queue
    protocol, the zone-selection policy, the group follower rule and the
    population factory, with the properties of the specification stated
    and settled against it.

    Conventions of the embedding:
    - Python floats are read as real numbers ([R]); comparisons are the
      decidable order of the reals.  Integers are [Z].
    - Python objects that are shared and mutated (zones, agents) live in
      a store (a list indexed by object identity); [is] and the default
      [==] of classes without [__eq__] are equality of indices.
    - A raised Python exception is the result [None].
    - The random generator is an explicit stream of draws threaded
      through every function that consumes randomness. *)

From Stdlib Require Import Reals Lra Lia ZArith List String.
From stdpp Require Import base option list strings relations.

#[local] Open Scope R_scope.

#[export] Instance Rle_decision (a b : R) : Decision (a <= b) := Rle_dec a b.
#[export] Instance Rlt_decision (a b : R) : Decision (a < b) := Rlt_dec a b.
#[export] Instance Req_decision : EqDecision R := Req_dec_T.

(** ** Enumerations *)

Inductive CustomerState :=
  WALKING | SHOPPING | IN_QUEUE | PAYING | LEAVING | FINISHED.

Inductive BehaviorType := IMPULSIVE | TARGETED | EXPLORER | FAMILY | BUDGET.

Inductive BudgetLevel := LOW | MEDIUM | HIGH.

#[export] Instance CustomerState_eq_dec : EqDecision CustomerState.
Proof. solve_decision. Defined.

#[export] Instance BehaviorType_eq_dec : EqDecision BehaviorType.
Proof. solve_decision. Defined.

#[export] Instance BudgetLevel_eq_dec : EqDecision BudgetLevel.
Proof. solve_decision. Defined.

(** ** The random source

    [random.random()] reads the real component of the next draw,
    [random.choice] and [uuid.uuid4] read its integer component. *)

Record Draw := mkDraw { unit_draw : R; pick_draw : nat }.

Record Rng := mkRng { stream : nat -> Draw; cursor : nat }.

Definition rng_next (g : Rng) : Draw * Rng :=
  (stream g (cursor g), mkRng (stream g) (S (cursor g))).

Definition random_random (g : Rng) : R * Rng :=
  let '(d, g') := rng_next g in (unit_draw d, g').

Definition random_uniform (a b : R) (g : Rng) : R * Rng :=
  let '(u, g') := random_random g in (a + (b - a) * u, g').

(** [random.choice] raises IndexError on an empty sequence. *)
Definition random_choice {A} (l : list A) (g : Rng) : option (A * Rng) :=
  let '(d, g') := rng_next g in
  x ← l !! (pick_draw d mod length l)%nat; Some (x, g').

(** Draws of [random.random()] lie in [0, 1). *)
Definition rng_ok (g : Rng) : Prop :=
  forall n, 0 <= unit_draw (stream g n) < 1.

(** ** Geometry (the part of Qt's QPointF and QRectF the core uses) *)

Record QPointF := mkPoint { pt_x : R; pt_y : R }.

Definition padd (p q : QPointF) : QPointF :=
  mkPoint (pt_x p + pt_x q) (pt_y p + pt_y q).

Definition psub (p q : QPointF) : QPointF :=
  mkPoint (pt_x p - pt_x q) (pt_y p - pt_y q).

(** Truth value of a point: PyQt's [QPointF.__bool__] is [not isNull()]. *)
Definition point_truthy (p : QPointF) : bool :=
  negb (bool_decide (pt_x p = 0) && bool_decide (pt_y p = 0)).

(** Truth value of an [Optional[QPointF]] attribute. *)
Definition truthy (o : option QPointF) : bool :=
  match o with
  | None => false
  | Some p => point_truthy p
  end.

Definition qFuzzyIsNull (d : R) : bool := bool_decide (Rabs d <= / 1000000000000).

Definition qFuzzyCompare (a b : R) : bool :=
  bool_decide (Rabs (a - b) * 1000000000000 <= Rmin (Rabs a) (Rabs b)).

Definition coord_eq (a b : R) : bool :=
  if bool_decide (a = 0) || bool_decide (b = 0)
  then qFuzzyIsNull (a - b) else qFuzzyCompare a b.

(** [==] on QPointF is Qt's tolerant comparison of the coordinates. *)
Definition point_eq (p q : QPointF) : bool :=
  coord_eq (pt_x p) (pt_x q) && coord_eq (pt_y p) (pt_y q).

(** [p in points]. *)
Definition point_in (p : QPointF) (points : list QPointF) : bool :=
  existsb (point_eq p) points.

Record QRectF := mkRect { rect_x : R; rect_y : R; rect_w : R; rect_h : R }.

Definition rect_center (r : QRectF) : QPointF :=
  mkPoint (rect_x r + rect_w r / 2) (rect_y r + rect_h r / 2).

Definition rect_adjusted (dx1 dy1 dx2 dy2 : R) (r : QRectF) : QRectF :=
  mkRect (rect_x r + dx1) (rect_y r + dy1)
         (rect_w r + dx2 - dx1) (rect_h r + dy2 - dy1).

(** One axis of [QRectF::intersects]: the span [lo, lo+len] is put in
    order, an empty span intersects nothing, touching spans do not
    intersect. *)
Definition span_intersects (lo1 len1 lo2 len2 : R) : bool :=
  let l1 := if decide (len1 < 0) then lo1 + len1 else lo1 in
  let r1 := if decide (len1 < 0) then lo1 else lo1 + len1 in
  let l2 := if decide (len2 < 0) then lo2 + len2 else lo2 in
  let r2 := if decide (len2 < 0) then lo2 else lo2 + len2 in
  if decide (l1 = r1) then false
  else if decide (l2 = r2) then false
  else if decide (r2 <= l1) then false
  else if decide (r1 <= l2) then false
  else true.

Definition rect_intersects (a b : QRectF) : bool :=
  span_intersects (rect_x a) (rect_w a) (rect_x b) (rect_w b)
  && span_intersects (rect_y a) (rect_h a) (rect_y b) (rect_h b).

(** [math.atan2] on the reals. *)
Definition atan2 (y x : R) : R :=
  if decide (0 < x) then atan (y / x)
  else if decide (x < 0) then
         (if decide (0 <= y) then atan (y / x) + PI else atan (y / x) - PI)
  else if decide (0 < y) then PI / 2
  else if decide (y < 0) then - (PI / 2)
  else 0.

(** [a / b] raises ZeroDivisionError when [b] is zero. *)
Definition py_div (a b : R) : option R :=
  if decide (b = 0) then None else Some (a / b).

(** [min(xs)] and [max(xs)] of a non-empty list of floats. *)
Definition min_list (x : R) (xs : list R) : R := fold_left Rmin xs x.
Definition max_list (x : R) (xs : list R) : R := fold_left Rmax xs x.

(** ** AgentDimensions *)

Record AgentDimensions := mkDims { dim_width : R; dim_length : R }.

Definition get_dimensions (behavior : BehaviorType) : AgentDimensions :=
  match behavior with
  | FAMILY => mkDims 1200 1500
  | IMPULSIVE | TARGETED => mkDims 450 300
  | _ => mkDims 900 600
  end.

(** ** StoreZone *)

Record StoreZone := mkZone {
  name : string;
  rect : QRectF;
  attractiveness : R;
  category : option string;
  queue_length : Z;
  max_queue_length : Z;
  queue_spacing : R
}.

(** [StoreZone.__init__] *)
Definition StoreZone_init (name : string) (rect : QRectF)
    (attractiveness : R) (category : option string) : StoreZone :=
  mkZone name rect attractiveness category 0 5 900.

Definition center (z : StoreZone) : QPointF := rect_center (rect z).

Definition get_queue_position (z : StoreZone) (pos : Z)
    (agent_dims : AgentDimensions) (scale : R) : option QPointF :=
  spacing ← py_div (queue_spacing z + dim_length agent_dims) scale;
  Some (padd (rect_center (rect z)) (mkPoint (- spacing * IZR pos) 0)).

Definition can_join_queue (z : StoreZone) : bool :=
  (queue_length z <? max_queue_length z)%Z.

Definition set_queue_length (n : Z) (z : StoreZone) : StoreZone :=
  mkZone (name z) (rect z) (attractiveness z) (category z)
         n (max_queue_length z) (queue_spacing z).

(** [join_queue] returns the zone after the call and the returned int. *)
Definition join_queue (z : StoreZone) : StoreZone * Z :=
  if can_join_queue z
  then (set_queue_length (queue_length z + 1) z, (queue_length z + 1)%Z)
  else (z, (-1)%Z).

(** Zones are shared objects: agents hold indices into the zone store. *)
Abbreviation zone_id := nat.

Definition default_zone : StoreZone :=
  StoreZone_init "" (mkRect 0 0 0 0) 1 None.

Definition zone_at (zs : list StoreZone) (z : zone_id) : StoreZone :=
  default default_zone (zs !! z).

(** ** Agent

    The attributes of [Agent] in the order [__init__] and [AgentGroup]
    assign them.  The back-reference [group] to a [CustomerGroup] is
    never assigned by the modelled code and is left out. *)

Record Agent := mkAgent {
  agent_id : nat;
  position : QPointF;
  dimensions : AgentDimensions;
  scale : R;
  real_speed : R;
  speed : R;
  heading : QPointF;
  desired_heading : QPointF;
  behavior : BehaviorType;
  budget : BudgetLevel;
  all_zones : list zone_id;
  unvisited_zones : list zone_id;
  cash_zones : list zone_id;
  exit_points : list QPointF;
  state : CustomerState;
  destination : option QPointF;
  shopping_time : R;
  payment_time : R;
  min_shopping_time : R;
  max_shopping_time : R;
  service_time : R;
  current_cash_zone : option zone_id;
  queue_position : option Z;
  reward_sensitivity : R;
  cost_sensitivity : R;
  imagery_vividness : R;
  anticipatory_emotion_weight : R;
  impulse_prob : R;
  entry_heading : QPointF;
  _first_move : bool;
  visited_zones : list zone_id;
  group_id : option nat;
  group_type : option string;
  role : option nat
}.

Definition set_position (v : QPointF) (a : Agent) : Agent :=
  mkAgent (agent_id a) v (dimensions a) (scale a) (real_speed a) (speed a)
    (heading a) (desired_heading a) (behavior a) (budget a) (all_zones a)
    (unvisited_zones a) (cash_zones a) (exit_points a) (state a)
    (destination a) (shopping_time a) (payment_time a) (min_shopping_time a)
    (max_shopping_time a) (service_time a) (current_cash_zone a)
    (queue_position a) (reward_sensitivity a) (cost_sensitivity a)
    (imagery_vividness a) (anticipatory_emotion_weight a) (impulse_prob a)
    (entry_heading a) (_first_move a) (visited_zones a) (group_id a)
    (group_type a) (role a).

Definition set_heading (v : QPointF) (a : Agent) : Agent :=
  mkAgent (agent_id a) (position a) (dimensions a) (scale a) (real_speed a)
    (speed a) v (desired_heading a) (behavior a) (budget a) (all_zones a)
    (unvisited_zones a) (cash_zones a) (exit_points a) (state a)
    (destination a) (shopping_time a) (payment_time a) (min_shopping_time a)
    (max_shopping_time a) (service_time a) (current_cash_zone a)
    (queue_position a) (reward_sensitivity a) (cost_sensitivity a)
    (imagery_vividness a) (anticipatory_emotion_weight a) (impulse_prob a)
    (entry_heading a) (_first_move a) (visited_zones a) (group_id a)
    (group_type a) (role a).

Definition set_desired_heading (v : QPointF) (a : Agent) : Agent :=
  mkAgent (agent_id a) (position a) (dimensions a) (scale a) (real_speed a)
    (speed a) (heading a) v (behavior a) (budget a) (all_zones a)
    (unvisited_zones a) (cash_zones a) (exit_points a) (state a)
    (destination a) (shopping_time a) (payment_time a) (min_shopping_time a)
    (max_shopping_time a) (service_time a) (current_cash_zone a)
    (queue_position a) (reward_sensitivity a) (cost_sensitivity a)
    (imagery_vividness a) (anticipatory_emotion_weight a) (impulse_prob a)
    (entry_heading a) (_first_move a) (visited_zones a) (group_id a)
    (group_type a) (role a).

Definition set_unvisited_zones (v : list zone_id) (a : Agent) : Agent :=
  mkAgent (agent_id a) (position a) (dimensions a) (scale a) (real_speed a)
    (speed a) (heading a) (desired_heading a) (behavior a) (budget a)
    (all_zones a) v (cash_zones a) (exit_points a) (state a) (destination a)
    (shopping_time a) (payment_time a) (min_shopping_time a)
    (max_shopping_time a) (service_time a) (current_cash_zone a)
    (queue_position a) (reward_sensitivity a) (cost_sensitivity a)
    (imagery_vividness a) (anticipatory_emotion_weight a) (impulse_prob a)
    (entry_heading a) (_first_move a) (visited_zones a) (group_id a)
    (group_type a) (role a).

Definition set_state (v : CustomerState) (a : Agent) : Agent :=
  mkAgent (agent_id a) (position a) (dimensions a) (scale a) (real_speed a)
    (speed a) (heading a) (desired_heading a) (behavior a) (budget a)
    (all_zones a) (unvisited_zones a) (cash_zones a) (exit_points a) v
    (destination a) (shopping_time a) (payment_time a) (min_shopping_time a)
    (max_shopping_time a) (service_time a) (current_cash_zone a)
    (queue_position a) (reward_sensitivity a) (cost_sensitivity a)
    (imagery_vividness a) (anticipatory_emotion_weight a) (impulse_prob a)
    (entry_heading a) (_first_move a) (visited_zones a) (group_id a)
    (group_type a) (role a).

Definition set_destination (v : option QPointF) (a : Agent) : Agent :=
  mkAgent (agent_id a) (position a) (dimensions a) (scale a) (real_speed a)
    (speed a) (heading a) (desired_heading a) (behavior a) (budget a)
    (all_zones a) (unvisited_zones a) (cash_zones a) (exit_points a) (state
    a) v (shopping_time a) (payment_time a) (min_shopping_time a)
    (max_shopping_time a) (service_time a) (current_cash_zone a)
    (queue_position a) (reward_sensitivity a) (cost_sensitivity a)
    (imagery_vividness a) (anticipatory_emotion_weight a) (impulse_prob a)
    (entry_heading a) (_first_move a) (visited_zones a) (group_id a)
    (group_type a) (role a).

Definition set_shopping_time (v : R) (a : Agent) : Agent :=
  mkAgent (agent_id a) (position a) (dimensions a) (scale a) (real_speed a)
    (speed a) (heading a) (desired_heading a) (behavior a) (budget a)
    (all_zones a) (unvisited_zones a) (cash_zones a) (exit_points a) (state
    a) (destination a) v (payment_time a) (min_shopping_time a)
    (max_shopping_time a) (service_time a) (current_cash_zone a)
    (queue_position a) (reward_sensitivity a) (cost_sensitivity a)
    (imagery_vividness a) (anticipatory_emotion_weight a) (impulse_prob a)
    (entry_heading a) (_first_move a) (visited_zones a) (group_id a)
    (group_type a) (role a).

Definition set_payment_time (v : R) (a : Agent) : Agent :=
  mkAgent (agent_id a) (position a) (dimensions a) (scale a) (real_speed a)
    (speed a) (heading a) (desired_heading a) (behavior a) (budget a)
    (all_zones a) (unvisited_zones a) (cash_zones a) (exit_points a) (state
    a) (destination a) (shopping_time a) v (min_shopping_time a)
    (max_shopping_time a) (service_time a) (current_cash_zone a)
    (queue_position a) (reward_sensitivity a) (cost_sensitivity a)
    (imagery_vividness a) (anticipatory_emotion_weight a) (impulse_prob a)
    (entry_heading a) (_first_move a) (visited_zones a) (group_id a)
    (group_type a) (role a).

Definition set_current_cash_zone (v : option zone_id) (a : Agent) : Agent :=
  mkAgent (agent_id a) (position a) (dimensions a) (scale a) (real_speed a)
    (speed a) (heading a) (desired_heading a) (behavior a) (budget a)
    (all_zones a) (unvisited_zones a) (cash_zones a) (exit_points a) (state
    a) (destination a) (shopping_time a) (payment_time a) (min_shopping_time
    a) (max_shopping_time a) (service_time a) v (queue_position a)
    (reward_sensitivity a) (cost_sensitivity a) (imagery_vividness a)
    (anticipatory_emotion_weight a) (impulse_prob a) (entry_heading a)
    (_first_move a) (visited_zones a) (group_id a) (group_type a) (role a).

Definition set_queue_position (v : option Z) (a : Agent) : Agent :=
  mkAgent (agent_id a) (position a) (dimensions a) (scale a) (real_speed a)
    (speed a) (heading a) (desired_heading a) (behavior a) (budget a)
    (all_zones a) (unvisited_zones a) (cash_zones a) (exit_points a) (state
    a) (destination a) (shopping_time a) (payment_time a) (min_shopping_time
    a) (max_shopping_time a) (service_time a) (current_cash_zone a) v
    (reward_sensitivity a) (cost_sensitivity a) (imagery_vividness a)
    (anticipatory_emotion_weight a) (impulse_prob a) (entry_heading a)
    (_first_move a) (visited_zones a) (group_id a) (group_type a) (role a).

Definition set_first_move (v : bool) (a : Agent) : Agent :=
  mkAgent (agent_id a) (position a) (dimensions a) (scale a) (real_speed a)
    (speed a) (heading a) (desired_heading a) (behavior a) (budget a)
    (all_zones a) (unvisited_zones a) (cash_zones a) (exit_points a) (state
    a) (destination a) (shopping_time a) (payment_time a) (min_shopping_time
    a) (max_shopping_time a) (service_time a) (current_cash_zone a)
    (queue_position a) (reward_sensitivity a) (cost_sensitivity a)
    (imagery_vividness a) (anticipatory_emotion_weight a) (impulse_prob a)
    (entry_heading a) v (visited_zones a) (group_id a) (group_type a) (role
    a).

Definition set_visited_zones (v : list zone_id) (a : Agent) : Agent :=
  mkAgent (agent_id a) (position a) (dimensions a) (scale a) (real_speed a)
    (speed a) (heading a) (desired_heading a) (behavior a) (budget a)
    (all_zones a) (unvisited_zones a) (cash_zones a) (exit_points a) (state
    a) (destination a) (shopping_time a) (payment_time a) (min_shopping_time
    a) (max_shopping_time a) (service_time a) (current_cash_zone a)
    (queue_position a) (reward_sensitivity a) (cost_sensitivity a)
    (imagery_vividness a) (anticipatory_emotion_weight a) (impulse_prob a)
    (entry_heading a) (_first_move a) v (group_id a) (group_type a) (role a).

Definition set_group_id (v : option nat) (a : Agent) : Agent :=
  mkAgent (agent_id a) (position a) (dimensions a) (scale a) (real_speed a)
    (speed a) (heading a) (desired_heading a) (behavior a) (budget a)
    (all_zones a) (unvisited_zones a) (cash_zones a) (exit_points a) (state
    a) (destination a) (shopping_time a) (payment_time a) (min_shopping_time
    a) (max_shopping_time a) (service_time a) (current_cash_zone a)
    (queue_position a) (reward_sensitivity a) (cost_sensitivity a)
    (imagery_vividness a) (anticipatory_emotion_weight a) (impulse_prob a)
    (entry_heading a) (_first_move a) (visited_zones a) v (group_type a)
    (role a).

Definition set_group_type (v : option string) (a : Agent) : Agent :=
  mkAgent (agent_id a) (position a) (dimensions a) (scale a) (real_speed a)
    (speed a) (heading a) (desired_heading a) (behavior a) (budget a)
    (all_zones a) (unvisited_zones a) (cash_zones a) (exit_points a) (state
    a) (destination a) (shopping_time a) (payment_time a) (min_shopping_time
    a) (max_shopping_time a) (service_time a) (current_cash_zone a)
    (queue_position a) (reward_sensitivity a) (cost_sensitivity a)
    (imagery_vividness a) (anticipatory_emotion_weight a) (impulse_prob a)
    (entry_heading a) (_first_move a) (visited_zones a) (group_id a) v (role
    a).

Definition set_role (v : option nat) (a : Agent) : Agent :=
  mkAgent (agent_id a) (position a) (dimensions a) (scale a) (real_speed a)
    (speed a) (heading a) (desired_heading a) (behavior a) (budget a)
    (all_zones a) (unvisited_zones a) (cash_zones a) (exit_points a) (state
    a) (destination a) (shopping_time a) (payment_time a) (min_shopping_time
    a) (max_shopping_time a) (service_time a) (current_cash_zone a)
    (queue_position a) (reward_sensitivity a) (cost_sensitivity a)
    (imagery_vividness a) (anticipatory_emotion_weight a) (impulse_prob a)
    (entry_heading a) (_first_move a) (visited_zones a) (group_id a)
    (group_type a) v.

Definition finished (a : Agent) : bool := bool_decide (state a = FINISHED).

Definition distance_to (a : Agent) (p : QPointF) : R :=
  let dx := pt_x p - pt_x (position a) in
  let dy := pt_y p - pt_y (position a) in
  sqrt (dx * dx + dy * dy).

(** Bounding box of the footprint rotated to the heading, in pixels. *)
Definition get_collision_rect (a : Agent) : option QRectF :=
  width ← py_div (dim_width (dimensions a)) (scale a);
  length ← py_div (dim_length (dimensions a)) (scale a);
  let angle := atan2 (pt_y (heading a)) (pt_x (heading a)) in
  let cx := pt_x (position a) in
  let cy := pt_y (position a) in
  let cos_a := cos angle in
  let sin_a := sin angle in
  let hw := width / 2 in
  let hl := length / 2 in
  let x1 := cx + hw * cos_a - hl * sin_a in
  let x2 := cx - hw * cos_a - hl * sin_a in
  let x3 := cx - hw * cos_a + hl * sin_a in
  let x4 := cx + hw * cos_a + hl * sin_a in
  let y1 := cy + hw * sin_a + hl * cos_a in
  let y2 := cy - hw * sin_a + hl * cos_a in
  let y3 := cy - hw * sin_a - hl * cos_a in
  let y4 := cy + hw * sin_a - hl * cos_a in
  let min_x := min_list x1 [x2; x3; x4] in
  let min_y := min_list y1 [y2; y3; y4] in
  Some (mkRect min_x min_y
               (max_list x1 [x2; x3; x4] - min_x)
               (max_list y1 [y2; y3; y4] - min_y)).

(** A loop whose body can raise. *)
Fixpoint fold_option {A B} (f : B -> A -> option B) (l : list A) (acc : B)
    : option B :=
  match l with
  | [] => Some acc
  | x :: l' => acc' ← f acc x; fold_option f l' acc'
  end.

(** One iteration of the loop of [_avoid_collisions]; [others] holds
    indices into the agent store [ags], [self] is the index of [a]. *)
Definition avoid_one (ags : list Agent) (self : nat) (a : Agent)
    (my_rect : QRectF) (v : QPointF) (j : nat) : option QPointF :=
  match ags !! j with
  | None => Some v
  | Some other =>
      if bool_decide (j = self) || finished other then Some v
      else
        other_rect ← get_collision_rect other;
        if negb (rect_intersects my_rect
                   (rect_adjusted (-50) (-50) 50 50 other_rect))
        then Some v
        else
          let dx := pt_x (position a) - pt_x (position other) in
          let dy := pt_y (position a) - pt_y (position other) in
          let d2 := dx * dx + dy * dy in
          if decide (0 < d2) then
            min_dist ← py_div (dim_width (dimensions a)
                               + dim_width (dimensions other))
                              (2 * scale a);
            let d := sqrt d2 in
            if decide (d < min_dist) then
              q ← py_div (2 * (min_dist - d)) d;
              Some (padd v (mkPoint (dx * q) (dy * q)))
            else
              e ← py_div (- (d - min_dist)) min_dist;
              let f := 0.5 * exp e in
              Some (padd v (mkPoint (dx * f) (dy * f)))
          else Some v
  end.

Definition avoid_collisions (ags : list Agent) (self : nat) (a : Agent)
    (others : list nat) : option QPointF :=
  my_rect ← get_collision_rect a;
  fold_option (avoid_one ags self a my_rect) others (mkPoint 0 0).

Definition zones_to_right (zs : list StoreZone) (a : Agent)
    (zones : list zone_id) : list zone_id :=
  filter (fun z =>
            let vec := psub (center (zone_at zs z)) (position a) in
            pt_x (entry_heading a) * pt_y vec
            - pt_y (entry_heading a) * pt_x vec < 0) zones.

Definition utility (a : Agent) (z : StoreZone) : R :=
  reward_sensitivity a * attractiveness z
  + anticipatory_emotion_weight a * imagery_vividness a
  - cost_sensitivity a / Rmax (attractiveness z) 0.1.

(** The weight of one zone in [_weighted_choice], with the draws it
    consumes. *)
Definition zone_weight (zs : list StoreZone) (a : Agent) (z : zone_id)
    (g : Rng) : R * Rng :=
  let zone := zone_at zs z in
  let '(w, g') :=
    match behavior a with
    | EXPLORER => (attractiveness zone, g)
    | TARGETED => (1 / (1 + distance_to a (center zone)), g)
    | BUDGET => (Rmax 0 (utility a zone), g)
    | IMPULSIVE =>
        let base := utility a zone in
        let '(u1, g1) := random_random g in
        let '(u2, g2) := random_random g1 in
        ((if decide (u1 < impulse_prob a) then base else 1) + u2, g2)
    | FAMILY =>
        let '(u, g1) := random_random g in (0.5 + u * 0.5, g1)
    end in
  (Rmax w 0, g').

Fixpoint zone_weights (zs : list StoreZone) (a : Agent)
    (zones : list zone_id) (g : Rng) : list R * Rng :=
  match zones with
  | [] => ([], g)
  | z :: rest =>
      let '(w, g1) := zone_weight zs a z g in
      let '(ws, g2) := zone_weights zs a rest g1 in
      (w :: ws, g2)
  end.

(** The roulette loop over [zip(zones, weights)]; [None] when the loop
    ends without returning. *)
Fixpoint roulette (zws : list (zone_id * R)) (r : R) : option zone_id :=
  match zws with
  | [] => None
  | (z, w) :: rest =>
      let r' := r - w in
      if decide (r' <= 0) then Some z else roulette rest r'
  end.

Definition weighted_choice (zs : list StoreZone) (a : Agent)
    (zones : list zone_id) (g : Rng) : option (zone_id * Rng) :=
  let '(weights, g1) := zone_weights zs a zones g in
  let total := fold_left Rplus weights 0 in
  if decide (total <= 0) then random_choice zones g1
  else
    let '(r, g2) := random_uniform 0 total g1 in
    match roulette (zip zones weights) r with
    | Some z => Some (z, g2)
    | None => z ← last zones; Some (z, g2)
    end.

(** [min(l, key=...)]: the first element whose key is minimal; ValueError
    on an empty list. *)
Definition min_by {A K} (lt : K -> K -> bool) (key : A -> K) (l : list A)
    : option A :=
  match l with
  | [] => None
  | x :: rest =>
      Some (fold_left (fun best y => if lt (key y) (key best) then y else best)
                      rest x)
  end.

Definition float_lt (x y : R) : bool := bool_decide (x < y).

(** Order of the tuples [(queue_length, distance)]. *)
Definition lex_lt (k1 k2 : Z * R) : bool :=
  (k1.1 <? k2.1)%Z || ((k1.1 =? k2.1)%Z && bool_decide (k1.2 < k2.2)).

(** [list.remove(x)]: drops the first occurrence, ValueError if absent. *)
Fixpoint list_remove (x : zone_id) (l : list zone_id) : option (list zone_id) :=
  match l with
  | [] => None
  | y :: l' =>
      if decide (y = x) then Some l'
      else l'' ← list_remove x l'; Some (y :: l'')
  end.

(** The budget filter of [_choose_next_target]. *)
Definition budget_filter (zs : list StoreZone) (b : BudgetLevel)
    (zones : list zone_id) : list zone_id :=
  match b with
  | LOW =>
      match filter (fun z => 1.3 <= attractiveness (zone_at zs z)) zones with
      | [] => zones
      | f => f
      end
  | MEDIUM =>
      match filter (fun z => 1.1 <= attractiveness (zone_at zs z)) zones with
      | [] => zones
      | f => f
      end
  | HIGH => zones
  end.

(** The right-hand rule of the first selection. *)
Definition first_move_filter (zs : list StoreZone) (a : Agent)
    (zones : list zone_id) : list zone_id :=
  if _first_move a then
    match zones_to_right zs a zones with
    | [] => zones
    | rz => rz
    end
  else zones.

(** The checkout block of [_choose_next_target]: the zone store and
    agent after it, and whether the function returned inside it. *)
Definition checkout_block (zs : list StoreZone) (a : Agent)
    : option (list StoreZone * Agent * bool) :=
  if bool_decide (unvisited_zones a = []) && negb (bool_decide (cash_zones a = []))
  then
    let available_cash :=
      filter (fun cz => can_join_queue (zone_at zs cz) = true) (cash_zones a) in
    match min_by lex_lt
            (fun cz => (queue_length (zone_at zs cz),
                        distance_to a (center (zone_at zs cz))))
            available_cash with
    | None => Some (zs, a, false)
    | Some cash =>
        let '(zone', pos) := join_queue (zone_at zs cash) in
        let zs1 := <[cash := zone']> zs in
        let a1 := set_queue_position (Some pos)
                    (set_current_cash_zone (Some cash) a) in
        if (0 <? pos)%Z then
          dest ← get_queue_position zone' pos (dimensions a1) (scale a1);
          Some (zs1, set_state IN_QUEUE (set_destination (Some dest) a1), true)
        else Some (zs1, a1, false)
    end
  else Some (zs, a, false).

(** [Agent._choose_next_target] *)
Definition choose_next_target (zs : list StoreZone) (a : Agent) (g : Rng)
    : option (list StoreZone * Agent * Rng) :=
  if decide (state a = LEAVING) then
    nearest_exit ← min_by float_lt (distance_to a) (exit_points a);
    Some (zs, set_destination (Some nearest_exit) a, g)
  else
    match checkout_block zs a with
    | None => None
    | Some (zs1, a1, true) => Some (zs1, a1, g)
    | Some (zs1, a1, false) =>
        match unvisited_zones a1 with
        | _ :: _ =>
            let zones := budget_filter zs1 (budget a1)
                           (first_move_filter zs1 a1 (unvisited_zones a1)) in
            let a2 := if _first_move a1 then set_first_move false a1 else a1 in
            match weighted_choice zs1 a2 zones g with
            | None => None
            | Some (z, g') =>
                unvisited ← list_remove z (unvisited_zones a2);
                Some (zs1,
                      set_state WALKING
                        (set_unvisited_zones unvisited
                           (set_visited_zones (visited_zones a2 ++ [z])
                              (set_destination
                                 (Some (center (zone_at zs1 z))) a2))),
                      g')
            end
        | [] => Some (zs1, set_destination None (set_state FINISHED a1), g)
        end
    end.

(** [Agent._update_heading] *)
Definition update_heading (a : Agent) (target avoid : QPointF) : Agent :=
  if truthy (destination a) then
    let dx := pt_x target - pt_x (position a) in
    let dy := pt_y target - pt_y (position a) in
    let length := sqrt (dx * dx + dy * dy) in
    let desired1 :=
      if decide (0 < length) then mkPoint (dx / length) (dy / length)
      else desired_heading a in
    let desired2 :=
      if bool_decide (pt_x avoid <> 0) || bool_decide (pt_y avoid <> 0) then
        let avoid_length :=
          sqrt (pt_x avoid * pt_x avoid + pt_y avoid * pt_y avoid) in
        let avoid_norm :=
          mkPoint (pt_x avoid / avoid_length) (pt_y avoid / avoid_length) in
        let summed := padd desired1 avoid_norm in
        let dh_length :=
          sqrt (pt_x summed * pt_x summed + pt_y summed * pt_y summed) in
        if decide (0 < dh_length)
        then mkPoint (pt_x summed / dh_length) (pt_y summed / dh_length)
        else summed
      else desired1 in
    let turn_rate := 0.2 in
    let turned :=
      mkPoint (pt_x (heading a) + (pt_x desired2 - pt_x (heading a)) * turn_rate)
              (pt_y (heading a) + (pt_y desired2 - pt_y (heading a)) * turn_rate) in
    let h_length :=
      sqrt (pt_x turned * pt_x turned + pt_y turned * pt_y turned) in
    let heading' :=
      if decide (0 < h_length)
      then mkPoint (pt_x turned / h_length) (pt_y turned / h_length)
      else turned in
    set_heading heading' (set_desired_heading desired2 a)
  else a.

(** The list comprehension of the IN_QUEUE branch: the agents of
    [others] queueing at the zone of [a], with their sort keys. *)
Definition queue_of (ags : list Agent) (a : Agent) (others : list nat)
    : list (nat * option Z) :=
  omap (fun j =>
          ag ← ags !! j;
          if bool_decide (current_cash_zone ag = current_cash_zone a)
             && bool_decide (state ag = IN_QUEUE)
          then Some (j, queue_position ag) else None) others.

(** Stable insertion by key: [x] goes before the first element whose key
    is not smaller. *)
Fixpoint insert_by_key (x : nat * Z) (l : list (nat * Z)) : list (nat * Z) :=
  match l with
  | [] => [x]
  | y :: l' => if (x.2 <=? y.2)%Z then x :: l else y :: insert_by_key x l'
  end.

(** [queue.sort(key=lambda ag: ag.queue_position)]: a stable sort; with
    two or more elements a key that is [None] raises TypeError. *)
Definition sort_queue (queue : list (nat * option Z)) : option (list nat) :=
  match queue with
  | [] => Some []
  | [jk] => Some [jk.1]
  | _ =>
      keyed ← mapM (fun jk : nat * option Z => k ← jk.2; Some (jk.1, k)) queue;
      Some ((foldr insert_by_key [] keyed).*1)
  end.

(** [Agent.move_towards_target]; [ags] is the agent store the references
    in [others] point into, [self] the index of [a] in it. *)
Definition move_towards_target (zs : list StoreZone) (ags : list Agent)
    (self : nat) (a : Agent) (others : list nat) (delta_time : R) (g : Rng)
    : option (list StoreZone * Agent * Rng) :=
  match state a with
  | FINISHED => Some (zs, a, g)
  | SHOPPING =>
      let a1 := set_shopping_time (shopping_time a + delta_time) a in
      if decide (min_shopping_time a1 <= shopping_time a1) then
        let '(u, g1) := random_random g in
        p ← py_div delta_time (max_shopping_time a1 - min_shopping_time a1);
        if decide (u < p)
        then choose_next_target zs (set_shopping_time 0 a1) g1
        else Some (zs, a1, g1)
      else Some (zs, a1, g)
  | PAYING =>
      let a1 := set_payment_time (payment_time a + delta_time) a in
      if decide (service_time a1 <= payment_time a1) then
        let a2 := set_state LEAVING (set_payment_time 0 a1) in
        match current_cash_zone a2 with
        | Some cz =>
            choose_next_target
              (alter (fun z => set_queue_length (queue_length z - 1) z) cz zs)
              (set_current_cash_zone None a2) g
        | None => choose_next_target zs a2 g
        end
      else Some (zs, a1, g)
  | IN_QUEUE =>
      match current_cash_zone a with
      | None => Some (zs, a, g)
      | Some cz =>
          queue ← sort_queue (queue_of ags a others);
          if bool_decide (head queue = Some self)
          then Some (zs, set_state PAYING a, g)
          else
            match queue_position a with
            | Some pos =>
                if bool_decide (pos = 0%Z) then Some (zs, a, g)
                else
                  target ← get_queue_position (zone_at zs cz) pos
                             (dimensions a) (scale a);
                  if decide (speed a * delta_time < distance_to a target) then
                    avoid ← avoid_collisions ags self a others;
                    let a1 := update_heading a target avoid in
                    Some (zs,
                          set_position
                            (padd (position a1)
                               (mkPoint (pt_x (heading a1) * speed a1 * delta_time)
                                        (pt_y (heading a1) * speed a1 * delta_time)))
                            a1,
                          g)
                  else Some (zs, a, g)
            | None => Some (zs, a, g)
            end
      end
  | WALKING | LEAVING =>
      match destination a with
      | Some dest =>
          if point_truthy dest then
            if decide (distance_to a dest <= speed a * delta_time) then
              let a1 := set_position dest a in
              match state a1 with
              | WALKING =>
                  match cash_zones a1 with
                  | [] =>
                      if point_in dest (exit_points a1)
                      then Some (zs, set_state FINISHED a1, g)
                      else choose_next_target zs a1 g
                  | _ :: _ => Some (zs, set_state SHOPPING a1, g)
                  end
              | LEAVING =>
                  if point_in dest (exit_points a1)
                  then Some (zs, set_state FINISHED a1, g)
                  else Some (zs, a1, g)
              | _ => choose_next_target zs a1 g
              end
            else
              avoid ← avoid_collisions ags self a others;
              let a1 := update_heading a dest avoid in
              let step := real_speed a1 * scale a1 * speed a1 * delta_time in
              Some (zs,
                    set_position
                      (padd (position a1)
                         (mkPoint (pt_x (heading a1) * step)
                                  (pt_y (heading a1) * step)))
                      a1,
                    g)
          else Some (zs, a, g)
      | None => Some (zs, a, g)
      end
  end.

(** [Agent.__init__]; [counter] is the class attribute [_id_counter]. *)
Definition Agent_init (zs : list StoreZone) (counter : nat)
    (start_pos : QPointF) (store_zones cash_zones : list zone_id)
    (exit_points : list QPointF) (behavior : BehaviorType)
    (budget : BudgetLevel) (scale speed : R) (g : Rng)
    : option (list StoreZone * Agent * Rng) :=
  let '(service_time, g1) := random_uniform 30 120 g in
  let '(reward_sensitivity, g2) := random_uniform 0.2 1 g1 in
  let '(cost_sensitivity, g3) := random_uniform 0.2 1 g2 in
  let '(imagery_vividness, g4) := random_uniform 0.2 1 g3 in
  let '(anticipatory_emotion_weight, g5) := random_uniform 0.2 1 g4 in
  let '(impulse_prob, g6) := random_uniform 0 0.5 g5 in
  choose_next_target zs
    (mkAgent counter start_pos (get_dimensions behavior) scale 1000
       (if decide (behavior = FAMILY) then speed * 0.7 else speed)
       (mkPoint 1 0) (mkPoint 1 0) behavior budget
       store_zones store_zones cash_zones exit_points
       WALKING None 0 0 5 30 service_time None None
       reward_sensitivity cost_sensitivity imagery_vividness
       anticipatory_emotion_weight impulse_prob
       (mkPoint 1 0) true [] None None None)
    g6.

(** ** The simulation state: the zone and agent stores *)

Record World := mkWorld {
  w_zones : list StoreZone;
  w_agents : list Agent;
  w_counter : nat
}.

Definition init_world : World := mkWorld [] [] 0.

(** Creating a zone object: [StoreZone(...)]. *)
Definition new_zone (w : World) (name : string) (rect : QRectF)
    (attractiveness : R) (category : option string) : World :=
  mkWorld (w_zones w ++ [StoreZone_init name rect attractiveness category])
          (w_agents w) (w_counter w).

(** Creating an agent object: [Agent(...)]; the new agent is the last of
    the store. *)
Definition spawn_agent (w : World) (start_pos : QPointF)
    (store_zones cash_zones : list zone_id) (exit_points : list QPointF)
    (behavior : BehaviorType) (budget : BudgetLevel) (scale speed : R)
    (g : Rng) : option (World * Rng) :=
  match Agent_init (w_zones w) (w_counter w) start_pos store_zones cash_zones
          exit_points behavior budget scale speed g with
  | None => None
  | Some (zs, a, g') =>
      Some (mkWorld zs (w_agents w ++ [a]) (S (w_counter w)), g')
  end.

(** The call [agent.move_towards_target(others, delta_time)] on the
    agent stored at [self]. *)
Definition step_agent (w : World) (self : nat) (others : list nat)
    (delta_time : R) (g : Rng) : option (World * Rng) :=
  a ← w_agents w !! self;
  match move_towards_target (w_zones w) (w_agents w) self a others
          delta_time g with
  | None => None
  | Some (zs, a', g') =>
      Some (mkWorld zs (<[self := a']> (w_agents w)) (w_counter w), g')
  end.

(** The agent loop of [update_loop] in main.py: every agent that is not
    finished moves once, in creation order, against the whole
    population. *)
Fixpoint update_agents (todo : list nat) (w : World) (delta_time : R)
    (g : Rng) : option (World * Rng) :=
  match todo with
  | [] => Some (w, g)
  | i :: todo' =>
      a ← w_agents w !! i;
      if finished a then update_agents todo' w delta_time g
      else
        match step_agent w i (seq 0 (length (w_agents w))) delta_time g with
        | None => None
        | Some (w', g') => update_agents todo' w' delta_time g'
        end
  end.

Definition update_loop (w : World) (delta_time : R) (g : Rng)
    : option (World * Rng) :=
  update_agents (seq 0 (length (w_agents w))) w delta_time g.

(** ** Groups (agent_group.py) *)

Module AgentType.

Definition INDIVIDUAL : string := "одинокий".

Definition PAIR : string := "пара".

Definition FAMILY : string := "семья".

(** [SIZES.get(group_type, 1)] *)
Definition SIZES_get (group_type : string) : nat :=
  if decide (group_type = INDIVIDUAL) then 1%nat
  else if decide (group_type = PAIR) then 2%nat
  else if decide (group_type = FAMILY) then 3%nat
  else 1%nat.

End AgentType.

Record AgentGroup := mkGroup {
  grp_type : string;
  grp_id : nat;
  members : list nat;
  grp_speed : R
}.

(** The member loop of [AgentGroup.__init__], for the roles from [role]
    on: [n] more agents are created, tagged and appended. *)
Fixpoint create_members (n : nat) (role : nat) (group_type : string)
    (gid : nat) (start_pos : QPointF) (target_zones cash_zones : list zone_id)
    (exit_points : list QPointF) (behavior : BehaviorType)
    (budget : BudgetLevel) (scale speed : R) (w : World) (g : Rng)
    : option (list nat * World * Rng) :=
  match n with
  | O => Some ([], w, g)
  | S n' =>
      match Agent_init (w_zones w) (w_counter w) start_pos target_zones
              cash_zones exit_points behavior budget scale speed g with
      | None => None
      | Some (zs, a, g1) =>
          let agent :=
            set_role (Some role)
              (set_group_type (Some group_type) (set_group_id (Some gid) a)) in
          let w1 := mkWorld zs (w_agents w ++ [agent]) (S (w_counter w)) in
          match create_members n' (S role) group_type gid start_pos
                  target_zones cash_zones exit_points behavior budget
                  scale speed w1 g1 with
          | None => None
          | Some (ms, w2, g2) => Some (length (w_agents w) :: ms, w2, g2)
          end
      end
  end.

(** [AgentGroup.__init__] *)
Definition AgentGroup_init (w : World) (group_type : string)
    (start_pos : QPointF) (target_zones cash_zones : list zone_id)
    (exit_points : list QPointF) (scale speed : R) (g : Rng)
    : option (AgentGroup * World * Rng) :=
  let '(d, g1) := rng_next g in
  let gid := pick_draw d in
  let size := AgentType.SIZES_get group_type in
  match (if decide (group_type = AgentType.INDIVIDUAL)
         then random_choice [IMPULSIVE; TARGETED; EXPLORER; BUDGET] g1
         else Some (FAMILY, g1)) with
  | None => None
  | Some (behavior, g2) =>
      match random_choice [LOW; MEDIUM; HIGH] g2 with
      | None => None
      | Some (budget, g3) =>
          match create_members size 0 group_type gid start_pos target_zones
                  cash_zones exit_points behavior budget scale speed w g3 with
          | None => None
          | Some (ms, w', g4) => Some (mkGroup group_type gid ms speed, w', g4)
          end
      end
  end.

(** The position a follower at [cur] takes when its predecessor is at
    [prev]: the body of the follower loop of [AgentGroup.update]. *)
Definition follow (group_speed : R) (prev cur : QPointF) : QPointF :=
  let direction := psub prev cur in
  let distance := sqrt (pt_x direction ^ 2 + pt_y direction ^ 2) in
  if decide (0 < distance) then
    let step := Rmin group_speed distance in
    padd cur (mkPoint (pt_x direction / distance * step)
                      (pt_y direction / distance * step))
  else prev.

(** The follower loop: [prev] is the member before the first of [rest]. *)
Fixpoint follow_chain (group_speed : R) (ags : list Agent) (prev : nat)
    (rest : list nat) : list Agent :=
  match rest with
  | [] => ags
  | cur :: rest' =>
      let ags' :=
        match ags !! prev, ags !! cur with
        | Some p, Some c =>
            <[cur := set_position (follow group_speed (position p) (position c)) c]> ags
        | _, _ => ags
        end in
      follow_chain group_speed ags' cur rest'
  end.

(** The default of the parameter [delta_time] of [move_towards_target]. *)
Definition default_delta_time : R := 0.033.

(** [AgentGroup.update] *)
Definition AgentGroup_update (w : World) (grp : AgentGroup) (g : Rng)
    : option (World * Rng) :=
  match members grp with
  | [] => Some (w, g)
  | leader :: followers =>
      match step_agent w leader (members grp) default_delta_time g with
      | None => None
      | Some (w1, g1) =>
          Some (mkWorld (w_zones w1)
                        (follow_chain (grp_speed grp) (w_agents w1) leader followers)
                        (w_counter w1),
                g1)
      end
  end.

(** [count] groups of one type, each at a random entrance. *)
Fixpoint make_groups (count : nat) (group_type : string)
    (entrances : list QPointF) (product_zones cash_zones : list zone_id)
    (exit_points : list QPointF) (scale speed : R) (w : World) (g : Rng)
    : option (list AgentGroup * World * Rng) :=
  match count with
  | O => Some ([], w, g)
  | S count' =>
      match random_choice entrances g with
      | None => None
      | Some (start, g1) =>
          match AgentGroup_init w group_type start product_zones cash_zones
                  exit_points scale speed g1 with
          | None => None
          | Some (grp, w1, g2) =>
              match make_groups count' group_type entrances product_zones
                      cash_zones exit_points scale speed w1 g2 with
              | None => None
              | Some (grps, w2, g3) => Some (grp :: grps, w2, g3)
              end
          end
      end
  end.

(** [int(total_agents * pct // size)] as the number of loop rounds. *)
Definition group_count (total_agents : Z) (pct : R) (size : nat) : nat :=
  Z.to_nat (Int_part (IZR total_agents * pct / INR size)).

(** The loop of [generate_agent_groups] over [distribution.items()]:
    the groups created and the value of [used_agents]. *)
Fixpoint generate_typed (distribution : list (string * R)) (total_agents : Z)
    (entrances : list QPointF) (product_zones cash_zones : list zone_id)
    (exit_points : list QPointF) (scale speed : R) (used_agents : Z)
    (w : World) (g : Rng) : option (list AgentGroup * Z * World * Rng) :=
  match distribution with
  | [] => Some ([], used_agents, w, g)
  | (group_type, pct) :: rest =>
      let size := AgentType.SIZES_get group_type in
      let count := group_count total_agents pct size in
      match make_groups count group_type entrances product_zones cash_zones
              exit_points scale speed w g with
      | None => None
      | Some (grps, w1, g1) =>
          match generate_typed rest total_agents entrances product_zones
                  cash_zones exit_points scale speed
                  (used_agents + Z.of_nat count * Z.of_nat size)%Z w1 g1 with
          | None => None
          | Some (grps', used, w2, g2) => Some (grps ++ grps', used, w2, g2)
          end
      end
  end.

(** [generate_agent_groups] *)
Definition generate_agent_groups (total_agents : Z)
    (distribution : list (string * R)) (entrances : list QPointF)
    (product_zones cash_zones : list zone_id) (exit_points : list QPointF)
    (scale speed : R) (w : World) (g : Rng)
    : option (list AgentGroup * World * Rng) :=
  match generate_typed distribution total_agents entrances product_zones
          cash_zones exit_points scale speed 0 w g with
  | None => None
  | Some (grps, used_agents, w1, g1) =>
      let remaining := (total_agents - used_agents)%Z in
      match make_groups (Z.to_nat remaining) AgentType.INDIVIDUAL entrances
              product_zones cash_zones exit_points scale speed w1 g1 with
      | None => None
      | Some (singles, w2, g2) => Some (grps ++ singles, w2, g2)
      end
  end.

(** ** Runs of the simulation

    One step is one of the elementary mutations the code performs on the
    stores: creating a zone, creating an agent, tagging a new group
    member, one call of [move_towards_target], one follower move.  The
    driver loop, the group operations and the factory are sequences of
    such steps.  An agent is created with references to zones that
    exist, and [random.random()] draws from [0, 1). *)

Inductive step : World -> World -> Prop :=
| step_new_zone w name rect attractiveness category :
    step w (new_zone w name rect attractiveness category)
| step_spawn w start_pos store_zones cash_zones exit_points behavior budget
    scale speed g w' g' :
    (forall z, z ∈ store_zones ++ cash_zones -> (z < length (w_zones w))%nat) ->
    rng_ok g ->
    spawn_agent w start_pos store_zones cash_zones exit_points behavior
      budget scale speed g = Some (w', g') ->
    step w w'
| step_tag w i a gid group_type role :
    w_agents w !! i = Some a ->
    step w (mkWorld (w_zones w)
              (<[i := set_role (Some role)
                        (set_group_type (Some group_type)
                           (set_group_id (Some gid) a))]> (w_agents w))
              (w_counter w))
| step_move w self others delta_time g w' g' :
    step_agent w self others delta_time g = Some (w', g') ->
    step w w'
| step_follow w group_speed prev cur p c :
    w_agents w !! prev = Some p ->
    w_agents w !! cur = Some c ->
    step w (mkWorld (w_zones w)
              (<[cur := set_position
                          (follow group_speed (position p) (position c)) c]>
                 (w_agents w))
              (w_counter w)).

Definition steps : World -> World -> Prop := rtc step.

Definition reachable (w : World) : Prop := steps init_world w.

(** The agents holding a claimed slot of zone [z]. *)
Definition holders (ags : list Agent) (z : zone_id) : nat :=
  length (filter (fun a => current_cash_zone a = Some z) ags).

(** ** Notions used in the statements, and the stores and agents of the
    worked examples *)

(** The agent after the assignments of the selection branch. *)
Definition selected (zs : list StoreZone) (a : Agent) (z : zone_id)
    (unvisited : list zone_id) : Agent :=
  let a2 := if _first_move a then set_first_move false a else a in
  set_state WALKING
    (set_unvisited_zones unvisited
       (set_visited_zones (visited_zones a2 ++ [z])
          (set_destination (Some (center (zone_at zs z))) a2))).

Definition zones6 : list StoreZone :=
  [ StoreZone_init "shelf" (mkRect 10 (-20) 10 10) 0.8 None;
    StoreZone_init "shelf" (mkRect 10 10 10 10) 1.5 None;
    StoreZone_init "shelf" (mkRect 30 (-20) 10 10) 1.1 None ].

Definition agent6 : Agent :=
  mkAgent 0 (mkPoint 0 0) (get_dimensions EXPLORER) 1 1000 1
    (mkPoint 1 0) (mkPoint 1 0) EXPLORER LOW
    [0; 1; 2]%nat [0; 1; 2]%nat [] []
    WALKING None 0 0 5 30 60 None None
    0.5 0.5 0.5 0.5 0.25 (mkPoint 1 0) true [] None None None.

(** What a call with [delta_time = 0] leaves in place. *)
Definition unchanged (a a' : Agent) : Prop :=
  position a' = position a /\ state a' = state a
  /\ shopping_time a' = shopping_time a /\ payment_time a' = payment_time a.

Definition checkout_rect : QRectF := mkRect 100 100 20 20.

Definition queued_agent (id : nat) (slot : Z) : Agent :=
  mkAgent id (mkPoint 0 0) (get_dimensions TARGETED) 1 1000 1
    (mkPoint 1 0) (mkPoint 1 0) TARGETED MEDIUM
    [] [] [0%nat] [mkPoint 0 0]
    IN_QUEUE (Some (mkPoint (110 - 1200 * IZR slot) 110)) 0 0 5 30 30
    (Some 0%nat) (Some slot)
    0.2 0.2 0.2 0.2 0 (mkPoint 1 0) true [] None None None.

Definition checkout_with (n : Z) : StoreZone :=
  set_queue_length n (StoreZone_init "checkout" checkout_rect 1 None).

Definition world_two_queued : World :=
  mkWorld [checkout_with 2] [queued_agent 0 1; queued_agent 1 2] 2.

Definition zero_rng : Rng := mkRng (fun _ => mkDraw 0 0) 0.

(** How an agent's itinerary and references can differ between two
    moments: the zone lists given at construction are fixed, and zones
    only move from the unvisited list to the end of the visited list. *)
Definition evolves (a a' : Agent) : Prop :=
  all_zones a' = all_zones a /\ cash_zones a' = cash_zones a
  /\ behavior a' = behavior a
  /\ exists moved, visited_zones a' = visited_zones a ++ moved
                   /\ unvisited_zones a ≡ₚ moved ++ unvisited_zones a'.

(** The effect of a call on the zone store and on the claimed zone of
    the calling agent: nothing, a release, or a join. *)
Inductive queue_effect (zs : list StoreZone) (a : Agent)
    (zs' : list StoreZone) (a' : Agent) : Prop :=
| effect_none :
    zs' = zs -> current_cash_zone a' = current_cash_zone a ->
    queue_effect zs a zs' a'
| effect_release cz :
    current_cash_zone a = Some cz -> current_cash_zone a' = None ->
    zs' = alter (fun z => set_queue_length (queue_length z - 1) z) cz zs ->
    queue_effect zs a zs' a'
| effect_join cash :
    cash ∈ cash_zones a ->
    can_join_queue (zone_at zs cash) = true ->
    current_cash_zone a' = Some cash ->
    zs' = <[cash := set_queue_length (queue_length (zone_at zs cash) + 1)
                      (zone_at zs cash)]> zs ->
    queue_effect zs a zs' a'.

(** Every reference of an agent to a checkout zone points into the zone
    store. *)
Definition refs_valid (w : World) : Prop :=
  forall a, a ∈ w_agents w ->
    (forall z, z ∈ cash_zones a -> (z < length (w_zones w))%nat)
    /\ (forall z, current_cash_zone a = Some z -> (z < length (w_zones w))%nat).

(** The counter of a zone lies between the number of agents holding one
    of its slots and its capacity. *)
Definition queue_inv (w : World) : Prop :=
  refs_valid w
  /\ forall z zone, w_zones w !! z = Some zone ->
       (Z.of_nat (holders (w_agents w) z) <= queue_length zone
        <= max_queue_length zone)%Z.

Definition holds (a : Agent) (z : zone_id) : nat :=
  if decide (current_cash_zone a = Some z) then 1%nat else 0%nat.

Definition world_checkout : World := mkWorld [checkout_with 0] [] 0.

Definition world_one_queued : World :=
  mkWorld [checkout_with 1] [queued_agent 0 1] 1.

Definition paid_agent : Agent :=
  set_destination (Some (mkPoint 0 0))
    (set_current_cash_zone None (set_state LEAVING (queued_agent 0 1))).

Definition world_first_paying : World :=
  mkWorld [checkout_with 2]
    [set_state PAYING (queued_agent 0 1); queued_agent 1 2] 2.

Definition world_first_paid : World :=
  mkWorld [checkout_with 1] [paid_agent; queued_agent 1 2] 2.

Definition world_same_slot : World :=
  mkWorld [checkout_with 2] [paid_agent; queued_agent 1 2; queued_agent 2 2] 3.

(** A shopper walking towards a shelf 500 pixels away. *)
Definition walker : Agent :=
  mkAgent 0 (mkPoint 0 0) (get_dimensions TARGETED) 1 1000 1
    (mkPoint 1 0) (mkPoint 1 0) TARGETED HIGH
    [1%nat] [] [0%nat] [mkPoint 0 0]
    WALKING (Some (mkPoint 500 0)) 0 0 5 30 30 None None
    0.2 0.2 0.2 0.2 0 (mkPoint 1 0) false [1%nat] None None None.

Definition walker_zones : list StoreZone :=
  [checkout_with 0; StoreZone_init "shelf" (mkRect 490 (-10) 20 20) 1 None].

(** Straight-line distance between two points. *)
Definition point_distance (p q : QPointF) : R :=
  sqrt ((pt_x q - pt_x p) ^ 2 + (pt_y q - pt_y p) ^ 2).

(** The three-member family of the scenario: the leader has moved 50
    units on from (100, 0) and dwells at a shelf, both followers still
    stand at (100, 0). *)
Definition family_member (role : nat) (pos : QPointF) (st : CustomerState)
    : Agent :=
  mkAgent role pos (get_dimensions FAMILY) 1 1000 (1 * 0.7)
    (mkPoint 1 0) (mkPoint 1 0) FAMILY MEDIUM
    [0%nat] [] [] [mkPoint 0 0]
    st (Some (mkPoint 150 0)) 0 0 5 30 30 None None
    0.2 0.2 0.2 0.2 0 (mkPoint 1 0) false [0%nat]
    (Some 7%nat) (Some AgentType.FAMILY) (Some role).

Definition family_zones : list StoreZone :=
  [StoreZone_init "shelf" (mkRect 140 (-10) 20 20) 1 None].

Definition world_family : World :=
  mkWorld family_zones
    [family_member 0 (mkPoint 150 0) SHOPPING;
     family_member 1 (mkPoint 100 0) WALKING;
     family_member 2 (mkPoint 100 0) WALKING] 3.

Definition family_group : AgentGroup :=
  mkGroup AgentType.FAMILY 7 [0; 1; 2]%nat 1.

(** The sum of the shares of a distribution. *)
Definition total_share (distribution : list (string * R)) : R :=
  foldr (fun tp acc => tp.2 + acc) 0 distribution.

(** The number of member agents of a list of groups. *)
Definition member_count (grps : list AgentGroup) : nat :=
  sum_list_with (fun grp => length (members grp)) grps.

(** The group types the first loop of the factory creates, in order. *)
Definition planned_types (total_agents : Z) (distribution : list (string * R))
    : list string :=
  flat_map (fun tp => replicate
                        (group_count total_agents tp.2 (AgentType.SIZES_get tp.1))
                        tp.1) distribution.

(** The number of agents in those groups. *)
Definition planned_agents (total_agents : Z) (distribution : list (string * R))
    : nat :=
  sum_list_with (fun tp => (group_count total_agents tp.2 (AgentType.SIZES_get tp.1)
                            * AgentType.SIZES_get tp.1)%nat) distribution.

(** A group as the factory leaves it: as many members as its type has,
    all stored, a single member with one of the four non-FAMILY
    strategies, the members of a larger group with FAMILY. *)
Definition group_formed (w : World) (grp : AgentGroup) : Prop :=
  length (members grp) = AgentType.SIZES_get (grp_type grp)
  /\ forall m, m ∈ members grp ->
       exists a, w_agents w !! m = Some a
         /\ (length (members grp) = 1%nat ->
             behavior a ∈ [IMPULSIVE; TARGETED; EXPLORER; BUDGET])
         /\ ((2 <= length (members grp))%nat -> behavior a = FAMILY).

Definition known_type (group_type : string) : Prop :=
  group_type ∈ [AgentType.INDIVIDUAL; AgentType.PAIR; AgentType.FAMILY].

(** Between calls the payment timer of an agent is below its service
    duration, which is positive. *)
Definition timer_inv (a : Agent) : Prop :=
  0 < service_time a /\ payment_time a < service_time a.

Definition timers_ok (w : World) : Prop :=
  forall a, a ∈ w_agents w -> timer_inv a.

(** A shopper who has visited every shelf and dwells at the last one
    while the only checkout is full. *)
Definition last_shopper : Agent :=
  mkAgent 0 (mkPoint 500 0) (get_dimensions TARGETED) 1 1000 1
    (mkPoint 1 0) (mkPoint 1 0) TARGETED HIGH
    [1%nat] [] [0%nat] [mkPoint 0 0]
    SHOPPING (Some (mkPoint 500 0)) 5 0 5 30 30 None None
    0.2 0.2 0.2 0.2 0 (mkPoint 1 0) false [1%nat] None None None.

Definition saturated_zones : list StoreZone :=
  [checkout_with 5; StoreZone_init "shelf" (mkRect 490 (-10) 20 20) 1 None].

Definition world_family_after : World :=
  mkWorld family_zones
    [set_shopping_time (0 + default_delta_time)
       (family_member 0 (mkPoint 150 0) SHOPPING);
     family_member 1 (mkPoint 101 0) WALKING;
     family_member 2 (mkPoint 101 0) WALKING] 3.

Definition world_shelves : World := mkWorld zones6 [] 0.

Definition even_distribution : list (string * R) :=
  [(AgentType.INDIVIDUAL, 0.5); (AgentType.PAIR, 0.3); (AgentType.FAMILY, 0.2)].

(** An explorer created on the centre of the shelf it selects. *)
Definition shopper (st : CustomerState) : Agent :=
  mkAgent 0 (mkPoint 500 0) (get_dimensions EXPLORER) 1 1000 1
    (mkPoint 1 0) (mkPoint 1 0) EXPLORER HIGH
    [1%nat] [] [0%nat] [mkPoint 0 0]
    st (Some (mkPoint 500 0)) 0 0 5 30 30 None None
    0.2 0.2 0.2 0.2 0 (mkPoint 1 0) false [1%nat] None None None.

Definition world_shopper (st : CustomerState) : World :=
  mkWorld walker_zones [shopper st] 1.

Definition half_full_zones : list StoreZone :=
  [checkout_with 1; StoreZone_init "shelf" (mkRect 490 (-10) 20 20) 1 None].

(** The sum of the first [n] weights. *)
Definition prefix_sum (weights : list R) (n : nat) : R :=
  foldr Rplus 0 (take n weights).

(** Whether the agent referenced by [j] contributes to the repulsion on
    the agent stored at [self]: it is stored, is another agent and has
    not finished. *)
Definition repels (ags : list Agent) (self : nat) (j : nat) : bool :=
  match ags !! j with
  | Some other => negb (bool_decide (j = self) || finished other)
  | None => false
  end.

(** The heading is a unit vector and the desired heading is no longer
    than one. *)
Definition heading_ok (a : Agent) : Prop :=
  pt_x (heading a) * pt_x (heading a) + pt_y (heading a) * pt_y (heading a) = 1
  /\ pt_x (desired_heading a) * pt_x (desired_heading a)
     + pt_y (desired_heading a) * pt_y (desired_heading a) <= 1.

(** The transitions one call of [move_towards_target] can make. *)
Definition transition (s s' : CustomerState) : bool :=
  match s, s' with
  | WALKING, (WALKING | SHOPPING | FINISHED) => true
  | SHOPPING, (SHOPPING | WALKING | IN_QUEUE | FINISHED) => true
  | IN_QUEUE, (IN_QUEUE | PAYING) => true
  | PAYING, (PAYING | LEAVING) => true
  | LEAVING, (LEAVING | FINISHED) => true
  | FINISHED, FINISHED => true
  | _, _ => false
  end.

(** The attributes [__init__] sets once and nothing changes. *)
Definition profile (a : Agent) :=
  (agent_id a, dimensions a, scale a, real_speed a, speed a, behavior a,
   budget a, exit_points a, min_shopping_time a, max_shopping_time a,
   service_time a,
   (reward_sensitivity a, cost_sensitivity a, imagery_vividness a,
    anticipatory_emotion_weight a, impulse_prob a),
   entry_heading a).

(** What [__init__] guarantees about them. *)
Definition constructed_ok (a : Agent) : Prop :=
  dimensions a = get_dimensions (behavior a)
  /\ real_speed a = 1000
  /\ min_shopping_time a = 5 /\ max_shopping_time a = 30
  /\ entry_heading a = mkPoint 1 0
  /\ 30 <= service_time a < 120
  /\ 0.2 <= reward_sensitivity a < 1
  /\ 0.2 <= cost_sensitivity a < 1
  /\ 0.2 <= imagery_vividness a < 1
  /\ 0.2 <= anticipatory_emotion_weight a < 1
  /\ 0 <= impulse_prob a < 0.5.

(** An agent in the queue of a checkout, waiting or being served. *)
Definition queued (a : Agent) : Prop := state a = IN_QUEUE \/ state a = PAYING.

(** An agent holds a zone exactly when it is queued, and then its slot
    index lies between 1 and the capacity of the zone. *)
Definition slot_consistent (zs : list StoreZone) (a : Agent) : Prop :=
  match current_cash_zone a with
  | Some z =>
      queued a
      /\ exists k, queue_position a = Some k
           /\ (1 <= k <= max_queue_length (zone_at zs z))%Z
  | None => ~ queued a
  end.

(** The effect of a call on the slot of the calling agent. *)
Inductive slot_step (zs : list StoreZone) (a : Agent)
    (zs' : list StoreZone) (a' : Agent) : Prop :=
| slot_idle :
    zs' = zs -> current_cash_zone a' = current_cash_zone a ->
    queue_position a' = queue_position a -> (queued a' <-> queued a) ->
    slot_step zs a zs' a'
| slot_released cz :
    current_cash_zone a = Some cz -> current_cash_zone a' = None ->
    ~ queued a' ->
    zs' = alter (fun z => set_queue_length (queue_length z - 1) z) cz zs ->
    slot_step zs a zs' a'
| slot_joined cash :
    current_cash_zone a = None -> cash ∈ cash_zones a ->
    can_join_queue (zone_at zs cash) = true ->
    current_cash_zone a' = Some cash -> state a' = IN_QUEUE ->
    queue_position a' = Some (queue_length (zone_at zs cash) + 1)%Z ->
    zs' = <[cash := set_queue_length (queue_length (zone_at zs cash) + 1)
                      (zone_at zs cash)]> zs ->
    slot_step zs a zs' a'.

(** Every counter is the number of agents holding the zone, and every
    agent is consistent with the store. *)
Definition slots_exact (w : World) : Prop :=
  refs_valid w
  /\ (forall a, a ∈ w_agents w -> slot_consistent (w_zones w) a)
  /\ forall z zone, w_zones w !! z = Some zone ->
       queue_length zone = Z.of_nat (holders (w_agents w) z).

Definition ids_sequential (w : World) : Prop :=
  w_counter w = length (w_agents w)
  /\ forall i a, w_agents w !! i = Some a -> agent_id a = i.

(** What is kept of an agent along a run: its profile, and the final
    states. *)
Definition settles (a a' : Agent) : Prop :=
  profile a' = profile a
  /\ (state a = FINISHED -> state a' = FINISHED)
  /\ (state a = LEAVING -> state a' = LEAVING \/ state a' = FINISHED).

Definition well_formed (a : Agent) : Prop := constructed_ok a /\ heading_ok a.

(** A member as [AgentGroup.__init__] leaves it. *)
Definition tagged_member (a : Agent) (gid : nat) (gt : string) (r : nat)
    (start_pos : QPointF) (bhv : BehaviorType) (bdg : BudgetLevel)
    (scl spd : R) (exits : list QPointF) (id : nat) : Prop :=
  role a = Some r /\ group_id a = Some gid /\ group_type a = Some gt
  /\ behavior a = bhv /\ budget a = bdg /\ position a = start_pos
  /\ scale a = scl /\ exit_points a = exits
  /\ speed a = (if decide (bhv = FAMILY) then spd * 0.7 else spd)
  /\ dimensions a = get_dimensions bhv
  /\ agent_id a = id.

(** All attributes but the position agree. *)
Definition same_but_position (a b : Agent) : Prop :=
  a = set_position (position a) b.

(** What [MainWindow.spawn_agent] (main.py) reads of a [ZoneDrawer] item
    of the scene: its type, [rect()], attractiveness and category. *)
Record ZoneDrawer := mkDrawer {
  zone_type : string;
  item_rect : QRectF;
  item_attractiveness : R;
  item_category : option string
}.

(** The loop over [self.scene.items()] in [spawn_agent]: a new
    [StoreZone] object for every product item and every checkout item,
    appended to [prod_zones] or [cash_zones]. *)
Fixpoint collect_zones (items : list ZoneDrawer) (w : World)
    (prod_zones cash_zones : list zone_id) : World * list zone_id * list zone_id :=
  match items with
  | [] => (w, prod_zones, cash_zones)
  | item :: rest =>
      if decide (zone_type item = "товары") then
        collect_zones rest
          (new_zone w (zone_type item) (item_rect item)
             (item_attractiveness item) (item_category item))
          (prod_zones ++ [length (w_zones w)]) cash_zones
      else if decide (zone_type item = "касса") then
        collect_zones rest
          (new_zone w (zone_type item) (item_rect item)
             (item_attractiveness item) None)
          prod_zones (cash_zones ++ [length (w_zones w)])
      else collect_zones rest w prod_zones cash_zones
  end.

(** [self.real_scale or 1.0]; [real_scale] is [None] until a scale has
    been set. *)
Definition scale_or_default (real_scale : option R) : R :=
  match real_scale with
  | Some s => if decide (s = 0) then 1 else s
  | None => 1
  end.

(** One round of the loop [for _ in range(mult)] of [spawn_agent]; the
    boolean is [false] when the round executes [return]. *)
Definition spawn_round (w : World) (items : list ZoneDrawer)
    (entry_exit_points : list QPointF) (real_scale : option R)
    (speed_mul : R) (g : Rng) : option (World * Rng * bool) :=
  match entry_exit_points with
  | [] => Some (w, g, false)
  | _ :: _ =>
      let '(w1, prod_zones, cash_zones) := collect_zones items w [] [] in
      if bool_decide (prod_zones = []) || bool_decide (cash_zones = [])
      then Some (w1, g, false)
      else
        match random_choice [IMPULSIVE; TARGETED; EXPLORER; FAMILY; BUDGET] g with
        | None => None
        | Some (behavior, g1) =>
            match random_choice [LOW; MEDIUM; HIGH] g1 with
            | None => None
            | Some (budget, g2) =>
                match random_choice entry_exit_points g2 with
                | None => None
                | Some (start, g3) =>
                    match spawn_agent w1 start prod_zones cash_zones
                            entry_exit_points behavior budget
                            (scale_or_default real_scale) (1 * speed_mul) g3 with
                    | None => None
                    | Some (w2, g4) => Some (w2, g4, true)
                    end
                end
            end
        end
  end.

(** The spawning loop of [MainWindow.spawn_agent], for [mult] rounds. *)
Fixpoint MainWindow_spawn_agent (mult : nat) (w : World)
    (items : list ZoneDrawer) (entry_exit_points : list QPointF)
    (real_scale : option R) (speed_mul : R) (g : Rng) : option (World * Rng) :=
  match mult with
  | O => Some (w, g)
  | S mult' =>
      match spawn_round w items entry_exit_points real_scale speed_mul g with
      | None => None
      | Some (w1, g1, true) =>
          MainWindow_spawn_agent mult' w1 items entry_exit_points real_scale
            speed_mul g1
      | Some (w1, g1, false) => Some (w1, g1)
      end
  end.

(** The runs of the application: calls of [spawn_agent] and of
    [update_loop], in any order and with any scene, entrances, scale,
    speed and tick length. *)
Inductive app_step : World -> World -> Prop :=
| app_spawn w mult items entry_exit_points real_scale speed_mul g w' g' :
    rng_ok g ->
    MainWindow_spawn_agent mult w items entry_exit_points real_scale
      speed_mul g = Some (w', g') ->
    app_step w w'
| app_update w delta_time g w' g' :
    update_loop w delta_time g = Some (w', g') ->
    app_step w w'.

Definition app_reachable (w : World) : Prop := rtc app_step init_world w.

(** An agent as a round of [spawn_agent] creates it. *)
Definition spawned_agent (entry_exit_points : list QPointF)
    (real_scale : option R) (speed_mul : R) (a : Agent) : Prop :=
  scale a = scale_or_default real_scale
  /\ exit_points a = entry_exit_points
  /\ position a ∈ entry_exit_points
  /\ speed a = (if decide (behavior a = FAMILY)
               then 1 * speed_mul * 0.7 else 1 * speed_mul)
  /\ dimensions a = get_dimensions (behavior a).

(** The agents of [w'] are those of [w], untouched, followed by agents
    created by [spawn_agent]. *)
Definition extended_by_spawning (entry_exit_points : list QPointF)
    (real_scale : option R) (speed_mul : R) (w w' : World) : Prop :=
  (forall j a, w_agents w !! j = Some a -> w_agents w' !! j = Some a)
  /\ forall j a, w_agents w' !! j = Some a ->
       (length (w_agents w) <= j)%nat ->
       spawned_agent entry_exit_points real_scale speed_mul a.

(** No two agents refer to the same checkout object. *)
Definition zones_private (w : World) : Prop :=
  forall i j a b z, w_agents w !! i = Some a -> w_agents w !! j = Some b ->
    z ∈ cash_zones a -> z ∈ cash_zones b -> i = j.

(** The zone an agent holds is one of its checkouts, and its slot is the
    first. *)
Definition front_slots (w : World) : Prop :=
  forall a z, a ∈ w_agents w -> current_cash_zone a = Some z ->
    z ∈ cash_zones a /\ queue_position a = Some 1%Z.

Definition app_inv (w : World) : Prop :=
  slots_exact w /\ zones_private w /\ front_slots w.

(** [Agent._check_collision]; [self] and [j] are the identities of the
    agent and of [other]. *)
Definition check_collision (self : nat) (a : Agent) (j : nat) (other : Agent)
    : option bool :=
  if bool_decide (j = self) || finished other then Some false
  else
    my_rect ← get_collision_rect a;
    other_rect ← get_collision_rect other;
    Some (rect_intersects my_rect other_rect).

(** * Properties *)

(** ** Target selection with saturated checkouts *)

Lemma fold_best_in {A K} (lt : K -> K -> bool) (key : A -> K) rest x :
  fold_left (fun best y => if lt (key y) (key best) then y else best) rest x
  ∈ x :: rest.
Proof.
  revert x. induction rest as [|y rest IH]; intros x; simpl.
  - apply list_elem_of_here.
  - destruct (lt (key y) (key x)).
    + apply list_elem_of_further, IH.
    + specialize (IH x). apply elem_of_cons in IH as [->|IH].
      * apply list_elem_of_here.
      * do 2 apply list_elem_of_further. exact IH.
Qed.

Lemma min_by_in {A K} (lt : K -> K -> bool) (key : A -> K) l x :
  min_by lt key l = Some x -> x ∈ l.
Proof.
  destruct l as [|y rest]; simpl; [congruence|].
  intros [= <-]. apply fold_best_in.
Qed.

Lemma filter_none_available zs (cash : list zone_id) :
  Forall (fun cz => can_join_queue (zone_at zs cz) = false) cash ->
  filter (fun cz => can_join_queue (zone_at zs cz) = true) cash = [].
Proof.
  induction 1 as [|cz l Hcz _ IH]; [reflexivity|].
  rewrite filter_cons. destruct (decide _) as [Ht|_]; [congruence|exact IH].
Qed.

Lemma checkout_block_saturated zs a :
  Forall (fun cz => can_join_queue (zone_at zs cz) = false) (cash_zones a) ->
  checkout_block zs a = Some (zs, a, false).
Proof.
  intros Hfull. unfold checkout_block.
  destruct (_ && _); [|reflexivity].
  rewrite (filter_none_available _ _ Hfull). reflexivity.
Qed.

(** C1.  Target re-selection with every shelf visited and every checkout
    at capacity: the code does not keep the agent's state and destination
    for a later retry.  The checkout block finds no zone with free
    capacity, falls through to the last branch of [_choose_next_target]
    and ends the visit: the state becomes FINISHED and the destination is
    cleared, whatever they were (unless the agent was already LEAVING). *)
Theorem saturated_checkouts_finish zs a g :
  state a <> LEAVING ->
  unvisited_zones a = [] ->
  cash_zones a <> [] ->
  Forall (fun cz => can_join_queue (zone_at zs cz) = false) (cash_zones a) ->
  choose_next_target zs a g
  = Some (zs, set_destination None (set_state FINISHED a), g).
Proof.
  intros Hst Hun _ Hfull. unfold choose_next_target.
  destruct (decide (state a = LEAVING)); [contradiction|].
  rewrite (checkout_block_saturated _ _ Hfull), Hun. reflexivity.
Qed.

(** ** The selection branch of target selection *)

Lemma random_choice_in {A} (l : list A) g :
  l <> [] -> exists x g', random_choice l g = Some (x, g') /\ x ∈ l.
Proof.
  intros Hl. unfold random_choice. simpl.
  destruct (lookup_lt_is_Some_2 l (pick_draw (stream g (cursor g)) mod length l)%nat)
    as [x Hx].
  { apply Nat.mod_upper_bound. destruct l; simpl; [congruence|lia]. }
  exists x, (mkRng (stream g) (S (cursor g))). rewrite Hx. split; [reflexivity|].
  eapply list_elem_of_lookup_2; eauto.
Qed.

Lemma random_choice_Some_in {A} (l : list A) g x g' :
  random_choice l g = Some (x, g') -> x ∈ l.
Proof.
  unfold random_choice. simpl.
  destruct (l !! _) as [y|] eqn:Hy; simpl; [|congruence].
  intros [= <- _]. eapply list_elem_of_lookup_2; eauto.
Qed.

Lemma roulette_in zws r z : roulette zws r = Some z -> z ∈ zws.*1.
Proof.
  revert r. induction zws as [|[z' w] zws IH]; intros r; simpl; [congruence|].
  destruct (decide (r - w <= 0)).
  - intros [= ->]. apply list_elem_of_here.
  - intros H. apply list_elem_of_further. eapply IH; eauto.
Qed.

Lemma fst_zip_subseteq {A B} (l : list A) (k : list B) x :
  x ∈ (zip l k).*1 -> x ∈ l.
Proof.
  revert k. induction l as [|y l IH]; intros [|b k]; simpl;
    try (intros H; inversion H; fail).
  intros H. apply elem_of_cons in H as [->|H].
  - apply list_elem_of_here.
  - apply list_elem_of_further. eauto.
Qed.

Lemma weighted_choice_Some_in zs a zones g z g' :
  weighted_choice zs a zones g = Some (z, g') -> z ∈ zones.
Proof.
  unfold weighted_choice.
  destruct (zone_weights zs a zones g) as [weights g1].
  destruct (decide (_ <= 0)).
  - apply random_choice_Some_in.
  - destruct (random_uniform 0 _ g1) as [r g2].
    destruct (roulette _ r) as [z'|] eqn:Hr.
    + intros [= <- _]. eapply fst_zip_subseteq, roulette_in; eauto.
    + destruct (last zones) as [z'|] eqn:Hl; simpl; [|congruence].
      intros [= <- _]. apply last_Some in Hl as [l' ->].
      apply elem_of_app. right. apply list_elem_of_here.
Qed.

Lemma weighted_choice_total zs a zones g :
  zones <> [] -> exists z g', weighted_choice zs a zones g = Some (z, g').
Proof.
  intros Hne. unfold weighted_choice.
  destruct (zone_weights zs a zones g) as [weights g1].
  destruct (decide (_ <= 0)).
  - destruct (random_choice_in zones g1 Hne) as (x & g' & -> & _). eauto.
  - destruct (random_uniform 0 _ g1) as [r g2].
    destruct (roulette _ r) as [z'|]; [eauto|].
    destruct (last zones) as [z'|] eqn:Hl; simpl; [eauto|].
    apply last_None in Hl. contradiction.
Qed.

Lemma list_remove_Some x l :
  x ∈ l -> exists l', list_remove x l = Some l'.
Proof.
  induction l as [|y l IH]; intros Hin; [inversion Hin|]. simpl.
  destruct (decide (y = x)); [eauto|].
  apply elem_of_cons in Hin as [->|Hin]; [congruence|].
  destruct (IH Hin) as [l' ->]. simpl. eauto.
Qed.

Lemma list_remove_perm x l l' :
  list_remove x l = Some l' -> l ≡ₚ x :: l'.
Proof.
  revert l'. induction l as [|y l IH]; intros l'; simpl; [congruence|].
  destruct (decide (y = x)) as [->|Hne].
  - intros [= ->]. reflexivity.
  - destruct (list_remove x l) as [l''|]; simpl; [|congruence].
    intros [= <-]. rewrite (IH l'' eq_refl). apply Permutation_swap.
Qed.

Lemma budget_filter_subseteq zs b zones z :
  z ∈ budget_filter zs b zones -> z ∈ zones.
Proof.
  unfold budget_filter. destruct b; [| |tauto].
  - destruct (filter _ zones) eqn:Hf; [tauto|]. rewrite <- Hf.
    intros H. apply list_elem_of_filter in H. tauto.
  - destruct (filter _ zones) eqn:Hf; [tauto|]. rewrite <- Hf.
    intros H. apply list_elem_of_filter in H. tauto.
Qed.

Lemma budget_filter_nonempty zs b zones :
  zones <> [] -> budget_filter zs b zones <> [].
Proof.
  unfold budget_filter. destruct b; [| |tauto].
  - destruct (filter _ zones); [tauto|congruence].
  - destruct (filter _ zones); [tauto|congruence].
Qed.

Lemma first_move_filter_subseteq zs a zones z :
  z ∈ first_move_filter zs a zones -> z ∈ zones.
Proof.
  unfold first_move_filter. destruct (_first_move a); [|tauto].
  destruct (zones_to_right zs a zones) eqn:Hf; [tauto|]. rewrite <- Hf.
  unfold zones_to_right. intros H. apply list_elem_of_filter in H. tauto.
Qed.

Lemma first_move_filter_nonempty zs a zones :
  zones <> [] -> first_move_filter zs a zones <> [].
Proof.
  unfold first_move_filter. destruct (_first_move a); [|tauto].
  destruct (zones_to_right zs a zones); [tauto|congruence].
Qed.

Lemma checkout_block_unvisited zs a :
  unvisited_zones a <> [] -> checkout_block zs a = Some (zs, a, false).
Proof.
  intros Hne. unfold checkout_block.
  rewrite bool_decide_eq_false_2 by exact Hne. reflexivity.
Qed.

Lemma choose_next_target_select zs a g :
  state a <> LEAVING ->
  unvisited_zones a <> [] ->
  exists z unvisited g',
    choose_next_target zs a g = Some (zs, selected zs a z unvisited, g')
    /\ z ∈ budget_filter zs (budget a)
             (first_move_filter zs a (unvisited_zones a))
    /\ list_remove z (unvisited_zones a) = Some unvisited.
Proof.
  intros Hst Hne. unfold choose_next_target.
  destruct (decide (state a = LEAVING)); [contradiction|].
  rewrite (checkout_block_unvisited _ _ Hne).
  destruct (unvisited_zones a) as [|z0 rest] eqn:Hun; [congruence|].
  rewrite <- Hun.
  set (zones := budget_filter zs (budget a)
                  (first_move_filter zs a (unvisited_zones a))).
  assert (Hz : zones <> []).
  { apply budget_filter_nonempty, first_move_filter_nonempty. congruence. }
  destruct (weighted_choice_total zs
              (if _first_move a then set_first_move false a else a) zones g Hz)
    as (z & g' & Hw).
  rewrite Hw.
  assert (Hin : z ∈ zones) by (eapply weighted_choice_Some_in; eauto).
  assert (Hin' : z ∈ unvisited_zones a).
  { eapply first_move_filter_subseteq, budget_filter_subseteq; eauto. }
  destruct (list_remove_Some _ _ Hin') as [l' Hl'].
  exists z, l', g'.
  replace (unvisited_zones (if _first_move a then set_first_move false a else a))
    with (unvisited_zones a) by (destruct (_first_move a); reflexivity).
  rewrite Hl'. simpl. auto.
Qed.

(** ** The budget filter *)

(** Decide a comparison of concrete reals in the goal. *)
Ltac decide_real :=
  match goal with
  | |- context [decide ?P] =>
      destruct (decide P) as [?|?]; [try (exfalso; simpl in *; lra)|try (exfalso; simpl in *; lra)]
  | |- context [bool_decide ?P] =>
      first [ rewrite (bool_decide_eq_true_2 P) by (simpl; lra)
            | rewrite (bool_decide_eq_false_2 P) by (simpl; lra) ]
  end.

Lemma zones6_right : zones_to_right zones6 agent6 [0; 1; 2]%nat = [0; 2]%nat.
Proof.
  unfold zones_to_right. rewrite !filter_cons, filter_nil.
  cbn.
  repeat decide_real. reflexivity.
Qed.

Lemma budget_filter_low zs zones z z' :
  z ∈ budget_filter zs LOW zones -> z' ∈ zones ->
  1.3 <= attractiveness (zone_at zs z') -> 1.3 <= attractiveness (zone_at zs z).
Proof.
  unfold budget_filter. intros Hz Hz' Hq.
  destruct (filter _ zones) as [|y f] eqn:Hf.
  - assert (Hin : z' ∈ filter (fun z => 1.3 <= attractiveness (zone_at zs z)) zones)
      by (apply list_elem_of_filter; auto).
    rewrite Hf in Hin. inversion Hin.
  - rewrite <- Hf in Hz. apply list_elem_of_filter in Hz. tauto.
Qed.

Lemma budget_filter_medium zs zones z z' :
  z ∈ budget_filter zs MEDIUM zones -> z' ∈ zones ->
  1.1 <= attractiveness (zone_at zs z') -> 1.1 <= attractiveness (zone_at zs z).
Proof.
  unfold budget_filter. intros Hz Hz' Hq.
  destruct (filter _ zones) as [|y f] eqn:Hf.
  - assert (Hin : z' ∈ filter (fun z => 1.1 <= attractiveness (zone_at zs z)) zones)
      by (apply list_elem_of_filter; auto).
    rewrite Hf in Hin. inversion Hin.
  - rewrite <- Hf in Hz. apply list_elem_of_filter in Hz. tauto.
Qed.

Lemma first_move_filter_keeps zs a zones z :
  z ∈ zones ->
  _first_move a = false \/ z ∈ zones_to_right zs a zones
  \/ zones_to_right zs a zones = [] ->
  z ∈ first_move_filter zs a zones.
Proof.
  intros Hz H. unfold first_move_filter.
  destruct (_first_move a); [|exact Hz].
  destruct H as [H|[H|H]]; [discriminate| |rewrite H; exact Hz].
  destruct (zones_to_right zs a zones); [inversion H|exact H].
Qed.

(** C6.  Selection among unvisited zones: the chosen zone comes from the
    candidate set, which is the unvisited zones narrowed, at the agent's
    first selection only, to those to the right of its entry heading
    when there are any.  For budget LOW the choice has attractiveness at
    least 1.3 whenever some candidate has (MEDIUM: 1.1; HIGH: no
    filter); the filter is skipped when no candidate qualifies.  A zone
    is a candidate whenever the selection is not the first one, or the
    zone lies to the right, or no zone does. *)
Theorem budget_filter_selection zs a g :
  state a <> LEAVING ->
  unvisited_zones a <> [] ->
  exists z unvisited g',
    choose_next_target zs a g = Some (zs, selected zs a z unvisited, g')
    /\ z ∈ first_move_filter zs a (unvisited_zones a)
    /\ (budget a = LOW ->
        forall z', z' ∈ first_move_filter zs a (unvisited_zones a) ->
                   1.3 <= attractiveness (zone_at zs z') ->
                   1.3 <= attractiveness (zone_at zs z))
    /\ (budget a = MEDIUM ->
        forall z', z' ∈ first_move_filter zs a (unvisited_zones a) ->
                   1.1 <= attractiveness (zone_at zs z') ->
                   1.1 <= attractiveness (zone_at zs z))
    /\ (forall z', z' ∈ unvisited_zones a ->
          _first_move a = false
          \/ z' ∈ zones_to_right zs a (unvisited_zones a)
          \/ zones_to_right zs a (unvisited_zones a) = [] ->
          z' ∈ first_move_filter zs a (unvisited_zones a)).
Proof.
  intros Hst Hne.
  destruct (choose_next_target_select zs a g Hst Hne) as (z & un & g' & Hc & Hz & _).
  exists z, un, g'. split; [exact Hc|]. split; [|split; [|split]].
  - eapply budget_filter_subseteq; eauto.
  - intros Hb z' Hz' Hq. rewrite Hb in Hz. eapply budget_filter_low; eauto.
  - intros Hb z' Hz' Hq. rewrite Hb in Hz. eapply budget_filter_medium; eauto.
  - intros z' Hz' H. apply first_move_filter_keeps; auto.
Qed.

Lemma budget_filter_selection_witness :
  exists z unvisited g',
    choose_next_target zones6 agent6 (mkRng (fun _ => mkDraw 0 0) 0)
    = Some (zones6, selected zones6 agent6 z unvisited, g')
    /\ z ∈ first_move_filter zones6 agent6 (unvisited_zones agent6).
Proof.
  destruct (budget_filter_selection zones6 agent6 (mkRng (fun _ => mkDraw 0 0) 0))
    as (z & un & g' & H1 & H2 & _).
  - simpl. discriminate.
  - simpl. discriminate.
  - exists z, un, g'. split; assumption.
Defined.

Lemma low_budget_first_selection_counterexample :
  budget agent6 = LOW
  /\ 1%nat ∈ unvisited_zones agent6
  /\ attractiveness (zone_at zones6 1%nat) = 1.5
  /\ exists z unvisited g',
       choose_next_target zones6 agent6 (mkRng (fun _ => mkDraw 0 0) 0)
       = Some (zones6, selected zones6 agent6 z unvisited, g')
       /\ z <> 1%nat
       /\ attractiveness (zone_at zones6 z) < 1.3.
Proof.
  split; [reflexivity|]. split; [simpl; set_solver|]. split; [reflexivity|].
  destruct (choose_next_target_select zones6 agent6 (mkRng (fun _ => mkDraw 0 0) 0))
    as (z & un & g' & Hc & Hz & _); [simpl; discriminate..|].
  exists z, un, g'. split; [exact Hc|].
  unfold first_move_filter in Hz. simpl _first_move in Hz.
  simpl unvisited_zones in Hz. rewrite zones6_right in Hz.
  simpl budget in Hz. unfold budget_filter in Hz.
  rewrite !filter_cons, filter_nil in Hz. cbn in Hz.
  repeat match type of Hz with
         | context [decide ?P] => destruct (decide P); [exfalso; lra|]
         end.
  apply elem_of_cons in Hz as [->|Hz]; [split; [lia|cbn; lra]|].
  apply elem_of_cons in Hz as [->|Hz]; [split; [lia|cbn; lra]|].
  inversion Hz.
Qed.

(** ** Steps of zero duration *)

Lemma padd_zero p hx hy s :
  padd p (mkPoint (hx * s * 0) (hy * s * 0)) = p.
Proof. destruct p as [x y]. unfold padd. simpl. f_equal; lra. Qed.

Lemma update_heading_keeps a target avoid :
  position (update_heading a target avoid) = position a
  /\ state (update_heading a target avoid) = state a
  /\ shopping_time (update_heading a target avoid) = shopping_time a
  /\ payment_time (update_heading a target avoid) = payment_time a
  /\ speed (update_heading a target avoid) = speed a
  /\ scale (update_heading a target avoid) = scale a
  /\ real_speed (update_heading a target avoid) = real_speed a.
Proof.
  unfold update_heading. destruct (truthy (destination a)); simpl; tauto.
Qed.

Lemma zero_delta_time_no_change zs ags self a others g zs' a' g' :
  rng_ok g ->
  (state a = IN_QUEUE -> forall queue,
     sort_queue (queue_of ags a others) = Some queue -> head queue <> Some self) ->
  (state a = PAYING -> payment_time a < service_time a) ->
  (state a = WALKING \/ state a = LEAVING ->
   forall dest, destination a = Some dest -> point_truthy dest = true ->
                0 < distance_to a dest) ->
  move_towards_target zs ags self a others 0 g = Some (zs', a', g') ->
  unchanged a a'.
Proof.
  intros Hg Hq Hp Hd. unfold move_towards_target, unchanged.
  destruct (state a) eqn:Hst.
  - (* WALKING *)
    destruct (destination a) as [dest|] eqn:Hdest; [|intros [= <- <- <-]; auto].
    destruct (point_truthy dest) eqn:Ht; [|intros [= <- <- <-]; auto].
    match type of Hd with ?P -> _ => assert (Hwl : P) by auto end.
    specialize (Hd Hwl dest eq_refl Ht).
    destruct (decide (distance_to a dest <= speed a * 0)); [lra|].
    destruct (avoid_collisions ags self a others) as [avoid|]; simpl; [|congruence].
    intros [= <- <- <-]. simpl.
    destruct (update_heading_keeps a dest avoid) as (-> & -> & -> & -> & _).
    rewrite Rmult_0_r, !Rmult_0_r. 
    replace (padd (position a) (mkPoint 0 0)) with (position a)
      by (destruct (position a); unfold padd; simpl; f_equal; lra).
    auto.
  - (* SHOPPING *)
    simpl.
    destruct (decide (min_shopping_time a <= shopping_time a + 0)).
    + unfold random_random, rng_next.
      unfold py_div. destruct (decide (_ = 0)); simpl; [congruence|].
      destruct (decide (_ < 0 / _)) as [Hlt|_].
      * exfalso. destruct (Hg (cursor g)) as [H0 _].
        unfold Rdiv in Hlt. rewrite Rmult_0_l in Hlt. lra.
      * intros [= <- <- <-]. simpl. repeat split; auto; lra.
    + intros [= <- <- <-]. simpl. repeat split; auto; lra.
  - (* IN_QUEUE *)
    destruct (current_cash_zone a) as [cz|]; [|intros [= <- <- <-]; auto].
    destruct (sort_queue (queue_of ags a others)) as [queue|] eqn:Hs;
      simpl; [|congruence].
    rewrite bool_decide_eq_false_2 by (apply Hq; auto).
    destruct (queue_position a) as [pos|]; [|intros [= <- <- <-]; auto].
    destruct (bool_decide (pos = 0%Z)); [intros [= <- <- <-]; auto|].
    destruct (get_queue_position _ _ _ _) as [target|]; simpl; [|congruence].
    destruct (decide (_ < _)); [|intros [= <- <- <-]; auto].
    destruct (avoid_collisions ags self a others) as [avoid|]; simpl; [|congruence].
    intros [= <- <- <-]. simpl.
    destruct (update_heading_keeps a target avoid) as (-> & -> & -> & -> & _).
    rewrite padd_zero. auto.
  - (* PAYING *)
    simpl. specialize (Hp eq_refl).
    destruct (decide (service_time a <= payment_time a + 0)); [lra|].
    intros [= <- <- <-]. simpl. repeat split; auto; lra.
  - (* LEAVING *)
    destruct (destination a) as [dest|] eqn:Hdest; [|intros [= <- <- <-]; auto].
    destruct (point_truthy dest) eqn:Ht; [|intros [= <- <- <-]; auto].
    match type of Hd with ?P -> _ => assert (Hwl : P) by auto end.
    specialize (Hd Hwl dest eq_refl Ht).
    destruct (decide (distance_to a dest <= speed a * 0)); [lra|].
    destruct (avoid_collisions ags self a others) as [avoid|]; simpl; [|congruence].
    intros [= <- <- <-]. simpl.
    destruct (update_heading_keeps a dest avoid) as (-> & -> & -> & -> & _).
    rewrite Rmult_0_r, !Rmult_0_r.
    replace (padd (position a) (mkPoint 0 0)) with (position a)
      by (destruct (position a); unfold padd; simpl; f_equal; lra).
    auto.
  - (* FINISHED *)
    intros [= <- <- <-]. auto.
Qed.

(** ** The head of a checkout queue *)

Lemma sorted_head_min (keyed : list (nat * Z)) :
  match foldr insert_by_key [] keyed with
  | [] => keyed = []
  | x :: _ => x ∈ keyed /\ forall y, y ∈ keyed -> (x.2 <= y.2)%Z
  end.
Proof.
  induction keyed as [|k ks IH]; simpl; [reflexivity|].
  destruct (foldr insert_by_key [] ks) as [|y l]; simpl.
  - subst ks. split; [apply list_elem_of_here|].
    intros y Hy. apply list_elem_of_singleton in Hy. subst. lia.
  - destruct IH as [Hy Hmin].
    destruct (k.2 <=? y.2)%Z eqn:Hle.
    + apply Z.leb_le in Hle. split; [apply list_elem_of_here|].
      intros y' Hy'. apply elem_of_cons in Hy' as [->|Hy']; [lia|].
      specialize (Hmin y' Hy'). lia.
    + apply Z.leb_gt in Hle. split; [apply list_elem_of_further; exact Hy|].
      intros y' Hy'. apply elem_of_cons in Hy' as [->|Hy']; [lia|].
      apply Hmin; exact Hy'.
Qed.

Lemma queue_of_elem ags a others j k :
  (j, k) ∈ queue_of ags a others <->
  j ∈ others /\ exists ag, ags !! j = Some ag
     /\ current_cash_zone ag = current_cash_zone a
     /\ state ag = IN_QUEUE /\ queue_position ag = k.
Proof.
  unfold queue_of. rewrite list_elem_of_omap. split.
  - intros (j' & Hj' & Hf). destruct (ags !! j') as [ag|] eqn:Hag; simpl in Hf;
      [|congruence].
    destruct (bool_decide (current_cash_zone ag = current_cash_zone a)) eqn:H1;
      simpl in Hf; [|congruence].
    destruct (bool_decide (state ag = IN_QUEUE)) eqn:H2; simpl in Hf; [|congruence].
    injection Hf as <- <-. apply bool_decide_eq_true_1 in H1, H2.
    split; [exact Hj'|]. exists ag. auto.
  - intros (Hj & ag & Hag & H1 & H2 & H3). exists j. split; [exact Hj|].
    rewrite Hag. simpl. rewrite !bool_decide_eq_true_2 by assumption.
    simpl. congruence.
Qed.

Lemma sort_queue_head queue sorted self :
  sort_queue queue = Some sorted -> head sorted = Some self ->
  exists kself, (self, kself) ∈ queue
    /\ forall j kj, (j, kj) ∈ queue -> (j, kj) <> (self, kself) ->
         exists k k', kself = Some k /\ kj = Some k' /\ (k <= k')%Z.
Proof.
  unfold sort_queue. destruct queue as [|jk1 [|jk2 rest]].
  - intros [= <-]. discriminate.
  - intros [= <-] [= <-]. exists jk1.2. destruct jk1 as [j1 k1]. simpl.
    split; [apply list_elem_of_here|].
    intros j kj Hin Hne. apply list_elem_of_singleton in Hin. congruence.
  - set (queue := jk1 :: jk2 :: rest).
    destruct (mapM _ queue) as [keyed|] eqn:Hm; simpl; [|congruence].
    intros [= <-] Hhead. apply mapM_Some in Hm.
    pose proof (sorted_head_min keyed) as Hs.
    destruct (foldr insert_by_key [] keyed) as [|[j0 k0] l]; [discriminate|].
    simpl in Hhead. injection Hhead as ->. destruct Hs as [Hin Hmin].
    exists (Some k0). split.
    + apply list_elem_of_lookup in Hin as [i Hi].
      destruct (Forall2_lookup_r _ _ _ _ _ Hm Hi) as ([j k] & Hq & Hf).
      simpl in Hf. destruct k as [k|]; simpl in Hf; [|congruence].
      injection Hf as -> ->. eapply list_elem_of_lookup_2; eauto.
    + intros j kj Hj _. apply list_elem_of_lookup in Hj as [i Hi].
      destruct (Forall2_lookup_l _ _ _ _ _ Hm Hi) as ([j' k'] & Hk & Hf).
      simpl in Hf. destruct kj as [kj|]; simpl in Hf; [|congruence].
      injection Hf as <- <-. exists k0, kj. split; [reflexivity|].
      split; [reflexivity|].
      apply (Hmin (j, kj)). eapply list_elem_of_lookup_2; eauto.
Qed.

(** C2.  Promotion at the head of a checkout queue: when a call of the
    movement step takes an IN_QUEUE agent to PAYING, that agent is in
    [others] and holds the minimum claimed slot among the agents of
    [others] that are IN_QUEUE for the same zone at the moment of the
    call.  Agents promoted earlier in the same pass are PAYING and no
    longer count, so the bound of one promotion per zone and tick does
    not hold (see [two_promotions_in_one_tick_counterexample]). *)
Theorem queue_head_promoted zs ags self a others delta_time g zs' a' g' :
  ags !! self = Some a ->
  state a = IN_QUEUE ->
  move_towards_target zs ags self a others delta_time g = Some (zs', a', g') ->
  state a' = PAYING ->
  self ∈ others
  /\ forall j ag, j ∈ others -> j <> self -> ags !! j = Some ag ->
       state ag = IN_QUEUE -> current_cash_zone ag = current_cash_zone a ->
       exists k kj, queue_position a = Some k /\ queue_position ag = Some kj
                    /\ (k <= kj)%Z.
Proof.
  intros Hself Hst. unfold move_towards_target. rewrite Hst.
  destruct (current_cash_zone a) as [cz|] eqn:Hcz;
    [|intros [= <- <- <-]; congruence].
  destruct (sort_queue (queue_of ags a others)) as [queue|] eqn:Hs;
    simpl; [|congruence].
  destruct (bool_decide (head queue = Some self)) eqn:Hh.
  - intros _ _. apply bool_decide_eq_true_1 in Hh.
    destruct (sort_queue_head _ _ _ Hs Hh) as (kself & Hin & Hmin).
    apply queue_of_elem in Hin as (Hin & ag0 & Hag0 & _ & _ & Hk0).
    rewrite Hself in Hag0. injection Hag0 as <-.
    split; [exact Hin|].
    intros j ag Hj Hne Hag Hq Hzone.
    destruct (Hmin j (queue_position ag)) as (k & k' & Hk & Hk' & Hle).
    + apply queue_of_elem. split; [exact Hj|]. exists ag. rewrite Hcz. auto.
    + congruence.
    + exists k, k'. split; [congruence|]. auto.
  - destruct (queue_position a) as [pos|]; [|intros [= <- <- <-]; congruence].
    destruct (bool_decide (pos = 0%Z)); [intros [= <- <- <-]; congruence|].
    destruct (get_queue_position _ _ _ _) as [target|]; simpl; [|congruence].
    destruct (decide (_ < _)); [|intros [= <- <- <-]; congruence].
    destruct (avoid_collisions ags self a others) as [avoid|]; simpl; [|congruence].
    intros [= <- <- <-]. simpl.
    destruct (update_heading_keeps a target avoid) as (_ & -> & _). congruence.
Qed.

Lemma two_promotions_in_one_tick :
  update_loop world_two_queued default_delta_time zero_rng
  = Some (mkWorld [checkout_with 2]
            [set_state PAYING (queued_agent 0 1);
             set_state PAYING (queued_agent 1 2)] 2, zero_rng).
Proof. reflexivity. Qed.

(** ** Effects of target selection on itinerary and queues *)

Lemma evolves_refl a : evolves a a.
Proof.
  repeat split. exists []. rewrite app_nil_r. split; reflexivity.
Qed.

Lemma evolves_trans a b c : evolves a b -> evolves b c -> evolves a c.
Proof.
  intros (H1 & H2 & Hb & m1 & H3 & H4) (H1' & H2' & Hb' & m2 & H3' & H4').
  split; [congruence|]. split; [congruence|]. split; [congruence|].
  exists (m1 ++ m2). split.
  - rewrite H3', H3, app_assoc. reflexivity.
  - rewrite H4, H4', app_assoc. reflexivity.
Qed.

(** Assignments that touch neither the zone lists nor the itinerary. *)
Lemma evolves_same a a' :
  all_zones a' = all_zones a -> cash_zones a' = cash_zones a ->
  behavior a' = behavior a ->
  visited_zones a' = visited_zones a ->
  unvisited_zones a' = unvisited_zones a -> evolves a a'.
Proof.
  intros H1 H2 Hb H3 H4. split; [exact H1|]. split; [exact H2|].
  split; [exact Hb|].
  exists []. rewrite app_nil_r, H4. split; [exact H3|reflexivity].
Qed.

Lemma checkout_block_spec zs a zs1 a1 returned :
  checkout_block zs a = Some (zs1, a1, returned) ->
  evolves a a1 /\ queue_effect zs a zs1 a1
  /\ unvisited_zones a1 = unvisited_zones a
  /\ (returned = false -> unvisited_zones a <> [] -> zs1 = zs /\ a1 = a).
Proof.
  unfold checkout_block.
  destruct (bool_decide (unvisited_zones a = [])) eqn:Hun; simpl.
  2:{ intros [= <- <- <-]. split; [apply evolves_refl|].
      split; [apply effect_none; reflexivity|]. auto. }
  destruct (negb _); simpl.
  2:{ intros [= <- <- <-]. split; [apply evolves_refl|].
      split; [apply effect_none; reflexivity|]. auto. }
  apply bool_decide_eq_true_1 in Hun.
  destruct (min_by _ _ _) as [cash|] eqn:Hmin.
  2:{ intros [= <- <- <-]. split; [apply evolves_refl|].
      split; [apply effect_none; reflexivity|]. auto. }
  apply min_by_in, list_elem_of_filter in Hmin as [Hcan Hin].
  unfold join_queue. rewrite Hcan.
  destruct (0 <? _)%Z.
  - destruct (get_queue_position _ _ _ _) as [dest|]; simpl; [|congruence].
    intros [= <- <- <-].
    split; [apply evolves_same; reflexivity|].
    split; [eapply effect_join; eauto|].
    split; [reflexivity|]. intros; congruence.
  - intros [= <- <- <-].
    split; [apply evolves_same; reflexivity|].
    split; [eapply effect_join; eauto|].
    split; [reflexivity|]. intros; congruence.
Qed.

Lemma queue_effect_after zs a zs1 a1 a2 :
  queue_effect zs a zs1 a1 ->
  current_cash_zone a2 = current_cash_zone a1 ->
  queue_effect zs a zs1 a2.
Proof.
  intros [H1 H2|cz H1 H2 H3|cash H1 H2 H3 H4] Heq.
  - apply effect_none; congruence.
  - eapply effect_release; eauto; congruence.
  - eapply effect_join; eauto; congruence.
Qed.

Lemma choose_next_target_effect zs a g zs' a' g' :
  choose_next_target zs a g = Some (zs', a', g') ->
  evolves a a' /\ queue_effect zs a zs' a'.
Proof.
  unfold choose_next_target.
  destruct (decide (state a = LEAVING)).
  { destruct (min_by _ _ _); simpl; [|congruence]. intros [= <- <- <-].
    split; [apply evolves_same; reflexivity|apply effect_none; reflexivity]. }
  destruct (checkout_block zs a) as [[[zs1 a1] returned]|] eqn:Hc; [|congruence].
  destruct (checkout_block_spec _ _ _ _ _ Hc) as (Hev & Hq & Hun & Hsame).
  destruct returned.
  { intros [= <- <- <-]. auto. }
  destruct (unvisited_zones a1) as [|z0 rest] eqn:Hun1.
  { intros [= <- <- <-]. split.
    - eapply evolves_trans; [exact Hev|apply evolves_same; reflexivity].
    - eapply queue_effect_after; eauto. }
  rewrite <- Hun1.
  destruct (Hsame eq_refl) as [-> ->]; [congruence|].
  destruct (weighted_choice _ _ _ _) as [[z g1]|] eqn:Hw; [|congruence].
  destruct (list_remove z _) as [unvisited|] eqn:Hr; simpl; [|congruence].
  intros [= <- <- <-]. split.
  - split; [destruct (_first_move a); reflexivity|].
    split; [destruct (_first_move a); reflexivity|].
    split; [destruct (_first_move a); reflexivity|].
    exists [z]. simpl. split; [destruct (_first_move a); reflexivity|].
    apply list_remove_perm in Hr.
    destruct (_first_move a); exact Hr.
  - apply effect_none; [reflexivity|]. destruct (_first_move a); reflexivity.
Qed.

(** ** Effects of the movement step *)

Lemma queue_effect_before zs a0 a zs' a' :
  queue_effect zs a0 zs' a' ->
  current_cash_zone a0 = current_cash_zone a ->
  cash_zones a0 = cash_zones a ->
  queue_effect zs a zs' a'.
Proof.
  intros [H1 H2|cz H1 H2 H3|cash H1 H2 H3 H4] Hc Hz.
  - apply effect_none; congruence.
  - eapply effect_release; eauto; congruence.
  - eapply effect_join; eauto; congruence.
Qed.

Lemma update_heading_evolves a target avoid :
  evolves a (update_heading a target avoid)
  /\ current_cash_zone (update_heading a target avoid) = current_cash_zone a.
Proof.
  unfold update_heading. destruct (truthy (destination a)).
  - split; [apply evolves_same; reflexivity|reflexivity].
  - split; [apply evolves_refl|reflexivity].
Qed.

Lemma choose_next_target_leaving zs a g zs' a' g' :
  state a = LEAVING ->
  choose_next_target zs a g = Some (zs', a', g') ->
  zs' = zs /\ current_cash_zone a' = current_cash_zone a /\ evolves a a'.
Proof.
  intros Hst. unfold choose_next_target.
  destruct (decide (state a = LEAVING)); [|contradiction].
  destruct (min_by _ _ _); simpl; [|congruence]. intros [= <- <- <-].
  split; [reflexivity|]. split; [reflexivity|]. apply evolves_same; reflexivity.
Qed.

Ltac same_agent :=
  intros [= <- <- <-];
  split; [first [apply evolves_refl | apply evolves_same; reflexivity]
         |apply effect_none; reflexivity].

Ltac via_choice H :=
  apply choose_next_target_effect in H as [Hev Hq];
  split; [eapply evolves_trans; [|exact Hev]; apply evolves_same; reflexivity
         |eapply queue_effect_before; [exact Hq|reflexivity..]].

Lemma move_towards_target_effect zs ags self a others delta_time g zs' a' g' :
  move_towards_target zs ags self a others delta_time g = Some (zs', a', g') ->
  evolves a a' /\ queue_effect zs a zs' a'.
Proof.
  unfold move_towards_target.
  destruct (state a) eqn:Hst.
  - (* WALKING *)
    destruct (destination a) as [dest|]; [|same_agent].
    destruct (point_truthy dest); [|same_agent].
    destruct (decide (_ <= _)).
    + simpl. rewrite Hst. destruct (cash_zones a) eqn:Hcash; [|same_agent].
      destruct (point_in _ _); [same_agent|].
      intros H. via_choice H.
    + destruct (avoid_collisions _ _ _ _) as [avoid|]; simpl; [|congruence].
      intros [= <- <- <-].
      destruct (update_heading_evolves a dest avoid) as [Hev Hc].
      split.
      * eapply evolves_trans; [exact Hev|apply evolves_same; reflexivity].
      * apply effect_none; [reflexivity|exact Hc].
  - (* SHOPPING *)
    destruct (decide (_ <= _)); [|same_agent].
    destruct (random_random g) as [u g1].
    destruct (py_div _ _) as [p|]; simpl; [|congruence].
    destruct (decide (u < p)); [|same_agent].
    intros H. via_choice H.
  - (* IN_QUEUE *)
    destruct (current_cash_zone a) as [cz|] eqn:Hcz; [|same_agent].
    destruct (sort_queue _) as [queue|]; simpl; [|congruence].
    destruct (bool_decide _); [same_agent|].
    destruct (queue_position a) as [pos|]; [|same_agent].
    destruct (bool_decide (pos = 0%Z)); [same_agent|].
    destruct (get_queue_position _ _ _ _) as [target|]; simpl; [|congruence].
    destruct (decide (_ < _)); [|same_agent].
    destruct (avoid_collisions _ _ _ _) as [avoid|]; simpl; [|congruence].
    intros [= <- <- <-].
    destruct (update_heading_evolves a target avoid) as [Hev Hc].
    split.
    + eapply evolves_trans; [exact Hev|apply evolves_same; reflexivity].
    + apply effect_none; [reflexivity|]. simpl. congruence.
  - (* PAYING *)
    destruct (decide (_ <= _)); [|same_agent].
    simpl. destruct (current_cash_zone a) as [cz|] eqn:Hcz.
    + intros H. apply choose_next_target_leaving in H as (-> & Hc & Hev);
        [|reflexivity].
      split.
      * eapply evolves_trans; [|exact Hev]. apply evolves_same; reflexivity.
      * eapply effect_release; eauto.
    + intros H. apply choose_next_target_leaving in H as (-> & Hc & Hev);
        [|reflexivity].
      split.
      * eapply evolves_trans; [|exact Hev]. apply evolves_same; reflexivity.
      * apply effect_none; [reflexivity|]. rewrite Hc. simpl. congruence.
  - (* LEAVING *)
    destruct (destination a) as [dest|]; [|same_agent].
    destruct (point_truthy dest); [|same_agent].
    destruct (decide (_ <= _)).
    + simpl. rewrite Hst. destruct (point_in _ _); same_agent.
    + destruct (avoid_collisions _ _ _ _) as [avoid|]; simpl; [|congruence].
      intros [= <- <- <-].
      destruct (update_heading_evolves a dest avoid) as [Hev Hc].
      split.
      * eapply evolves_trans; [exact Hev|apply evolves_same; reflexivity].
      * apply effect_none; [reflexivity|exact Hc].
  - same_agent.
Qed.

Lemma Agent_init_effect zs counter start_pos store_zones cash exits bhv
    bdg scl spd g zs' a' g' :
  Agent_init zs counter start_pos store_zones cash exits bhv bdg scl spd g
  = Some (zs', a', g') ->
  all_zones a' = store_zones /\ cash_zones a' = cash
  /\ behavior a' = bhv
  /\ (exists moved, visited_zones a' = moved
                    /\ store_zones ≡ₚ moved ++ unvisited_zones a')
  /\ (zs' = zs /\ current_cash_zone a' = None
      \/ exists c, c ∈ cash /\ can_join_queue (zone_at zs c) = true
           /\ current_cash_zone a' = Some c
           /\ zs' = <[c := set_queue_length (queue_length (zone_at zs c) + 1)
                             (zone_at zs c)]> zs).
Proof.
  unfold Agent_init, random_uniform, random_random, rng_next. simpl.
  intros H.
  apply choose_next_target_effect in H as [(H1 & H2 & Hb & m & H3 & H4) Hq].
  simpl in *. split; [exact H1|]. split; [exact H2|]. split; [exact Hb|].
  split; [exists m; auto|].
  destruct Hq as [Hz Hc|cz Hc _ _|c Hin Hcan Hc Hz]; simpl in *.
  - left. auto.
  - discriminate.
  - right. exists c. auto.
Qed.

(** ** The queue counter in reachable states *)

Lemma holders_cons a ags z :
  holders (a :: ags) z = (holds a z + holders ags z)%nat.
Proof.
  unfold holders, holds. rewrite filter_cons.
  destruct (decide (current_cash_zone a = Some z)); reflexivity.
Qed.

Lemma holders_app ags a z :
  holders (ags ++ [a]) z = (holders ags z + holds a z)%nat.
Proof.
  induction ags as [|b ags IH]; simpl.
  - rewrite holders_cons. unfold holders. simpl. lia.
  - rewrite !holders_cons, IH. lia.
Qed.

Lemma holders_insert ags i a a' z :
  ags !! i = Some a ->
  (holders (<[i := a']> ags) z + holds a z = holders ags z + holds a' z)%nat.
Proof.
  revert i. induction ags as [|b ags IH]; intros [|i] Hi; simpl in *;
    try discriminate.
  - injection Hi as ->. rewrite !holders_cons. lia.
  - rewrite !holders_cons. specialize (IH i Hi). lia.
Qed.

Lemma holders_none ags z :
  (forall a, a ∈ ags -> current_cash_zone a <> Some z) -> holders ags z = 0%nat.
Proof.
  induction ags as [|b ags IH]; intros H; [reflexivity|].
  rewrite holders_cons, IH.
  - unfold holds. destruct (decide _) as [Hb|_]; [|reflexivity].
    exfalso. eapply H; [apply list_elem_of_here|exact Hb].
  - intros a Ha. apply H. apply list_elem_of_further. exact Ha.
Qed.

Lemma elem_of_insert_inv {A} (l : list A) i x y :
  y ∈ <[i := x]> l -> y = x \/ y ∈ l.
Proof.
  intros Hy. apply list_elem_of_lookup in Hy as [j Hj].
  destruct (decide (i = j)) as [->|Hne].
  - destruct (decide (j < length l)%nat).
    + rewrite list_lookup_insert_eq in Hj by assumption. left. congruence.
    + rewrite list_insert_ge in Hj by lia. right.
      eapply list_elem_of_lookup_2; eauto.
  - rewrite list_lookup_insert_ne in Hj by assumption. right.
    eapply list_elem_of_lookup_2; eauto.
Qed.

Lemma queue_effect_length zs a zs' a' :
  queue_effect zs a zs' a' -> length zs' = length zs.
Proof.
  intros [-> _|cz _ _ ->|cash _ _ _ ->].
  - reflexivity.
  - apply length_alter.
  - apply length_insert.
Qed.

Lemma zone_at_lookup zs z :
  (z < length zs)%nat -> zs !! z = Some (zone_at zs z).
Proof.
  intros Hz. unfold zone_at.
  destruct (lookup_lt_is_Some_2 zs z Hz) as [zone ->]. reflexivity.
Qed.

(** The agent stored at [i] makes a call with the given effect. *)
Lemma queue_inv_update zs ags c i a zs' a' c' :
  queue_inv (mkWorld zs ags c) ->
  ags !! i = Some a ->
  cash_zones a' = cash_zones a ->
  queue_effect zs a zs' a' ->
  queue_inv (mkWorld zs' (<[i := a']> ags) c').
Proof.
  intros [Hrefs Hcount] Hi Hcash Heff.
  assert (Ha : a ∈ ags) by (eapply list_elem_of_lookup_2; eauto).
  destruct (Hrefs a Ha) as [Hcz Hcur]. simpl in *.
  pose proof (queue_effect_length _ _ _ _ Heff) as Hlen.
  split.
  - intros b Hb. simpl in *. rewrite Hlen.
    apply elem_of_insert_inv in Hb as [->|Hb]; [|apply Hrefs; exact Hb].
    split; [rewrite Hcash; exact Hcz|].
    destruct Heff as [_ Hc|cz _ Hc _|cash Hin _ Hc _]; intros z Hz.
    + apply Hcur. congruence.
    + congruence.
    + rewrite Hc in Hz. injection Hz as <-. apply Hcz. exact Hin.
  - intros z zone' Hz. simpl in *.
    pose proof (holders_insert ags i a a' z Hi) as Hh.
    destruct Heff as [-> Hc|cz Hc Hc' ->|cash Hin Hcan Hc ->].
    + specialize (Hcount z zone' Hz). unfold holds in Hh. rewrite Hc in Hh.
      lia.
    + rewrite list_lookup_alter in Hz.
      unfold holds in Hh. rewrite Hc, Hc' in Hh.
      destruct (decide (cz = z)) as [->|Hne].
      * destruct (zs !! z) as [zone|] eqn:Hzone; simpl in Hz; [|discriminate].
        injection Hz as <-. specialize (Hcount z zone Hzone). simpl.
        destruct (decide (Some z = Some z)); [|congruence].
        destruct (decide (None = Some z)); [congruence|]. lia.
      * specialize (Hcount z zone' Hz).
        destruct (decide (Some cz = Some z)); [congruence|].
        destruct (decide (None = Some z)); [congruence|]. lia.
    + specialize (Hcz cash Hin). pose proof (zone_at_lookup zs cash Hcz) as Hz0.
      specialize (Hcount cash _ Hz0) as Hc0.
      unfold can_join_queue in Hcan. apply Z.ltb_lt in Hcan.
      unfold holds in Hh. rewrite Hc in Hh.
      destruct (decide (cash = z)) as [->|Hne].
      * rewrite list_lookup_insert_eq in Hz by assumption.
        injection Hz as <-. simpl.
        destruct (decide (Some z = Some z)); [|congruence].
        destruct (decide (current_cash_zone a = Some z)); lia.
      * rewrite list_lookup_insert_ne in Hz by assumption.
        specialize (Hcount z zone' Hz).
        destruct (decide (Some cash = Some z)); [congruence|].
        destruct (decide (current_cash_zone a = Some z)); lia.
Qed.

(** An agent that holds no slot is added to the store. *)
Lemma queue_inv_append zs ags c a c' :
  queue_inv (mkWorld zs ags c) ->
  (forall z, z ∈ cash_zones a -> (z < length zs)%nat) ->
  current_cash_zone a = None ->
  queue_inv (mkWorld zs (ags ++ [a]) c').
Proof.
  intros [Hrefs Hcount] Hcash Hcur. split.
  - intros b Hb. simpl in *. apply elem_of_app in Hb as [Hb|Hb].
    + apply Hrefs. exact Hb.
    + apply list_elem_of_singleton in Hb. subst b. split; [exact Hcash|].
      congruence.
  - intros z zone Hz. simpl in *. rewrite holders_app.
    specialize (Hcount z zone Hz). unfold holds. rewrite Hcur.
    destruct (decide (None = Some z)); [congruence|]. lia.
Qed.

Lemma insert_app_last {A} (l : list A) x y :
  <[length l := y]> (l ++ [x]) = l ++ [y].
Proof.
  induction l as [|z l IH]; simpl; [reflexivity|]. f_equal. exact IH.
Qed.

Lemma queue_inv_new_zone w name rect attractiveness category :
  queue_inv w -> queue_inv (new_zone w name rect attractiveness category).
Proof.
  intros [Hrefs Hcount]. split.
  - intros a Ha. simpl in *. rewrite length_app. simpl.
    destruct (Hrefs a Ha) as [H1 H2]. split; intros z Hz.
    + specialize (H1 z Hz). lia.
    + specialize (H2 z Hz). lia.
  - intros z zone Hz. simpl in *.
    destruct (decide (z < length (w_zones w))%nat) as [Hlt|Hge].
    + rewrite lookup_app_l in Hz by assumption. apply Hcount. exact Hz.
    + rewrite lookup_app_r in Hz by lia.
      destruct (z - length (w_zones w))%nat; simpl in Hz; [|discriminate].
      injection Hz as <-. simpl. rewrite holders_none; [lia|].
      intros a Ha Hc. destruct (Hrefs a Ha) as [_ H2].
      specialize (H2 z Hc). lia.
Qed.

Lemma queue_inv_spawn w start_pos store_zones cash exits behavior budget
    scale speed g w' g' :
  (forall z, z ∈ store_zones ++ cash -> (z < length (w_zones w))%nat) ->
  spawn_agent w start_pos store_zones cash exits behavior budget scale speed g
  = Some (w', g') ->
  queue_inv w -> queue_inv w'.
Proof.
  intros Hvalid. unfold spawn_agent.
  destruct (Agent_init _ _ _ _ _ _ _ _ _ _ _) as [[[zs a] g1]|] eqn:Hi;
    [|congruence].
  intros [= <- <-] Hinv.
  apply Agent_init_effect in Hi as (_ & Hcash & _ & _ & Heff).
  assert (Hc : forall z, z ∈ cash -> (z < length (w_zones w))%nat).
  { intros z Hz. apply Hvalid. apply elem_of_app. auto. }
  destruct Heff as [[-> Hnone]|(c & Hin & Hcan & Hcur & ->)].
  - destruct w as [zs ags cnt]. simpl in *.
    apply (queue_inv_append zs ags cnt); auto. rewrite Hcash. exact Hc.
  - destruct w as [zs ags cnt]. simpl in *.
    rewrite <- (insert_app_last ags (set_current_cash_zone None a) a).
    eapply (queue_inv_update zs (ags ++ [set_current_cash_zone None a]) cnt).
    + apply (queue_inv_append zs ags cnt); [exact Hinv| |reflexivity].
      simpl. rewrite Hcash. exact Hc.
    + rewrite lookup_app_r by lia. rewrite Nat.sub_diag. reflexivity.
    + reflexivity.
    + eapply effect_join; eauto. simpl. rewrite Hcash. exact Hin.
Qed.

Lemma same_queue_effect zs a a' :
  current_cash_zone a' = current_cash_zone a -> queue_effect zs a zs a'.
Proof. intros H. apply effect_none; [reflexivity|exact H]. Qed.

Lemma queue_inv_step w w' : step w w' -> queue_inv w -> queue_inv w'.
Proof.
  intros Hstep Hinv. destruct Hstep.
  - apply queue_inv_new_zone. exact Hinv.
  - eapply queue_inv_spawn; eauto.
  - destruct w as [zs ags cnt]. simpl in *.
    eapply queue_inv_update; eauto. apply same_queue_effect. reflexivity.
  - unfold step_agent in H.
    destruct (w_agents w !! self) as [a|] eqn:Ha; simpl in H; [|discriminate].
    destruct (move_towards_target _ _ _ _ _ _ _) as [[[zs a'] g1]|] eqn:Hm;
      [|discriminate].
    injection H as <- <-.
    apply move_towards_target_effect in Hm as [(_ & Hcash & _) Heff].
    destruct w as [zs0 ags cnt]. simpl in *.
    eapply queue_inv_update; eauto.
  - destruct w as [zs ags cnt]. simpl in *.
    eapply queue_inv_update; eauto. apply same_queue_effect. reflexivity.
Qed.

Lemma queue_inv_init : queue_inv init_world.
Proof.
  split.
  - intros a Ha. inversion Ha.
  - intros z zone Hz. simpl in Hz. discriminate.
Qed.

Lemma queue_inv_reachable w : reachable w -> queue_inv w.
Proof.
  unfold reachable, steps. intros H.
  eapply (rtc_ind_r (R := step) queue_inv); [apply queue_inv_init| |exact H].
  intros y z _ Hs IH. eapply queue_inv_step; eauto.
Qed.

(** C5.  In every reachable state the counter of every zone satisfies
    [0 <= queue_length <= max_queue_length]; it is at least the number
    of agents that joined and have not yet released their slot, so a
    release never takes it below zero; [join_queue] increments it only
    below capacity and returns -1 otherwise. *)
Theorem queue_length_bounded w z zone :
  reachable w -> w_zones w !! z = Some zone ->
  (0 <= queue_length zone <= max_queue_length zone)%Z
  /\ (Z.of_nat (holders (w_agents w) z) <= queue_length zone)%Z
  /\ (forall pos zone', join_queue zone = (zone', pos) ->
        if can_join_queue zone
        then queue_length zone' = (queue_length zone + 1)%Z
             /\ pos = queue_length zone'
             /\ (queue_length zone' <= max_queue_length zone')%Z
        else zone' = zone /\ pos = (-1)%Z).
Proof.
  intros Hr Hz. destruct (queue_inv_reachable w Hr) as [_ Hcount].
  specialize (Hcount z zone Hz). split; [lia|]. split; [lia|].
  intros pos zone'. unfold join_queue.
  destruct (can_join_queue zone) eqn:Hcan; intros [= <- <-]; [|auto].
  simpl. unfold can_join_queue in Hcan. apply Z.ltb_lt in Hcan.
  repeat split; lia.
Qed.

(** ** The itinerary in reachable states *)





(** ** A run in which two waiting agents hold the same slot *)

(** Evaluation of the code on concrete inputs: everything but the real
    numbers is computed, comparisons of reals are settled by [lra]. *)
Ltac run :=
  lazy -[Rplus Rminus Rmult Rdiv Ropp Rinv IZR INR sqrt Rlt_dec Rle_dec
         Req_dec_T Rmax Rmin Rabs cos sin atan exp PI Int_part pow].

Ltac settle_real :=
  match goal with
  | |- context [Req_dec_T ?a ?b] =>
      destruct (Req_dec_T a b) as [?|?]; [try (exfalso; lra)|try (exfalso; lra)]
  | |- context [Rle_dec ?a ?b] =>
      destruct (Rle_dec a b) as [?|?]; [try (exfalso; lra)|try (exfalso; lra)]
  | |- context [Rlt_dec ?a ?b] =>
      destruct (Rlt_dec a b) as [?|?]; [try (exfalso; lra)|try (exfalso; lra)]
  end.

Ltac reals_agree := repeat first [reflexivity | lra | progress f_equal].

Lemma spawn_first :
  spawn_agent world_checkout (mkPoint 0 0) [] [0%nat] [mkPoint 0 0]
    TARGETED MEDIUM 1 1 zero_rng
  = Some (world_one_queued, mkRng (fun _ => mkDraw 0 0) 6).
Proof.
  run. repeat (settle_real; run). reals_agree.
Qed.

Lemma spawn_second :
  spawn_agent world_one_queued (mkPoint 0 0) [] [0%nat] [mkPoint 0 0]
    TARGETED MEDIUM 1 1 zero_rng
  = Some (world_two_queued, mkRng (fun _ => mkDraw 0 0) 6).
Proof. run. repeat (settle_real; run). reals_agree. Qed.

Lemma first_becomes_paying :
  step_agent world_two_queued 0 [0; 1]%nat default_delta_time zero_rng
  = Some (world_first_paying, zero_rng).
Proof. reflexivity. Qed.

Lemma first_completes_payment :
  step_agent world_first_paying 0 [0; 1]%nat 200 zero_rng
  = Some (world_first_paid, zero_rng).
Proof. run. repeat (settle_real; run). reals_agree. Qed.

Lemma spawn_third :
  spawn_agent world_first_paid (mkPoint 0 0) [] [0%nat] [mkPoint 0 0]
    TARGETED MEDIUM 1 1 zero_rng
  = Some (world_same_slot, mkRng (fun _ => mkDraw 0 0) 6).
Proof. run. repeat (settle_real; run). reals_agree. Qed.

Lemma zero_rng_ok : rng_ok zero_rng.
Proof. intros n. simpl. lra. Qed.

Lemma checkout_ref_valid (zs : list StoreZone) z :
  z ∈ [] ++ [0%nat] -> (0 < length zs)%nat -> (z < length zs)%nat.
Proof. simpl. intros Hz Hl. apply list_elem_of_singleton in Hz. subst. exact Hl. Qed.

Lemma reachable_world_checkout : reachable world_checkout.
Proof.
  eapply rtc_l; [|apply rtc_refl].
  exact (step_new_zone init_world "checkout" checkout_rect 1 None).
Qed.

Lemma reachable_world_one_queued : reachable world_one_queued.
Proof.
  eapply rtc_r; [apply reachable_world_checkout|].
  eapply step_spawn; [|apply zero_rng_ok|apply spawn_first].
  intros z Hz. apply checkout_ref_valid; [exact Hz|simpl; lia].
Qed.

Lemma reachable_world_two_queued : reachable world_two_queued.
Proof.
  eapply rtc_r; [apply reachable_world_one_queued|].
  eapply step_spawn; [|apply zero_rng_ok|apply spawn_second].
  intros z Hz. apply checkout_ref_valid; [exact Hz|simpl; lia].
Qed.

Lemma reachable_world_first_paid : reachable world_first_paid.
Proof.
  eapply rtc_r; [eapply rtc_r; [apply reachable_world_two_queued|]|].
  - eapply step_move. apply first_becomes_paying.
  - eapply step_move. apply first_completes_payment.
Qed.

Lemma reachable_world_same_slot : reachable world_same_slot.
Proof.
  eapply rtc_r; [apply reachable_world_first_paid|].
  eapply step_spawn; [|apply zero_rng_ok|apply spawn_third].
  intros z Hz. apply checkout_ref_valid; [exact Hz|simpl; lia].
Qed.

(** C10.  [join_queue] returns the counter of the zone after the
    increment, not a fresh slot number.  In a reachable state where one
    queued agent has completed its payment while a second one, holding
    slot 2, still waits, a newly created agent joins the same zone and
    receives slot 2 as well: the claimed slots of agents waiting at one
    zone need not be distinct. *)
Theorem queue_positions_can_coincide :
  (forall z, (join_queue z).2
             = if can_join_queue z then queue_length (join_queue z).1
               else (-1)%Z)
  /\ (forall z, queue_length (join_queue z).1
                = if can_join_queue z then (queue_length z + 1)%Z
                  else queue_length z)
  /\ exists w w' waiting joining,
       reachable w /\ reachable w'
       /\ (exists g g', spawn_agent w (mkPoint 0 0) [] [0%nat] [mkPoint 0 0]
                          TARGETED MEDIUM 1 1 g = Some (w', g'))
       /\ w_agents w !! 0%nat = Some paid_agent
       /\ w_agents w !! 1%nat = Some waiting
       /\ w_agents w' !! 1%nat = Some waiting
       /\ w_agents w' !! 2%nat = Some joining
       /\ length (w_agents w) = 2%nat
       /\ state waiting = IN_QUEUE /\ state joining = IN_QUEUE
       /\ current_cash_zone waiting = Some 0%nat
       /\ current_cash_zone joining = Some 0%nat
       /\ queue_position waiting = Some 2%Z
       /\ queue_position joining = Some 2%Z.
Proof.
  split; [|split].
  - intros z. unfold join_queue. destruct (can_join_queue z); reflexivity.
  - intros z. unfold join_queue. destruct (can_join_queue z); reflexivity.
  - exists world_first_paid, world_same_slot, (queued_agent 1 2), (queued_agent 2 2).
    split; [apply reachable_world_first_paid|].
    split; [apply reachable_world_same_slot|].
    split; [eexists _, _; apply spawn_third|].
    repeat split; reflexivity.
Qed.

(** ** Walking: snap threshold and travel distance *)

(** Replace a square root of a concrete square by its value. *)
Ltac sqrt_is c :=
  match goal with
  | |- context [sqrt ?e] =>
      replace (sqrt e) with c
        by (replace e with (c * c) by lra; rewrite sqrt_square by lra; reflexivity)
  end.

Lemma get_collision_rect_total a :
  scale a <> 0 -> exists r, get_collision_rect a = Some r.
Proof.
  intros Hs. unfold get_collision_rect, py_div.
  destruct (decide (scale a = 0)); [contradiction|]. simpl. eauto.
Qed.

(** Alone in [others], an agent feels no repulsion. *)
Lemma avoid_collisions_alone ags self a :
  scale a <> 0 -> avoid_collisions ags self a [self] = Some (mkPoint 0 0).
Proof.
  intros Hs. unfold avoid_collisions.
  destruct (get_collision_rect_total a Hs) as [r ->]. simpl.
  unfold avoid_one. destruct (ags !! self); [|reflexivity].
  rewrite bool_decide_eq_true_2 by reflexivity. reflexivity.
Qed.

(** The two outcomes of a step of a walking agent with a destination:
    the snap when the distance is at most [speed * delta_time], else an
    advance of [real_speed * scale * speed * delta_time] along the
    updated heading. *)
Lemma walking_step zs ags self a others delta_time g dest :
  state a = WALKING \/ state a = LEAVING ->
  destination a = Some dest -> point_truthy dest = true ->
  (distance_to a dest <= speed a * delta_time ->
   forall zs' a' g',
     move_towards_target zs ags self a others delta_time g = Some (zs', a', g') ->
     position a' = dest)
  /\ (speed a * delta_time < distance_to a dest ->
      forall avoid, avoid_collisions ags self a others = Some avoid ->
        let a1 := update_heading a dest avoid in
        let step := real_speed a * scale a * speed a * delta_time in
        move_towards_target zs ags self a others delta_time g
        = Some (zs,
                set_position
                  (padd (position a)
                     (mkPoint (pt_x (heading a1) * step) (pt_y (heading a1) * step)))
                  a1,
                g)).
Proof.
  intros Hst Hd Ht. split.
  - intros Hle zs' a' g'. unfold move_towards_target.
    assert (Hchoice : forall b, position b = dest ->
              choose_next_target zs b g = Some (zs', a', g') -> position a' = dest).
    { intros b Hb Hc. unfold choose_next_target in Hc.
      destruct (decide (state b = LEAVING)).
      { destruct (min_by _ _ _); simpl in Hc; [|discriminate].
        injection Hc as <- <- <-. exact Hb. }
      destruct (checkout_block zs b) as [[[zs1 b1] r]|] eqn:Hcb; [|discriminate].
      assert (Hb1 : position b1 = dest).
      { unfold checkout_block in Hcb. destruct (_ && _).
        - destruct (min_by _ _ _); [|injection Hcb as <- <- <-; exact Hb].
          destruct (join_queue _) as [zone' pos]. destruct (0 <? pos)%Z.
          + destruct (get_queue_position _ _ _ _); simpl in Hcb; [|discriminate].
            injection Hcb as <- <- <-. exact Hb.
          + injection Hcb as <- <- <-. exact Hb.
        - injection Hcb as <- <- <-. exact Hb. }
      destruct r; [injection Hc as <- <- <-; exact Hb1|].
      destruct (unvisited_zones b1).
      { injection Hc as <- <- <-. exact Hb1. }
      destruct (weighted_choice _ _ _ _) as [[z g1]|]; [|discriminate].
      destruct (list_remove _ _); simpl in Hc; [|discriminate].
      injection Hc as <- <- <-. simpl. destruct (_first_move b1); exact Hb1. }
    destruct Hst as [Hst|Hst]; rewrite Hst, Hd, Ht;
      (destruct (decide (_ <= _)); [|contradiction]); simpl; rewrite Hst.
    + destruct (cash_zones a).
      * destruct (point_in _ _); [intros [= <- <- <-]; reflexivity|].
        apply Hchoice. reflexivity.
      * intros [= <- <- <-]. reflexivity.
    + destruct (point_in _ _); intros [= <- <- <-]; reflexivity.
  - intros Hlt avoid Hav a1 step. unfold move_towards_target.
    destruct (update_heading_keeps a dest avoid)
      as (Hpos & _ & _ & _ & Hspeed & Hscale & Hreal).
    destruct Hst as [Hst|Hst]; rewrite Hst, Hd, Ht;
      (destruct (decide (_ <= _)); [lra|]); rewrite Hav; simpl;
      rewrite Hpos, Hspeed, Hscale, Hreal; reflexivity.
Qed.

Lemma walker_heading :
  heading (update_heading walker (mkPoint 500 0) (mkPoint 0 0)) = mkPoint 1 0.
Proof.
  unfold update_heading.
  replace (truthy (destination walker)) with true.
  2:{ simpl. unfold point_truthy. simpl.
      rewrite (bool_decide_eq_false_2 (500 = 0)) by lra. reflexivity. }
  simpl.
  replace (sqrt ((500 - 0) * (500 - 0) + (0 - 0) * (0 - 0))) with 500
    by (replace ((500 - 0) * (500 - 0) + (0 - 0) * (0 - 0)) with (500 * 500) by lra;
        rewrite sqrt_square by lra; reflexivity).
  destruct (decide (0 < 500)); [|lra].
  rewrite !(bool_decide_eq_false_2 (0 <> 0)) by tauto. simpl.
  match goal with
  | |- context [sqrt ?e] =>
      replace (sqrt e) with 1
        by (replace e with (1 * 1) by lra; rewrite sqrt_square by lra; reflexivity)
  end.
  destruct (decide (0 < 1)); [|lra]. f_equal; lra.
Qed.

(** C4.  The snap threshold and the distance travelled in one step are
    not the same quantity in the code: the agent snaps when the distance
    is at most [speed * delta_time], but advances by
    [real_speed * scale * speed * delta_time].  A walker 500 pixels from
    its destination, with a threshold of 1 and a travel distance of 1000,
    does not snap: it advances 1000 pixels and passes the destination. *)
Theorem snap_threshold_is_not_travel_distance :
  distance_to walker (mkPoint 500 0) = 500
  /\ speed walker * 1 = 1
  /\ real_speed walker * scale walker * speed walker * 1 = 1000
  /\ exists a',
       move_towards_target walker_zones [walker] 0 walker [0%nat] 1 zero_rng
       = Some (walker_zones, a', zero_rng)
       /\ state a' = WALKING
       /\ position a' = mkPoint 1000 0.
Proof.
  assert (Hdist : distance_to walker (mkPoint 500 0) = 500).
  { unfold distance_to. simpl. sqrt_is 500. reflexivity. }
  split; [exact Hdist|]. split; [simpl; lra|]. split; [simpl; lra|].
  destruct (walking_step walker_zones [walker] 0 walker [0%nat] 1 zero_rng
              (mkPoint 500 0)) as [_ Hadv].
  { left. reflexivity. }
  { reflexivity. }
  { unfold point_truthy. simpl.
    rewrite (bool_decide_eq_false_2 (500 = 0)) by lra. reflexivity. }
  eexists. split; [|split].
  - apply Hadv.
    + rewrite Hdist. simpl. lra.
    + apply avoid_collisions_alone. simpl. lra.
  - destruct (update_heading_keeps walker (mkPoint 500 0) (mkPoint 0 0))
      as (_ & Hs & _). simpl. exact Hs.
  - simpl. rewrite walker_heading. unfold padd. simpl. f_equal; lra.
Qed.

(** ** The follower rule *)

Lemma sum_squares_nonneg x y : 0 <= x ^ 2 + y ^ 2.
Proof. nra. Qed.

Lemma sum_squares_zero x y : x ^ 2 + y ^ 2 = 0 -> x = 0 /\ y = 0.
Proof. intros H. split; nra. Qed.

Lemma sqrt_scaled t x y :
  0 <= t -> sqrt ((t * x) ^ 2 + (t * y) ^ 2) = t * sqrt (x ^ 2 + y ^ 2).
Proof.
  intros Ht.
  replace ((t * x) ^ 2 + (t * y) ^ 2) with (t * t * (x ^ 2 + y ^ 2)) by ring.
  rewrite sqrt_mult; [|nra|apply sum_squares_nonneg].
  rewrite sqrt_square by exact Ht. reflexivity.
Qed.

(** The follower rule: a step of length [min(speed, distance)] straight
    towards the predecessor, which never passes it. *)
Lemma follow_spec group_speed prev cur :
  0 <= group_speed ->
  let cur' := follow group_speed prev cur in
  point_distance cur cur' = Rmin group_speed (point_distance cur prev)
  /\ (point_distance cur prev = 0 -> cur' = prev)
  /\ exists t, 0 <= t <= 1
       /\ pt_x cur' = pt_x cur + t * (pt_x prev - pt_x cur)
       /\ pt_y cur' = pt_y cur + t * (pt_y prev - pt_y cur).
Proof.
  intros Hs. unfold follow, point_distance. cbn [psub pt_x pt_y].
  set (dx := pt_x prev - pt_x cur). set (dy := pt_y prev - pt_y cur).
  set (d := sqrt (dx ^ 2 + dy ^ 2)).
  destruct (decide (0 < d)) as [Hd|Hd].
  - set (step := Rmin group_speed d).
    assert (Hstep : 0 <= step <= d).
    { unfold step, Rmin. destruct (Rle_dec group_speed d); lra. }
    assert (Ht : 0 <= step / d <= 1).
    { split.
      - apply Rmult_le_pos; [lra|]. left. apply Rinv_0_lt_compat. exact Hd.
      - apply (Rmult_le_reg_r d); [exact Hd|]. unfold Rdiv.
        rewrite Rmult_assoc, Rinv_l by lra. lra. }
    split; [|split].
    + cbn [padd pt_x pt_y].
      replace (pt_x cur + dx / d * step - pt_x cur) with (step / d * dx)
        by (field; lra).
      replace (pt_y cur + dy / d * step - pt_y cur) with (step / d * dy)
        by (field; lra).
      rewrite sqrt_scaled by lra. fold d. field. lra.
    + intros H0. lra.
    + exists (step / d). split; [exact Ht|]. cbn [padd pt_x pt_y].
      split; field; lra.
  - assert (Hd0 : d = 0).
    { assert (0 <= d) by apply sqrt_pos. apply Rnot_lt_le in Hd.
      apply Rle_antisym; assumption. }
    assert (Hxy : dx = 0 /\ dy = 0).
    { apply sum_squares_zero, sqrt_eq_0; [apply sum_squares_nonneg|exact Hd0]. }
    destruct Hxy as [Hx Hy].
    split; [|split].
    + fold dx dy d. rewrite Hd0.
      unfold Rmin. destruct (Rle_dec group_speed 0); lra.
    + reflexivity.
    + exists 1. split; [lra|]. unfold dx, dy in *. split; lra.
Qed.

Lemma follow_chain_spec group_speed prev rest : forall ags,
  NoDup (prev :: rest) ->
  (forall m, m ∈ prev :: rest -> is_Some (ags !! m)) ->
  let ags' := follow_chain group_speed ags prev rest in
  (forall j, j ∉ rest -> ags' !! j = ags !! j)
  /\ forall i p c, (prev :: rest) !! i = Some p -> (prev :: rest) !! S i = Some c ->
       exists ap' ac, ags' !! p = Some ap' /\ ags !! c = Some ac
         /\ ags' !! c
            = Some (set_position
                      (follow group_speed (position ap') (position ac)) ac).
Proof.
  revert prev. induction rest as [|cur rest IH]; intros prev ags Hnd Hvalid.
  - simpl. split; [reflexivity|]. intros i p c _ Hc.
    destruct i; simpl in Hc; discriminate.
  - simpl.
    destruct (Hvalid prev) as [ap Hap]; [apply list_elem_of_here|].
    destruct (Hvalid cur) as [ac Hac];
      [apply list_elem_of_further, list_elem_of_here|].
    rewrite Hap, Hac.
    set (ags1 := <[cur := set_position
                            (follow group_speed (position ap) (position ac)) ac]> ags).
    apply NoDup_cons in Hnd as [Hprev Hnd].
    pose proof Hnd as Hnd'. apply NoDup_cons in Hnd' as [Hcur _].
    assert (Hne : prev <> cur).
    { intros ->. apply Hprev. apply list_elem_of_here. }
    destruct (IH cur ags1 Hnd) as [Hout Hchain].
    { intros m Hm. unfold ags1.
      destruct (decide (cur = m)) as [->|Hm'].
      - rewrite list_lookup_insert_eq by (eapply lookup_lt_Some; eauto). eauto.
      - rewrite list_lookup_insert_ne by assumption.
        apply Hvalid. apply list_elem_of_further. exact Hm. }
    split.
    + intros j Hj. rewrite Hout.
      * unfold ags1. apply list_lookup_insert_ne. intros ->.
        apply Hj. apply list_elem_of_here.
      * intros Hin. apply Hj. apply list_elem_of_further. exact Hin.
    + intros [|i] p c Hp Hc; simpl in Hp, Hc.
      * injection Hp as <-. injection Hc as <-.
        assert (Hprev' : prev ∉ rest).
        { intros Hin. apply Hprev. apply list_elem_of_further. exact Hin. }
        exists ap, ac. rewrite !Hout by assumption.
        unfold ags1. rewrite list_lookup_insert_ne by congruence.
        rewrite list_lookup_insert_eq by (eapply lookup_lt_Some; eauto).
        auto.
      * destruct (Hchain i p c Hp Hc) as (ap' & ac' & H1 & H2 & H3).
        exists ap', ac'. split; [exact H1|]. split; [|exact H3].
        unfold ags1 in H2. rewrite list_lookup_insert_ne in H2; [exact H2|].
        intros ->. apply Hcur. eapply list_elem_of_lookup_2. exact Hc.
Qed.

(** ** One update of a group *)

Lemma step_agent_others w self others delta_time g w' g' j :
  step_agent w self others delta_time g = Some (w', g') ->
  j <> self -> w_agents w' !! j = w_agents w !! j.
Proof.
  unfold step_agent. destruct (w_agents w !! self) as [a|]; simpl; [|congruence].
  destruct (move_towards_target _ _ _ _ _ _ _) as [[[zs a'] g1]|]; [|congruence].
  intros [= <- <-] Hne. simpl. apply list_lookup_insert_ne. congruence.
Qed.

Lemma step_agent_valid w self others delta_time g w' g' j :
  step_agent w self others delta_time g = Some (w', g') ->
  is_Some (w_agents w !! j) -> is_Some (w_agents w' !! j).
Proof.
  unfold step_agent. destruct (w_agents w !! self) as [a|]; simpl; [|congruence].
  destruct (move_towards_target _ _ _ _ _ _ _) as [[[zs a'] g1]|]; [|congruence].
  intros [= <- <-] Hj. simpl. apply lookup_lt_is_Some.
  rewrite length_insert. apply lookup_lt_is_Some. exact Hj.
Qed.

(** C8.  One group update: every follower moves straight towards the
    current position of the member before it, by
    [min(group speed, remaining distance)], so it never passes that
    position, and a follower coincident with its predecessor is set to
    the predecessor's position.  The step is bounded by the speed of the
    group, not by the follower's own speed times the tick duration (see
    [follower_advance_counterexample]). *)
Theorem followers_step_toward_predecessor w grp g w' g' :
  0 <= grp_speed grp ->
  NoDup (members grp) ->
  (forall m, m ∈ members grp -> is_Some (w_agents w !! m)) ->
  AgentGroup_update w grp g = Some (w', g') ->
  forall i p c, members grp !! i = Some p -> members grp !! S i = Some c ->
    exists before pred after,
      w_agents w !! c = Some before
      /\ w_agents w' !! p = Some pred
      /\ w_agents w' !! c = Some after
      /\ position after = follow (grp_speed grp) (position pred) (position before)
      /\ point_distance (position before) (position after)
         = Rmin (grp_speed grp) (point_distance (position before) (position pred))
      /\ (point_distance (position before) (position pred) = 0 ->
          position after = position pred)
      /\ exists t, 0 <= t <= 1
           /\ pt_x (position after)
              = pt_x (position before)
                + t * (pt_x (position pred) - pt_x (position before))
           /\ pt_y (position after)
              = pt_y (position before)
                + t * (pt_y (position pred) - pt_y (position before)).
Proof.
  intros Hspeed Hnd Hvalid. unfold AgentGroup_update.
  destruct (members grp) as [|leader followers] eqn:Hm.
  { intros _ i p c Hp. destruct i; discriminate. }
  destruct (step_agent w leader (leader :: followers) default_delta_time g)
    as [[w1 g1]|] eqn:Hstep; [|congruence].
  intros [= <- <-] i p c Hp Hc. simpl.
  destruct (follow_chain_spec (grp_speed grp) leader followers (w_agents w1) Hnd)
    as [_ Hchain].
  { intros m Hin. eapply step_agent_valid; eauto. }
  destruct (Hchain i p c Hp Hc) as (pred & before & H1 & H2 & H3).
  assert (Hne : c <> leader).
  { intros ->. apply NoDup_cons in Hnd as [Hl _]. apply Hl.
    simpl in Hc. eapply list_elem_of_lookup_2. exact Hc. }
  rewrite (step_agent_others _ _ _ _ _ _ _ _ Hstep Hne) in H2.
  exists before, pred,
    (set_position (follow (grp_speed grp) (position pred) (position before)) before).
  split; [exact H2|]. split; [exact H1|]. split; [exact H3|].
  split; [reflexivity|]. simpl.
  apply (follow_spec (grp_speed grp) (position pred) (position before) Hspeed).
Qed.

Lemma follow_first : follow 1 (mkPoint 150 0) (mkPoint 100 0) = mkPoint 101 0.
Proof.
  unfold follow. cbn [psub pt_x pt_y].
  replace (sqrt ((150 - 100) ^ 2 + (0 - 0) ^ 2)) with 50
    by (replace ((150 - 100) ^ 2 + (0 - 0) ^ 2) with (50 * 50) by ring;
        rewrite sqrt_square by lra; reflexivity).
  destruct (decide (0 < 50)); [|lra].
  unfold Rmin. destruct (Rle_dec 1 50); [|lra].
  unfold padd. cbn [pt_x pt_y]. f_equal; field.
Qed.

Lemma family_leader_dwells :
  step_agent world_family 0 [0; 1; 2]%nat default_delta_time zero_rng
  = Some (mkWorld family_zones
            [set_shopping_time (0 + default_delta_time)
               (family_member 0 (mkPoint 150 0) SHOPPING);
             family_member 1 (mkPoint 100 0) WALKING;
             family_member 2 (mkPoint 100 0) WALKING] 3, zero_rng).
Proof.
  unfold step_agent, move_towards_target. simpl.
  destruct (decide (5 <= 0 + default_delta_time)) as [H|_]; [|reflexivity].
  unfold default_delta_time in H. lra.
Qed.

Lemma follower_advance_counterexample :
  exists w' g' before after,
    AgentGroup_update world_family family_group zero_rng = Some (w', g')
    /\ w_agents world_family !! 1%nat = Some before
    /\ w_agents w' !! 1%nat = Some after
    /\ behavior before = FAMILY
    /\ speed before * default_delta_time
       < point_distance (position before) (position after).
Proof.
  eexists _, _, _, _. split; [|split; [|split; [|split]]].
  - unfold AgentGroup_update, family_group. cbn [members grp_speed].
    rewrite family_leader_dwells. reflexivity.
  - reflexivity.
  - cbn [w_agents follow_chain grp_speed family_group]. simpl.
    rewrite follow_first. reflexivity.
  - reflexivity.
  - unfold point_distance. simpl.
    replace (sqrt ((101 - 100) * ((101 - 100) * 1) + (0 - 0) * ((0 - 0) * 1)))
      with 1
      by (replace ((101 - 100) * ((101 - 100) * 1) + (0 - 0) * ((0 - 0) * 1))
            with (1 * 1) by ring;
          rewrite sqrt_square by lra; reflexivity).
    unfold default_delta_time. lra.
Qed.

(** ** The population factory *)

Lemma checkout_block_total zs a :
  scale a <> 0 -> exists r, checkout_block zs a = Some r.
Proof.
  intros Hs. unfold checkout_block. destruct (_ && _); [|eauto].
  destruct (min_by _ _ _); [|eauto].
  destruct (join_queue _) as [zone' pos]. destruct (0 <? pos)%Z; [|eauto].
  unfold get_queue_position, py_div. simpl.
  destruct (decide (scale a = 0)); [contradiction|]. simpl. eauto.
Qed.

Lemma choose_next_target_total zs a g :
  state a <> LEAVING -> scale a <> 0 ->
  exists zs' a' g', choose_next_target zs a g = Some (zs', a', g').
Proof.
  intros Hst Hs. destruct (unvisited_zones a) as [|z0 rest] eqn:Hun.
  - unfold choose_next_target.
    destruct (decide (state a = LEAVING)); [contradiction|].
    destruct (checkout_block_total zs a Hs) as [[[zs1 a1] r] Hc]. rewrite Hc.
    destruct (checkout_block_spec _ _ _ _ _ Hc) as (_ & _ & Hun1 & _).
    destruct r; [eauto|]. rewrite Hun1, Hun. eauto.
  - destruct (choose_next_target_select zs a g Hst) as (z & un & g' & Hc & _).
    { congruence. }
    eauto.
Qed.

Lemma Agent_init_total zs counter start_pos store_zones cash exits bhv bdg
    scl spd g :
  scl <> 0 ->
  exists zs' a' g',
    Agent_init zs counter start_pos store_zones cash exits bhv bdg scl spd g
    = Some (zs', a', g').
Proof.
  intros Hs. unfold Agent_init, random_uniform, random_random, rng_next. simpl.
  apply choose_next_target_total; simpl; [discriminate|exact Hs].
Qed.

Lemma create_members_spec n gt gid start_pos tz cash exits bhv bdg scl spd :
  scl <> 0 -> forall role w g,
  exists ms w' g' new,
    create_members n role gt gid start_pos tz cash exits bhv bdg scl spd w g
    = Some (ms, w', g')
    /\ w_agents w' = w_agents w ++ new
    /\ ms = seq (length (w_agents w)) n
    /\ length new = n
    /\ Forall (fun a => behavior a = bhv) new.
Proof.
  intros Hs. induction n as [|n IH]; intros role w g; simpl.
  - exists [], w, g, []. rewrite app_nil_r. auto.
  - destruct (Agent_init_total (w_zones w) (w_counter w) start_pos tz cash exits
                bhv bdg scl spd g Hs) as (zs & a & g1 & Hi).
    rewrite Hi. apply Agent_init_effect in Hi as (_ & _ & Hb & _).
    set (agent := set_role (Some role)
                    (set_group_type (Some gt) (set_group_id (Some gid) a))).
    set (w1 := mkWorld zs (w_agents w ++ [agent]) (S (w_counter w))).
    destruct (IH (S role) w1 g1) as (ms & w2 & g2 & new & -> & Hw & Hms & Hl & Hf).
    exists (length (w_agents w) :: ms), w2, g2, (agent :: new).
    split; [reflexivity|]. split; [|split; [|split]].
    + rewrite Hw. simpl. rewrite <- app_assoc. reflexivity.
    + rewrite Hms. simpl. rewrite length_app. simpl.
      replace (length (w_agents w) + 1)%nat with (S (length (w_agents w))) by lia.
      reflexivity.
    + simpl. lia.
    + constructor; [exact Hb|exact Hf].
Qed.

Lemma sizes_known gt :
  known_type gt ->
  (gt = AgentType.INDIVIDUAL /\ AgentType.SIZES_get gt = 1%nat)
  \/ (gt <> AgentType.INDIVIDUAL /\ (2 <= AgentType.SIZES_get gt)%nat).
Proof.
  unfold known_type. intros H.
  apply elem_of_cons in H as [->|H]; [left; split; reflexivity|].
  apply elem_of_cons in H as [->|H]; [right; split; [discriminate|vm_compute; lia]|].
  apply list_elem_of_singleton in H as ->.
  right; split; [discriminate|vm_compute; lia].
Qed.

Lemma sizes_positive gt : (1 <= AgentType.SIZES_get gt)%nat.
Proof.
  unfold AgentType.SIZES_get. repeat destruct (decide _); lia.
Qed.

Lemma elem_of_seq_lookup {A} (l new : list A) n m :
  length new = n -> m ∈ seq (length l) n ->
  exists a, (l ++ new) !! m = Some a /\ a ∈ new.
Proof.
  intros Hl Hm. apply elem_of_seq in Hm as [H1 H2].
  destruct (lookup_lt_is_Some_2 new (m - length l)%nat) as [a Ha]; [lia|].
  exists a. rewrite lookup_app_r by lia. split; [exact Ha|].
  eapply list_elem_of_lookup_2; eauto.
Qed.

Lemma AgentGroup_init_spec w gt start_pos tz cash exits scl spd g :
  scl <> 0 -> known_type gt ->
  exists grp w' g' new,
    AgentGroup_init w gt start_pos tz cash exits scl spd g = Some (grp, w', g')
    /\ grp_type grp = gt
    /\ w_agents w' = w_agents w ++ new
    /\ group_formed w' grp.
Proof.
  intros Hs Hk. unfold AgentGroup_init. simpl.
  set (g1 := mkRng (stream g) (S (cursor g))).
  assert (Hb : exists bhv g2,
             (if decide (gt = AgentType.INDIVIDUAL)
              then random_choice [IMPULSIVE; TARGETED; EXPLORER; BUDGET] g1
              else Some (FAMILY, g1)) = Some (bhv, g2)
             /\ (gt = AgentType.INDIVIDUAL ->
                 bhv ∈ [IMPULSIVE; TARGETED; EXPLORER; BUDGET])
             /\ (gt <> AgentType.INDIVIDUAL -> bhv = FAMILY)).
  { destruct (decide (gt = AgentType.INDIVIDUAL)) as [Hi|Hi].
    - destruct (random_choice_in [IMPULSIVE; TARGETED; EXPLORER; BUDGET] g1)
        as (b & g2 & Hc & Hin); [discriminate|].
      exists b, g2. split; [exact Hc|]. split; [auto|contradiction].
    - exists FAMILY, g1. split; [reflexivity|]. split; [contradiction|auto]. }
  destruct Hb as (bhv & g2 & -> & Hind & Hfam).
  destruct (random_choice_in [LOW; MEDIUM; HIGH] g2) as (bdg & g3 & -> & _);
    [discriminate|].
  destruct (create_members_spec (AgentType.SIZES_get gt) gt
              (pick_draw (stream g (cursor g))) start_pos tz cash exits bhv bdg
              scl spd Hs 0%nat w g3) as (ms & w' & g4 & new & -> & Hw & Hms & Hl & Hf).
  eexists _, w', g4, new. split; [reflexivity|]. simpl.
  split; [reflexivity|]. split; [exact Hw|].
  unfold group_formed. simpl. rewrite Hms, length_seq. split; [reflexivity|].
  intros m Hm. destruct (elem_of_seq_lookup (w_agents w) new _ m Hl Hm)
    as (a & Ha & Hin).
  exists a. rewrite Hw. split; [exact Ha|].
  rewrite Forall_forall in Hf. specialize (Hf a Hin).
  destruct (sizes_known gt Hk) as [[Hi Hsz]|[Hi Hsz]].
  - split; [intros _; rewrite Hf; auto|lia].
  - split; [lia|intros _; rewrite Hf; auto].
Qed.

Lemma group_formed_extend w w' new grp :
  w_agents w' = w_agents w ++ new -> group_formed w grp -> group_formed w' grp.
Proof.
  intros Hw [Hl Hm]. split; [exact Hl|].
  intros m Hin. destruct (Hm m Hin) as (a & Ha & H1 & H2).
  exists a. rewrite Hw. split; [|auto].
  apply lookup_app_l_Some. exact Ha.
Qed.

Lemma make_groups_spec count gt entrances tz cash exits scl spd :
  scl <> 0 -> known_type gt -> entrances <> [] -> forall w g,
  exists grps w' g' new,
    make_groups count gt entrances tz cash exits scl spd w g = Some (grps, w', g')
    /\ w_agents w' = w_agents w ++ new
    /\ grp_type <$> grps = replicate count gt
    /\ Forall (group_formed w') grps.
Proof.
  intros Hs Hk He. induction count as [|count IH]; intros w g; simpl.
  - exists [], w, g, []. rewrite app_nil_r. auto.
  - destruct (random_choice_in entrances g He) as (start & g1 & -> & _).
    destruct (AgentGroup_init_spec w gt start tz cash exits scl spd g1 Hs Hk)
      as (grp & w1 & g2 & new1 & -> & Ht & Hw1 & Hf1).
    destruct (IH w1 g2) as (grps & w2 & g3 & new2 & -> & Hw2 & Hts & Hfs).
    exists (grp :: grps), w2, g3, (new1 ++ new2).
    split; [reflexivity|]. split; [|split].
    + rewrite Hw2, Hw1, app_assoc. reflexivity.
    + rewrite fmap_cons, Ht, Hts. reflexivity.
    + constructor; [|exact Hfs]. eapply group_formed_extend; eauto.
Qed.

Lemma member_count_formed w grps gt n :
  grp_type <$> grps = replicate n gt -> Forall (group_formed w) grps ->
  member_count grps = (n * AgentType.SIZES_get gt)%nat.
Proof.
  revert n. induction grps as [|grp grps IH]; intros [|n] Ht Hf; simpl in *;
    try discriminate; [reflexivity|].
  injection Ht as Ht1 Ht2. apply Forall_cons in Hf as [[Hl _] Hf].
  unfold member_count in *. simpl. rewrite (IH n Ht2 Hf), Hl, Ht1. reflexivity.
Qed.

Lemma member_count_app grps1 grps2 :
  member_count (grps1 ++ grps2) = (member_count grps1 + member_count grps2)%nat.
Proof. unfold member_count. apply sum_list_with_app. Qed.

Lemma generate_typed_spec total entrances tz cash exits scl spd :
  scl <> 0 -> entrances <> [] -> forall distribution used w g,
  Forall (fun tp => known_type tp.1) distribution ->
  exists grps used' w' g' new,
    generate_typed distribution total entrances tz cash exits scl spd used w g
    = Some (grps, used', w', g')
    /\ w_agents w' = w_agents w ++ new
    /\ used' = (used + Z.of_nat (planned_agents total distribution))%Z
    /\ member_count grps = planned_agents total distribution
    /\ grp_type <$> grps = planned_types total distribution
    /\ Forall (group_formed w') grps.
Proof.
  intros Hs He. induction distribution as [|[gt pct] rest IH];
    intros used w g Hk; simpl.
  - exists [], used, w, g, []. rewrite app_nil_r.
    unfold planned_agents, planned_types, member_count. simpl.
    repeat split; auto. lia.
  - apply Forall_cons in Hk as [Hk Hks]. simpl in Hk.
    set (count := group_count total pct (AgentType.SIZES_get gt)).
    destruct (make_groups_spec count gt entrances tz cash exits scl spd Hs Hk He w g)
      as (grps1 & w1 & g1 & new1 & -> & Hw1 & Ht1 & Hf1).
    destruct (IH (used + Z.of_nat count * Z.of_nat (AgentType.SIZES_get gt))%Z
                w1 g1 Hks)
      as (grps2 & used' & w2 & g2 & new2 & -> & Hw2 & Hu & Hm2 & Ht2 & Hf2).
    exists (grps1 ++ grps2), used', w2, g2, (new1 ++ new2).
    split; [reflexivity|]. split; [|split; [|split; [|split]]].
    + rewrite Hw2, Hw1, app_assoc. reflexivity.
    + rewrite Hu. unfold planned_agents. simpl. fold count. lia.
    + rewrite member_count_app, Hm2,
        (member_count_formed w1 grps1 gt count Ht1 Hf1).
      unfold planned_agents. simpl. reflexivity.
    + rewrite fmap_app, Ht1, Ht2. reflexivity.
    + apply Forall_app. split; [|exact Hf2].
      eapply Forall_impl; [exact Hf1|]. intros grp Hg.
      eapply group_formed_extend; eauto.
Qed.

Lemma group_count_share total pct size :
  (0 <= total)%Z -> 0 <= pct -> (1 <= size)%nat ->
  INR (group_count total pct size * size) <= IZR total * pct.
Proof.
  intros Ht Hp Hs. unfold group_count.
  assert (Hsz : 1 <= INR size) by (apply (le_INR 1); exact Hs).
  set (x := IZR total * pct / INR size).
  assert (Hx : 0 <= x).
  { unfold x. apply Rmult_le_pos.
    - apply Rmult_le_pos; [apply IZR_le; exact Ht|exact Hp].
    - left. apply Rinv_0_lt_compat. lra. }
  destruct (base_Int_part x) as [H1 H2].
  assert (Hi : (0 <= Int_part x)%Z).
  { apply le_IZR. apply Rnot_lt_le. intros Hlt.
    assert (IZR (Int_part x) <= -1).
    { apply IZR_le. apply lt_IZR in Hlt. lia. }
    lra. }
  rewrite mult_INR, INR_IZR_INZ, Z2Nat.id by exact Hi.
  replace (IZR total * pct) with (x * INR size) by (unfold x; field; lra).
  apply Rmult_le_compat_r; lra.
Qed.

Lemma planned_agents_share total distribution :
  (0 <= total)%Z -> Forall (fun tp => 0 <= tp.2) distribution ->
  INR (planned_agents total distribution) <= IZR total * total_share distribution.
Proof.
  intros Ht. induction 1 as [|[gt pct] rest Hp _ IH];
    unfold planned_agents, total_share in *; simpl in *.
  - lra.
  - rewrite plus_INR.
    pose proof (group_count_share total pct (AgentType.SIZES_get gt) Ht Hp
                  (sizes_positive gt)).
    lra.
Qed.

Lemma known_individual : known_type AgentType.INDIVIDUAL.
Proof. apply list_elem_of_here. Qed.

(** C9.  The population factory: for a target count [total >= 0] and a
    distribution over the three group types with non-negative shares
    summing to at most 1, the factory returns, per entry of the
    distribution, [floor(total * share / size)] groups of that type,
    followed by single-agent groups, so that the members of all groups
    number exactly [total]; a single agent has one of the four
    non-FAMILY strategies, the members of a larger group have FAMILY. *)
Theorem population_factory_total total distribution entrances product_zones
    cash exits scl spd w g :
  (0 <= total)%Z ->
  Forall (fun tp => known_type tp.1 /\ 0 <= tp.2) distribution ->
  total_share distribution <= 1 ->
  entrances <> [] -> scl <> 0 ->
  exists grps w' g',
    generate_agent_groups total distribution entrances product_zones cash
      exits scl spd w g = Some (grps, w', g')
    /\ member_count grps = Z.to_nat total
    /\ grp_type <$> grps
       = planned_types total distribution
         ++ replicate (Z.to_nat total - planned_agents total distribution)
              AgentType.INDIVIDUAL
    /\ Forall (group_formed w') grps.
Proof.
  intros Ht Hd Hshare He Hs. unfold generate_agent_groups.
  assert (Hk : Forall (fun tp : string * R => known_type tp.1) distribution).
  { eapply Forall_impl; [exact Hd|]. intros tp [H _]. exact H. }
  assert (Hp : Forall (fun tp : string * R => 0 <= tp.2) distribution).
  { eapply Forall_impl; [exact Hd|]. intros tp [_ H]. exact H. }
  destruct (generate_typed_spec total entrances product_zones cash exits scl spd
              Hs He distribution 0%Z w g Hk)
    as (grps & used & w1 & g1 & new1 & -> & Hw1 & Hu & Hm & Hty & Hf).
  assert (Hle : (planned_agents total distribution <= Z.to_nat total)%nat).
  { pose proof (planned_agents_share total distribution Ht Hp) as H.
    assert (H' : INR (planned_agents total distribution) <= IZR total).
    { assert (0 <= IZR total) by (apply IZR_le; exact Ht). nra. }
    rewrite INR_IZR_INZ in H'. apply le_IZR in H'. lia. }
  replace (Z.to_nat (total - used))
    with (Z.to_nat total - planned_agents total distribution)%nat by lia.
  destruct (make_groups_spec
              (Z.to_nat total - planned_agents total distribution)
              AgentType.INDIVIDUAL entrances product_zones cash exits scl spd
              Hs known_individual He w1 g1)
    as (singles & w2 & g2 & new2 & -> & Hw2 & Hts & Hfs).
  exists (grps ++ singles), w2, g2. split; [reflexivity|].
  split; [|split].
  - rewrite member_count_app, Hm,
      (member_count_formed w2 singles AgentType.INDIVIDUAL _ Hts Hfs).
    change (AgentType.SIZES_get AgentType.INDIVIDUAL) with 1%nat. lia.
  - rewrite fmap_app, Hty, Hts. reflexivity.
  - apply Forall_app. split; [|exact Hfs].
    eapply Forall_impl; [exact Hf|]. intros grp Hg.
    eapply group_formed_extend; eauto.
Qed.

(** ** Payment timers in reachable states *)

Lemma checkout_block_timers zs a zs1 a1 r :
  checkout_block zs a = Some (zs1, a1, r) ->
  payment_time a1 = payment_time a /\ service_time a1 = service_time a.
Proof.
  unfold checkout_block. destruct (_ && _); [|intros [= <- <- <-]; auto].
  destruct (min_by _ _ _); [|intros [= <- <- <-]; auto].
  destruct (join_queue _) as [zone' pos]. destruct (0 <? pos)%Z.
  - destruct (get_queue_position _ _ _ _); simpl; [|congruence].
    intros [= <- <- <-]. auto.
  - intros [= <- <- <-]. auto.
Qed.

Lemma choose_next_target_timers zs a g zs' a' g' :
  choose_next_target zs a g = Some (zs', a', g') ->
  payment_time a' = payment_time a /\ service_time a' = service_time a.
Proof.
  unfold choose_next_target. destruct (decide (state a = LEAVING)).
  { destruct (min_by _ _ _); simpl; [|congruence]. intros [= <- <- <-]. auto. }
  destruct (checkout_block zs a) as [[[zs1 a1] r]|] eqn:Hc; [|congruence].
  apply checkout_block_timers in Hc as [Hp Hs].
  destruct r; [intros [= <- <- <-]; auto|].
  destruct (unvisited_zones a1); [intros [= <- <- <-]; auto|].
  destruct (weighted_choice _ _ _ _) as [[z g1]|]; [|congruence].
  destruct (list_remove _ _); simpl; [|congruence].
  intros [= <- <- <-]. simpl. destruct (_first_move a1); auto.
Qed.

Lemma timer_inv_same a a' :
  payment_time a' = payment_time a -> service_time a' = service_time a ->
  timer_inv a -> timer_inv a'.
Proof. unfold timer_inv. intros -> ->. auto. Qed.

Lemma update_heading_timers a target avoid :
  payment_time (update_heading a target avoid) = payment_time a
  /\ service_time (update_heading a target avoid) = service_time a.
Proof. unfold update_heading. destruct (truthy _); auto. Qed.

Ltac timers_kept :=
  intros [= <- <- <-]; first [assumption | eapply timer_inv_same; eauto; reflexivity].

Ltac timers_via_choice H Hinv :=
  apply choose_next_target_timers in H as [Hp Hs];
  eapply timer_inv_same; [exact Hp|exact Hs|];
  eapply timer_inv_same; [| |exact Hinv]; reflexivity.

Lemma move_towards_target_timers zs ags self a others delta_time g zs' a' g' :
  move_towards_target zs ags self a others delta_time g = Some (zs', a', g') ->
  timer_inv a -> timer_inv a'.
Proof.
  intros Hm Hinv. revert Hm. unfold move_towards_target.
  destruct (state a) eqn:Hst.
  - destruct (destination a) as [dest|]; [|timers_kept].
    destruct (point_truthy dest); [|timers_kept].
    destruct (decide (_ <= _)).
    + simpl. rewrite Hst. destruct (cash_zones a); [|timers_kept].
      destruct (point_in _ _); [timers_kept|].
      intros H. timers_via_choice H Hinv.
    + destruct (avoid_collisions _ _ _ _) as [avoid|]; simpl; [|congruence].
      intros [= <- <- <-].
      destruct (update_heading_timers a dest avoid) as [Hp Hs].
      eapply timer_inv_same; [| |exact Hinv]; simpl; assumption.
  - destruct (decide (_ <= _)); [|timers_kept].
    destruct (random_random g) as [u g1].
    destruct (py_div _ _) as [p|]; simpl; [|congruence].
    destruct (decide (u < p)); [|timers_kept].
    intros H. timers_via_choice H Hinv.
  - destruct (current_cash_zone a) as [cz|]; [|timers_kept].
    destruct (sort_queue _) as [queue|]; simpl; [|congruence].
    destruct (bool_decide _); [timers_kept|].
    destruct (queue_position a) as [pos|]; [|timers_kept].
    destruct (bool_decide (pos = 0%Z)); [timers_kept|].
    destruct (get_queue_position _ _ _ _) as [target|]; simpl; [|congruence].
    destruct (decide (_ < _)); [|timers_kept].
    destruct (avoid_collisions _ _ _ _) as [avoid|]; simpl; [|congruence].
    intros [= <- <- <-].
    destruct (update_heading_timers a target avoid) as [Hp Hs].
    eapply timer_inv_same; [| |exact Hinv]; simpl; assumption.
  - destruct Hinv as [Hpos Hlt]. simpl.
    destruct (decide (service_time a <= payment_time a + delta_time)).
    + destruct (current_cash_zone a); intros H;
        apply choose_next_target_timers in H as [Hp Hs]; simpl in Hp, Hs;
        unfold timer_inv; rewrite Hp, Hs; lra.
    + intros [= <- <- <-]. unfold timer_inv. simpl. lra.
  - destruct (destination a) as [dest|]; [|timers_kept].
    destruct (point_truthy dest); [|timers_kept].
    destruct (decide (_ <= _)).
    + simpl. rewrite Hst. destruct (point_in _ _); timers_kept.
    + destruct (avoid_collisions _ _ _ _) as [avoid|]; simpl; [|congruence].
      intros [= <- <- <-].
      destruct (update_heading_timers a dest avoid) as [Hp Hs].
      eapply timer_inv_same; [| |exact Hinv]; simpl; assumption.
  - timers_kept.
Qed.

Lemma Agent_init_timers zs counter start_pos store_zones cash exits bhv bdg
    scl spd g zs' a' g' :
  rng_ok g ->
  Agent_init zs counter start_pos store_zones cash exits bhv bdg scl spd g
  = Some (zs', a', g') ->
  timer_inv a'.
Proof.
  intros Hg. unfold Agent_init, random_uniform, random_random, rng_next. simpl.
  intros H. apply choose_next_target_timers in H as [Hp Hs]. simpl in Hp, Hs.
  unfold timer_inv. rewrite Hp, Hs. destruct (Hg (cursor g)). lra.
Qed.

Lemma timers_ok_insert w zs c i a :
  timers_ok w -> timer_inv a ->
  timers_ok (mkWorld zs (<[i := a]> (w_agents w)) c).
Proof.
  intros Hw Ha b Hb. simpl in Hb.
  apply elem_of_insert_inv in Hb as [->|Hb]; [exact Ha|apply Hw; exact Hb].
Qed.

Lemma timers_ok_step w w' : step w w' -> timers_ok w -> timers_ok w'.
Proof.
  intros Hstep Hw. destruct Hstep.
  - exact Hw.
  - unfold spawn_agent in H1.
    destruct (Agent_init _ _ _ _ _ _ _ _ _ _ _) as [[[zs a] g1]|] eqn:Hi;
      [|discriminate].
    injection H1 as <- <-. intros b Hb. simpl in Hb.
    apply elem_of_app in Hb as [Hb|Hb]; [apply Hw; exact Hb|].
    apply list_elem_of_singleton in Hb as ->.
    eapply Agent_init_timers; eauto.
  - apply timers_ok_insert; [exact Hw|].
    eapply timer_inv_same; [| |apply Hw; eapply list_elem_of_lookup_2; eauto];
      reflexivity.
  - unfold step_agent in H.
    destruct (w_agents w !! self) as [a|] eqn:Ha; simpl in H; [|discriminate].
    destruct (move_towards_target _ _ _ _ _ _ _) as [[[zs a'] g1]|] eqn:Hm;
      [|discriminate].
    injection H as <- <-. apply timers_ok_insert; [exact Hw|].
    eapply move_towards_target_timers; [exact Hm|].
    apply Hw. eapply list_elem_of_lookup_2; eauto.
  - apply timers_ok_insert; [exact Hw|].
    eapply timer_inv_same; [| |apply Hw; eapply list_elem_of_lookup_2; eauto];
      reflexivity.
Qed.

Lemma timers_ok_reachable w : reachable w -> timers_ok w.
Proof.
  intros H.
  eapply (rtc_ind_r (R := step) timers_ok); [| |exact H].
  - intros a Ha. inversion Ha.
  - intros y z _ Hs IH. eapply timers_ok_step; eauto.
Qed.

(** C3.  A movement step with [delta_time = 0] on an agent of a reachable
    state leaves its position, state, shopping time and payment time
    unchanged, in every state of the agent, with two exceptions that do
    not depend on the elapsed time: an IN_QUEUE agent at the head of its
    queue is promoted to PAYING, and a WALKING or LEAVING agent standing
    exactly on its destination performs its arrival transition.  Both
    are excluded by the hypotheses; nothing is asked of an agent that is
    SHOPPING, PAYING or FINISHED. *)
Theorem zero_delta_time_step w self a others g w' g' :
  reachable w ->
  w_agents w !! self = Some a ->
  rng_ok g ->
  (state a = IN_QUEUE -> forall queue,
     sort_queue (queue_of (w_agents w) a others) = Some queue ->
     head queue <> Some self) ->
  (state a = WALKING \/ state a = LEAVING ->
   forall dest, destination a = Some dest -> point_truthy dest = true ->
                0 < distance_to a dest) ->
  step_agent w self others 0 g = Some (w', g') ->
  exists a', w_agents w' !! self = Some a' /\ unchanged a a'.
Proof.
  intros Hr Ha Hg Hq Hd. unfold step_agent. rewrite Ha. simpl.
  destruct (move_towards_target _ _ _ _ _ _ _) as [[[zs a'] g1]|] eqn:Hm;
    [|discriminate].
  intros [= <- <-]. exists a'. simpl. split.
  - apply list_lookup_insert_eq. eapply lookup_lt_Some; eauto.
  - eapply zero_delta_time_no_change; eauto.
    intros _. apply (timers_ok_reachable w Hr a).
    eapply list_elem_of_lookup_2; eauto.
Qed.

(** ** The composite operations are runs of elementary steps *)

Lemma random_choice_stream {A} (l : list A) g x g' :
  random_choice l g = Some (x, g') -> stream g' = stream g.
Proof.
  unfold random_choice. simpl. destruct (l !! _); simpl; [|congruence].
  intros [= _ <-]. reflexivity.
Qed.

Lemma zone_weight_stream zs a z g :
  stream (zone_weight zs a z g).2 = stream g.
Proof.
  unfold zone_weight, random_random, rng_next.
  destruct (behavior a); reflexivity.
Qed.

Lemma zone_weights_stream zs a zones : forall g,
  stream (zone_weights zs a zones g).2 = stream g.
Proof.
  induction zones as [|z zones IH]; intros g; simpl; [reflexivity|].
  pose proof (zone_weight_stream zs a z g) as Hz.
  destruct (zone_weight zs a z g) as [w g1]. simpl in Hz.
  specialize (IH g1). destruct (zone_weights zs a zones g1) as [ws g2].
  simpl in *. congruence.
Qed.

Lemma weighted_choice_stream zs a zones g z g' :
  weighted_choice zs a zones g = Some (z, g') -> stream g' = stream g.
Proof.
  unfold weighted_choice.
  pose proof (zone_weights_stream zs a zones g) as Hw.
  destruct (zone_weights zs a zones g) as [weights g1]. simpl in Hw.
  destruct (decide (_ <= 0)).
  - intros H. apply random_choice_stream in H. congruence.
  - unfold random_uniform, random_random, rng_next.
    destruct (roulette _ _).
    + intros [= _ <-]. simpl. exact Hw.
    + destruct (last zones); simpl; [|congruence].
      intros [= _ <-]. simpl. exact Hw.
Qed.

Lemma choose_next_target_stream zs a g zs' a' g' :
  choose_next_target zs a g = Some (zs', a', g') -> stream g' = stream g.
Proof.
  unfold choose_next_target. destruct (decide (state a = LEAVING)).
  { destruct (min_by _ _ _); simpl; [|congruence]. intros [= _ _ <-]. reflexivity. }
  destruct (checkout_block zs a) as [[[zs1 a1] r]|]; [|congruence].
  destruct r; [intros [= _ _ <-]; reflexivity|].
  destruct (unvisited_zones a1); [intros [= _ _ <-]; reflexivity|].
  destruct (weighted_choice _ _ _ _) as [[z g1]|] eqn:Hw; [|congruence].
  destruct (list_remove _ _); simpl; [|congruence].
  intros [= _ _ <-]. eapply weighted_choice_stream; eauto.
Qed.

Lemma rng_ok_stream g g' : stream g' = stream g -> rng_ok g -> rng_ok g'.
Proof. unfold rng_ok. intros ->. auto. Qed.

Lemma Agent_init_stream zs counter start_pos store_zones cash exits bhv bdg
    scl spd g zs' a' g' :
  Agent_init zs counter start_pos store_zones cash exits bhv bdg scl spd g
  = Some (zs', a', g') ->
  stream g' = stream g /\ length zs' = length zs.
Proof.
  intros H. split.
  - unfold Agent_init, random_uniform, random_random, rng_next in H. simpl in H.
    apply choose_next_target_stream in H. exact H.
  - apply Agent_init_effect in H as (_ & _ & _ & _ & [[-> _]|(c & _ & _ & _ & ->)]).
    + reflexivity.
    + apply length_insert.
Qed.

Lemma update_agents_steps todo delta_time : forall w g w' g',
  update_agents todo w delta_time g = Some (w', g') -> steps w w'.
Proof.
  induction todo as [|i todo IH]; intros w g w' g'; simpl.
  - intros [= <- <-]. apply rtc_refl.
  - destruct (w_agents w !! i) as [a|]; simpl; [|congruence].
    destruct (finished a); [apply IH|].
    destruct (step_agent _ _ _ _ _) as [[w1 g1]|] eqn:Hs; [|congruence].
    intros H. eapply rtc_l; [eapply step_move; exact Hs|]. eapply IH; eauto.
Qed.

Lemma update_loop_steps w delta_time g w' g' :
  update_loop w delta_time g = Some (w', g') -> steps w w'.
Proof. apply update_agents_steps. Qed.

Lemma follow_chain_steps group_speed zs c rest : forall ags prev,
  steps (mkWorld zs ags c)
        (mkWorld zs (follow_chain group_speed ags prev rest) c).
Proof.
  induction rest as [|cur rest IH]; intros ags prev; simpl.
  - apply rtc_refl.
  - destruct (ags !! prev) as [p|] eqn:Hp; [|apply IH].
    destruct (ags !! cur) as [a|] eqn:Ha; [|apply IH].
    eapply rtc_l; [|apply IH].
    exact (step_follow (mkWorld zs ags c) group_speed prev cur p a Hp Ha).
Qed.

Lemma AgentGroup_update_steps w grp g w' g' :
  AgentGroup_update w grp g = Some (w', g') -> steps w w'.
Proof.
  unfold AgentGroup_update. destruct (members grp) as [|leader followers].
  { intros [= <- <-]. apply rtc_refl. }
  destruct (step_agent _ _ _ _ _) as [[w1 g1]|] eqn:Hs; [|congruence].
  intros [= <- <-]. eapply rtc_l; [eapply step_move; exact Hs|].
  destruct w1 as [zs ags c]. apply follow_chain_steps.
Qed.

Lemma create_members_steps n gt gid start_pos tz cash exits bhv bdg scl spd :
  forall role w g ms w' g',
  (forall z, z ∈ tz ++ cash -> (z < length (w_zones w))%nat) ->
  rng_ok g ->
  create_members n role gt gid start_pos tz cash exits bhv bdg scl spd w g
  = Some (ms, w', g') ->
  steps w w' /\ rng_ok g' /\ length (w_zones w') = length (w_zones w).
Proof.
  induction n as [|n IH]; intros role w g ms w' g' Hv Hg; simpl.
  - intros [= _ <- <-]. split; [apply rtc_refl|]. auto.
  - destruct (Agent_init _ _ _ _ _ _ _ _ _ _ _) as [[[zs a] g1]|] eqn:Hi;
      [|congruence].
    destruct (Agent_init_stream _ _ _ _ _ _ _ _ _ _ _ _ _ _ Hi) as [Hst Hlen].
    set (agent := set_role (Some role)
                    (set_group_type (Some gt) (set_group_id (Some gid) a))).
    set (w1 := mkWorld zs (w_agents w ++ [agent]) (S (w_counter w))).
    destruct (create_members n (S role) gt gid start_pos tz cash exits bhv bdg
                scl spd w1 g1) as [[[ms' w2] g2]|] eqn:Hc; [|congruence].
    intros [= _ <- <-].
    destruct (IH (S role) w1 g1 ms' w2 g2) as (Hsteps & Hg2 & Hl2).
    { intros z Hz. simpl. rewrite Hlen. apply Hv. exact Hz. }
    { eapply rng_ok_stream; eauto. }
    { exact Hc. }
    split; [|split; [exact Hg2|simpl in Hl2; congruence]].
    eapply rtc_l; [|eapply rtc_l; [|exact Hsteps]].
    + eapply (step_spawn w start_pos tz cash exits bhv bdg scl spd g
                (mkWorld zs (w_agents w ++ [a]) (S (w_counter w))) g1 Hv Hg).
      unfold spawn_agent. rewrite Hi. reflexivity.
    + unfold w1. rewrite <- (insert_app_last (w_agents w) a agent).
      apply (step_tag (mkWorld zs (w_agents w ++ [a]) (S (w_counter w)))
               (length (w_agents w)) a gid gt role).
      simpl. rewrite lookup_app_r by lia. rewrite Nat.sub_diag. reflexivity.
Qed.

Lemma AgentGroup_init_steps w gt start_pos tz cash exits scl spd g grp w' g' :
  (forall z, z ∈ tz ++ cash -> (z < length (w_zones w))%nat) ->
  rng_ok g ->
  AgentGroup_init w gt start_pos tz cash exits scl spd g = Some (grp, w', g') ->
  steps w w' /\ rng_ok g' /\ length (w_zones w') = length (w_zones w).
Proof.
  intros Hv Hg. unfold AgentGroup_init. simpl.
  set (g1 := mkRng (stream g) (S (cursor g))).
  destruct (if decide (gt = AgentType.INDIVIDUAL) then _ else _)
    as [[bhv g2]|] eqn:Hb; [|congruence].
  assert (Hg2 : stream g2 = stream g).
  { destruct (decide (gt = AgentType.INDIVIDUAL)).
    - apply random_choice_stream in Hb. exact Hb.
    - injection Hb as _ <-. reflexivity. }
  destruct (random_choice [LOW; MEDIUM; HIGH] g2) as [[bdg g3]|] eqn:Hc;
    [|congruence].
  apply random_choice_stream in Hc.
  destruct (create_members _ _ _ _ _ _ _ _ _ _ _ _ _ _)
    as [[[ms w1] g4]|] eqn:Hm; [|congruence].
  intros [= _ <- <-].
  eapply create_members_steps; [exact Hv| |exact Hm].
  eapply rng_ok_stream; [|exact Hg]. congruence.
Qed.

Lemma make_groups_steps count gt entrances tz cash exits scl spd :
  forall w g grps w' g',
  (forall z, z ∈ tz ++ cash -> (z < length (w_zones w))%nat) ->
  rng_ok g ->
  make_groups count gt entrances tz cash exits scl spd w g = Some (grps, w', g') ->
  steps w w' /\ rng_ok g' /\ length (w_zones w') = length (w_zones w).
Proof.
  induction count as [|count IH]; intros w g grps w' g' Hv Hg; simpl.
  - intros [= _ <- <-]. split; [apply rtc_refl|]. auto.
  - destruct (random_choice entrances g) as [[start g1]|] eqn:Hc; [|congruence].
    apply random_choice_stream in Hc.
    destruct (AgentGroup_init _ _ _ _ _ _ _ _ _) as [[[grp w1] g2]|] eqn:Hi;
      [|congruence].
    destruct (AgentGroup_init_steps _ _ _ _ _ _ _ _ _ _ _ _ Hv
                (rng_ok_stream _ _ Hc Hg) Hi) as (Hs1 & Hg2 & Hl1).
    destruct (make_groups count _ _ _ _ _ _ _ w1 g2)
      as [[[grps' w2] g3]|] eqn:Hm; [|congruence].
    intros [= _ <- <-].
    destruct (IH w1 g2 grps' w2 g3
                (fun z Hz => eq_ind_r (fun n => (z < n)%nat) (Hv z Hz) Hl1)
                Hg2 Hm) as (Hs2 & Hg3 & Hl2).
    split; [|split; [exact Hg3|congruence]].
    eapply (transitivity (R := rtc step)); eauto.
Qed.

Lemma generate_typed_steps total entrances tz cash exits scl spd :
  forall distribution used w g grps used' w' g',
  (forall z, z ∈ tz ++ cash -> (z < length (w_zones w))%nat) ->
  rng_ok g ->
  generate_typed distribution total entrances tz cash exits scl spd used w g
  = Some (grps, used', w', g') ->
  steps w w' /\ rng_ok g' /\ length (w_zones w') = length (w_zones w).
Proof.
  induction distribution as [|[gt pct] rest IH];
    intros used w g grps used' w' g' Hv Hg; simpl.
  - intros [= _ _ <- <-]. split; [apply rtc_refl|]. auto.
  - destruct (make_groups _ _ _ _ _ _ _ _ w g) as [[[grps1 w1] g1]|] eqn:Hm;
      [|congruence].
    destruct (make_groups_steps _ _ _ _ _ _ _ _ _ _ _ _ _ Hv Hg Hm)
      as (Hs1 & Hg1 & Hl1).
    destruct (generate_typed rest _ _ _ _ _ _ _ _ w1 g1)
      as [[[[grps2 used2] w2] g2]|] eqn:Hr; [|congruence].
    intros [= _ _ <- <-].
    destruct (IH _ w1 g1 grps2 used2 w2 g2
                (fun z Hz => eq_ind_r (fun n => (z < n)%nat) (Hv z Hz) Hl1)
                Hg1 Hr) as (Hs2 & Hg2 & Hl2).
    split; [|split; [exact Hg2|congruence]].
    eapply (transitivity (R := rtc step)); eauto.
Qed.

Lemma generate_agent_groups_steps total distribution entrances tz cash exits
    scl spd w g grps w' g' :
  (forall z, z ∈ tz ++ cash -> (z < length (w_zones w))%nat) ->
  rng_ok g ->
  generate_agent_groups total distribution entrances tz cash exits scl spd w g
  = Some (grps, w', g') ->
  steps w w'.
Proof.
  intros Hv Hg. unfold generate_agent_groups.
  destruct (generate_typed _ _ _ _ _ _ _ _ _ _ _)
    as [[[[grps1 used] w1] g1]|] eqn:Ht; [|congruence].
  destruct (generate_typed_steps _ _ _ _ _ _ _ _ _ _ _ _ _ _ _ Hv Hg Ht)
    as (Hs1 & Hg1 & Hl1).
  destruct (make_groups _ _ _ _ _ _ _ _ w1 g1) as [[[singles w2] g2]|] eqn:Hm;
    [|congruence].
  intros [= _ <- _].
  destruct (make_groups_steps _ _ _ _ _ _ _ _ w1 g1 singles w2 g2
              (fun z Hz => eq_ind_r (fun n => (z < n)%nat) (Hv z Hz) Hl1)
              Hg1 Hm) as (Hs2 & _).
  eapply (transitivity (R := rtc step)); eauto.
Qed.

(** ** Instances on concrete stores *)

Lemma saturated_checkouts_finish_witness :
  choose_next_target saturated_zones last_shopper zero_rng
  = Some (saturated_zones,
          set_destination None (set_state FINISHED last_shopper), zero_rng).
Proof.
  apply (saturated_checkouts_finish saturated_zones last_shopper zero_rng).
  - simpl. discriminate.
  - reflexivity.
  - simpl. discriminate.
  - repeat constructor.
Defined.

(** The same shopper seen from the movement step: the draw that ends the
    dwell time ends the visit without a payment. *)
Lemma last_shopper_leaves_unpaid :
  move_towards_target saturated_zones [last_shopper] 0 last_shopper [0%nat]
    default_delta_time zero_rng
  = Some (saturated_zones,
          set_destination None
            (set_state FINISHED
               (set_shopping_time 0
                  (set_shopping_time (5 + default_delta_time) last_shopper))),
          mkRng (fun _ => mkDraw 0 0) 1).
Proof.
  unfold move_towards_target. simpl.
  destruct (decide (5 <= 5 + default_delta_time)) as [_|H];
    [|unfold default_delta_time in H; lra].
  unfold py_div. destruct (decide (30 - 5 = 0)) as [H|_]; [lra|]. simpl.
  destruct (decide (0 < default_delta_time / (30 - 5))) as [_|H].
  - unfold choose_next_target.
    destruct (decide (_ = LEAVING)) as [H|_]; [simpl in H; discriminate H|].
    rewrite checkout_block_saturated by repeat constructor. reflexivity.
  - exfalso. apply H. unfold default_delta_time. lra.
Qed.

Lemma two_promotions_in_one_tick_counterexample :
  reachable world_two_queued
  /\ exists w' g' a b a' b',
       update_loop world_two_queued default_delta_time zero_rng = Some (w', g')
       /\ w_agents world_two_queued !! 0%nat = Some a
       /\ w_agents world_two_queued !! 1%nat = Some b
       /\ state a = IN_QUEUE /\ state b = IN_QUEUE
       /\ current_cash_zone a = Some 0%nat /\ current_cash_zone b = Some 0%nat
       /\ w_agents w' !! 0%nat = Some a' /\ w_agents w' !! 1%nat = Some b'
       /\ state a' = PAYING /\ state b' = PAYING.
Proof.
  split; [apply reachable_world_two_queued|].
  eexists _, _, _, _, _, _.
  split; [apply two_promotions_in_one_tick|].
  repeat split; reflexivity.
Qed.

Lemma queue_head_promoted_witness :
  0%nat ∈ [0; 1]%nat
  /\ forall j ag, j ∈ [0; 1]%nat -> j <> 0%nat ->
       w_agents world_two_queued !! j = Some ag ->
       state ag = IN_QUEUE ->
       current_cash_zone ag = current_cash_zone (queued_agent 0 1) ->
       exists k kj, queue_position (queued_agent 0 1) = Some k
                    /\ queue_position ag = Some kj /\ (k <= kj)%Z.
Proof.
  apply (queue_head_promoted [checkout_with 2] (w_agents world_two_queued) 0
           (queued_agent 0 1) [0; 1]%nat default_delta_time zero_rng
           [checkout_with 2] (set_state PAYING (queued_agent 0 1)) zero_rng);
    reflexivity.
Defined.

Lemma zero_delta_time_promotion_counterexample :
  reachable world_one_queued
  /\ exists a w' g' a',
       w_agents world_one_queued !! 0%nat = Some a
       /\ step_agent world_one_queued 0 [0%nat] 0 zero_rng = Some (w', g')
       /\ w_agents w' !! 0%nat = Some a'
       /\ state a = IN_QUEUE /\ state a' = PAYING.
Proof.
  split; [apply reachable_world_one_queued|].
  eexists _, _, _, _. split; [reflexivity|]. split; [reflexivity|].
  repeat split; reflexivity.
Qed.

Lemma reachable_world_first_paying : reachable world_first_paying.
Proof.
  eapply rtc_r; [apply reachable_world_two_queued|].
  eapply step_move. apply first_becomes_paying.
Qed.

Lemma paying_agent_idle :
  step_agent world_first_paying 0 [0; 1]%nat 0 zero_rng
  = Some (mkWorld [checkout_with 2]
            [set_payment_time (0 + 0) (set_state PAYING (queued_agent 0 1));
             queued_agent 1 2] 2, zero_rng).
Proof.
  unfold step_agent, move_towards_target. simpl.
  destruct (decide (30 <= 0 + 0)) as [H|_]; [lra|reflexivity].
Qed.

Lemma spawn_shopper :
  spawn_agent (mkWorld walker_zones [] 0) (mkPoint 500 0) [1%nat] [0%nat]
    [mkPoint 0 0] EXPLORER HIGH 1 1 zero_rng
  = Some (world_shopper WALKING, mkRng (fun _ => mkDraw 0 0) 7).
Proof.
  run. 
  replace (Rmax (Rmax 1 0) 0) with 1
    by (rewrite (Rmax_left 1 0) by lra; rewrite Rmax_left by lra; reflexivity).
  repeat (settle_real; run). all: try reals_agree.
Qed.

Lemma reachable_world_shopper_walking : reachable (world_shopper WALKING).
Proof.
  eapply rtc_r; [eapply rtc_r; [eapply rtc_r; [apply rtc_refl|]|]|].
  - exact (step_new_zone init_world "checkout" checkout_rect 1 None).
  - exact (step_new_zone _ "shelf" (mkRect 490 (-10) 20 20) 1 None).
  - eapply step_spawn; [| |apply spawn_shopper].
    + intros z Hz. simpl in Hz.
      repeat (apply elem_of_cons in Hz as [->|Hz]; [simpl; lia|]).
      inversion Hz.
    + apply zero_rng_ok.
Qed.

Lemma shopper_arrives :
  step_agent (world_shopper WALKING) 0 [0%nat] 0 zero_rng
  = Some (world_shopper SHOPPING, zero_rng).
Proof.
  unfold step_agent, move_towards_target. simpl. unfold point_truthy. simpl.
  rewrite (bool_decide_eq_false_2 (500 = 0)) by lra. simpl.
  unfold distance_to. simpl.
  replace ((500 - 500) * (500 - 500) + (0 - 0) * (0 - 0)) with 0 by ring.
  rewrite sqrt_0.
  destruct (decide (0 <= 1 * 0)) as [_|H]; [reflexivity|lra].
Qed.

Lemma reachable_world_shopper : reachable (world_shopper SHOPPING).
Proof.
  eapply rtc_r; [apply reachable_world_shopper_walking|].
  eapply step_move. apply shopper_arrives.
Qed.

Lemma shopper_idle :
  step_agent (world_shopper SHOPPING) 0 [0%nat] 0 zero_rng
  = Some (mkWorld walker_zones [set_shopping_time (0 + 0) (shopper SHOPPING)] 1,
          zero_rng).
Proof.
  unfold step_agent, move_towards_target. simpl.
  destruct (decide (5 <= 0 + 0)) as [H|_]; [lra|reflexivity].
Qed.

Lemma zero_delta_time_step_witness :
  (exists a', w_agents (mkWorld walker_zones
                          [set_shopping_time (0 + 0) (shopper SHOPPING)] 1)
                !! 0%nat = Some a'
              /\ unchanged (shopper SHOPPING) a')
  /\ exists a', w_agents (mkWorld [checkout_with 2]
                            [set_payment_time (0 + 0)
                               (set_state PAYING (queued_agent 0 1));
                             queued_agent 1 2] 2) !! 0%nat = Some a'
                /\ unchanged (set_state PAYING (queued_agent 0 1)) a'.
Proof.
  split.
  - apply (zero_delta_time_step (world_shopper SHOPPING) 0 (shopper SHOPPING)
             [0%nat] zero_rng _ zero_rng).
    + apply reachable_world_shopper.
    + reflexivity.
    + apply zero_rng_ok.
    + simpl. discriminate.
    + simpl. intros [H|H]; discriminate H.
    + apply shopper_idle.
  - apply (zero_delta_time_step world_first_paying 0
             (set_state PAYING (queued_agent 0 1)) [0; 1]%nat zero_rng _ zero_rng).
    + apply reachable_world_first_paying.
    + reflexivity.
    + apply zero_rng_ok.
    + simpl. discriminate.
    + simpl. intros [H|H]; discriminate H.
    + apply paying_agent_idle.
Defined.

Lemma queue_length_bounded_witness :
  (0 <= queue_length (checkout_with 2) <= max_queue_length (checkout_with 2))%Z
  /\ (Z.of_nat (holders (w_agents world_two_queued) 0)
      <= queue_length (checkout_with 2))%Z.
Proof.
  destruct (queue_length_bounded world_two_queued 0 (checkout_with 2)
              reachable_world_two_queued eq_refl) as (H1 & H2 & _).
  split; assumption.
Defined.

Lemma NoDup_three : NoDup [0; 1; 2]%nat.
Proof.
  repeat constructor; intros H;
    repeat (apply elem_of_cons in H as [H|H]; [discriminate H|]);
    inversion H.
Defined.


Lemma follow_second : follow 1 (mkPoint 101 0) (mkPoint 100 0) = mkPoint 101 0.
Proof.
  unfold follow. cbn [psub pt_x pt_y].
  replace (sqrt ((101 - 100) ^ 2 + (0 - 0) ^ 2)) with 1
    by (replace ((101 - 100) ^ 2 + (0 - 0) ^ 2) with (1 * 1) by ring;
        rewrite sqrt_square by lra; reflexivity).
  destruct (decide (0 < 1)); [|lra].
  unfold Rmin. destruct (Rle_dec 1 1); [|lra].
  unfold padd. cbn [pt_x pt_y]. f_equal; field.
Qed.

Lemma family_update :
  AgentGroup_update world_family family_group zero_rng
  = Some (world_family_after, zero_rng).
Proof.
  unfold AgentGroup_update, family_group. cbn [members grp_speed].
  rewrite family_leader_dwells.
  cbn [w_agents w_zones w_counter follow_chain]. simpl.
  rewrite follow_first. simpl. rewrite follow_second. reflexivity.
Qed.

Lemma family_members_stored m :
  m ∈ members family_group -> is_Some (w_agents world_family !! m).
Proof.
  simpl. intros H.
  repeat (apply elem_of_cons in H as [->|H]; [simpl; eauto|]).
  inversion H.
Defined.

Lemma followers_step_toward_predecessor_witness :
  exists before pred after,
    w_agents world_family !! 1%nat = Some before
    /\ w_agents world_family_after !! 0%nat = Some pred
    /\ w_agents world_family_after !! 1%nat = Some after
    /\ point_distance (position before) (position after)
       = Rmin 1 (point_distance (position before) (position pred)).
Proof.
  assert (Hspeed : 0 <= grp_speed family_group) by (simpl; lra).
  destruct (followers_step_toward_predecessor world_family family_group zero_rng
              world_family_after zero_rng Hspeed NoDup_three
              family_members_stored family_update 0%nat 0%nat 1%nat
              eq_refl eq_refl)
    as (before & pred & after & H1 & H2 & H3 & _ & H5 & _).
  exists before, pred, after. auto.
Defined.

Lemma even_distribution_ok :
  Forall (fun tp : string * R => known_type tp.1 /\ 0 <= tp.2) even_distribution.
Proof.
  unfold even_distribution, known_type.
  repeat constructor; simpl; lra.
Defined.

Lemma population_factory_total_witness :
  exists grps w' g',
    generate_agent_groups 10 even_distribution [mkPoint 0 0] [0; 1; 2]%nat []
      [mkPoint 0 0] 1 1 world_shelves zero_rng = Some (grps, w', g')
    /\ member_count grps = 10%nat.
Proof.
  destruct (population_factory_total 10 even_distribution [mkPoint 0 0]
              [0; 1; 2]%nat [] [mkPoint 0 0] 1 1 world_shelves zero_rng)
    as (grps & w' & g' & H1 & H2 & _).
  - lia.
  - apply even_distribution_ok.
  - unfold total_share, even_distribution. simpl. lra.
  - discriminate.
  - lra.
  - exists grps, w', g'. split; [exact H1|exact H2].
Defined.

(** The second exception to the zero-time step: a walker standing on its
    destination arrives, whatever the elapsed time. *)
Lemma zero_delta_time_arrival :
  move_towards_target walker_zones [set_position (mkPoint 500 0) walker] 0
    (set_position (mkPoint 500 0) walker) [0%nat] 0 zero_rng
  = Some (walker_zones,
          set_state SHOPPING
            (set_position (mkPoint 500 0) (set_position (mkPoint 500 0) walker)),
          zero_rng).
Proof.
  unfold move_towards_target. simpl. unfold point_truthy. simpl.
  rewrite (bool_decide_eq_false_2 (500 = 0)) by lra. simpl.
  unfold distance_to. simpl.
  replace ((500 - 500) * (500 - 500) + (0 - 0) * (0 - 0)) with 0 by ring.
  rewrite sqrt_0.
  destruct (decide (0 <= 1 * 0)) as [_|H]; [reflexivity|lra].
Qed.

(** The budget scenario after the first selection: with zones of
    attractiveness 0.8, 1.5 and 1.1 unvisited, a LOW agent selects the
    1.5 zone. *)
Lemma low_budget_later_selection :
  exists unvisited g',
    choose_next_target zones6 (set_first_move false agent6) zero_rng
    = Some (zones6, selected zones6 (set_first_move false agent6) 1 unvisited, g').
Proof.
  destruct (choose_next_target_select zones6 (set_first_move false agent6)
              zero_rng) as (z & un & g' & Hc & Hz & _); [simpl; discriminate..|].
  assert (Hz1 : 1.3 <= attractiveness (zone_at zones6 z)).
  { eapply (budget_filter_low zones6 _ z 1%nat); [exact Hz| |simpl; lra].
    simpl. apply list_elem_of_further, list_elem_of_here. }
  apply budget_filter_subseteq, first_move_filter_subseteq in Hz.
  simpl in Hz.
  apply elem_of_cons in Hz as [->|Hz]; [simpl in Hz1; lra|].
  apply elem_of_cons in Hz as [->|Hz]; [eauto|].
  apply elem_of_cons in Hz as [->|Hz]; [simpl in Hz1; lra|].
  inversion Hz.
Qed.

(** ** Leaving and joining a checkout *)

Lemma fold_best_minimal {A K} (lt : K -> K -> bool) (key : A -> K) :
  (forall k, lt k k = false) ->
  (forall k1 k2 k3, lt k1 k2 = true -> lt k2 k3 = true -> lt k1 k3 = true) ->
  forall rest x seen,
    (forall y, y ∈ seen -> lt (key y) (key x) = false) ->
    forall y, y ∈ seen ++ x :: rest ->
      lt (key y)
         (key (fold_left (fun best y => if lt (key y) (key best) then y else best)
                 rest x)) = false.
Proof.
  intros Hirr Htr. induction rest as [|z rest IH]; intros x seen Hseen y Hy; simpl.
  - apply elem_of_app in Hy as [Hy|Hy]; [auto|].
    apply list_elem_of_singleton in Hy as ->. apply Hirr.
  - replace (seen ++ x :: z :: rest) with ((seen ++ [x]) ++ z :: rest) in Hy
      by (rewrite <- app_assoc; reflexivity).
    destruct (lt (key z) (key x)) eqn:Hzx.
    + apply (IH z (seen ++ [x])); [|exact Hy].
      intros y' Hy'. destruct (lt (key y') (key z)) eqn:Hyz; [|reflexivity].
      pose proof (Htr _ _ _ Hyz Hzx) as Hyx.
      apply elem_of_app in Hy' as [Hy'|Hy'].
      * rewrite (Hseen y' Hy') in Hyx. discriminate.
      * apply list_elem_of_singleton in Hy' as ->. rewrite Hirr in Hyx. discriminate.
    + assert (Hy2 : y ∈ (seen ++ [z]) ++ x :: rest).
      { apply elem_of_app in Hy as [Hy|Hy].
        - apply elem_of_app in Hy as [Hy|Hy].
          + apply elem_of_app. left. apply elem_of_app. left. exact Hy.
          + apply list_elem_of_singleton in Hy as ->.
            apply elem_of_app. right. apply list_elem_of_here.
        - apply elem_of_cons in Hy as [->|Hy].
          + apply elem_of_app. left. apply elem_of_app. right.
            apply list_elem_of_here.
          + apply elem_of_app. right. apply list_elem_of_further. exact Hy. }
      apply (IH x (seen ++ [z])); [|exact Hy2].
      intros y' Hy'. apply elem_of_app in Hy' as [Hy'|Hy']; [auto|].
      apply list_elem_of_singleton in Hy' as ->. exact Hzx.
Qed.

Lemma min_by_minimal {A K} (lt : K -> K -> bool) (key : A -> K) l x :
  (forall k, lt k k = false) ->
  (forall k1 k2 k3, lt k1 k2 = true -> lt k2 k3 = true -> lt k1 k3 = true) ->
  min_by lt key l = Some x ->
  x ∈ l /\ forall y, y ∈ l -> lt (key y) (key x) = false.
Proof.
  intros Hirr Htr Hmin. split; [eapply min_by_in; eauto|].
  destruct l as [|x0 rest]; simpl in Hmin; [discriminate|].
  injection Hmin as <-. intros y Hy.
  apply (fold_best_minimal lt key Hirr Htr rest x0 []); [|exact Hy].
  intros y' Hy'. inversion Hy'.
Qed.

Lemma float_lt_irrefl k : float_lt k k = false.
Proof. unfold float_lt. apply bool_decide_eq_false_2. lra. Qed.

Lemma float_lt_trans k1 k2 k3 :
  float_lt k1 k2 = true -> float_lt k2 k3 = true -> float_lt k1 k3 = true.
Proof.
  unfold float_lt. intros H1 H2.
  apply bool_decide_eq_true_1 in H1, H2. apply bool_decide_eq_true_2. lra.
Qed.

Lemma lex_lt_spec k1 k2 :
  lex_lt k1 k2 = true <-> (k1.1 < k2.1)%Z \/ (k1.1 = k2.1 /\ k1.2 < k2.2).
Proof.
  unfold lex_lt. rewrite orb_true_iff, andb_true_iff, Z.ltb_lt, Z.eqb_eq,
    bool_decide_eq_true. reflexivity.
Qed.

Lemma lex_lt_irrefl k : lex_lt k k = false.
Proof.
  destruct (lex_lt k k) eqn:H; [|reflexivity].
  apply lex_lt_spec in H as [H|[_ H]]; [lia|lra].
Qed.

Lemma lex_lt_trans k1 k2 k3 :
  lex_lt k1 k2 = true -> lex_lt k2 k3 = true -> lex_lt k1 k3 = true.
Proof.
  rewrite !lex_lt_spec. intros [H1|[H1 H1']] [H2|[H2 H2']].
  - left. lia.
  - left. lia.
  - left. lia.
  - right. split; [lia|lra].
Qed.

(** X1.  An agent that is LEAVING is sent to the nearest of its exit
    points; with no exit point the selection raises. *)
Theorem leaving_heads_for_nearest_exit zs a g :
  state a = LEAVING ->
  (exit_points a = [] -> choose_next_target zs a g = None)
  /\ (exit_points a <> [] ->
      exists p, choose_next_target zs a g
                = Some (zs, set_destination (Some p) a, g)
        /\ p ∈ exit_points a
        /\ forall q, q ∈ exit_points a -> distance_to a p <= distance_to a q).
Proof.
  intros Hst. unfold choose_next_target.
  destruct (decide (state a = LEAVING)); [|contradiction]. split.
  - intros ->. reflexivity.
  - intros Hne. destruct (min_by float_lt (distance_to a) (exit_points a))
      as [p|] eqn:Hmin.
    + exists p. split; [reflexivity|].
      destruct (min_by_minimal _ _ _ _ float_lt_irrefl float_lt_trans Hmin)
        as [Hin Hle].
      split; [exact Hin|]. intros q Hq. specialize (Hle q Hq).
      unfold float_lt in Hle. apply bool_decide_eq_false_1 in Hle. lra.
    + destruct (exit_points a); [contradiction|discriminate].
Qed.

Lemma leaving_heads_for_nearest_exit_witness :
  exists p, choose_next_target [checkout_with 1] paid_agent zero_rng
            = Some ([checkout_with 1], set_destination (Some p) paid_agent, zero_rng)
    /\ p ∈ exit_points paid_agent.
Proof.
  destruct (leaving_heads_for_nearest_exit [checkout_with 1] paid_agent zero_rng)
    as [_ H]; [reflexivity|].
  destruct H as (p & H1 & H2 & _); [simpl; discriminate|].
  exists p. split; assumption.
Defined.

(** X2.  The checkout an agent joins minimises (queue length, distance)
    lexicographically among the checkouts with free capacity; the agent
    gets the incremented counter as its slot and the matching queue
    position as destination. *)
Theorem joined_checkout_is_best zs a g zs' a' g' :
  state a <> LEAVING ->
  choose_next_target zs a g = Some (zs', a', g') ->
  state a' = IN_QUEUE ->
  exists cash,
    cash ∈ cash_zones a
    /\ can_join_queue (zone_at zs cash) = true
    /\ current_cash_zone a' = Some cash
    /\ queue_position a' = Some (queue_length (zone_at zs cash) + 1)%Z
    /\ zs' = <[cash := set_queue_length (queue_length (zone_at zs cash) + 1)
                         (zone_at zs cash)]> zs
    /\ destination a'
       = get_queue_position (zone_at zs cash)
           (queue_length (zone_at zs cash) + 1) (dimensions a) (scale a)
    /\ forall cz, cz ∈ cash_zones a -> can_join_queue (zone_at zs cz) = true ->
         (queue_length (zone_at zs cash) < queue_length (zone_at zs cz))%Z
         \/ (queue_length (zone_at zs cash) = queue_length (zone_at zs cz)
             /\ distance_to a (center (zone_at zs cash))
                <= distance_to a (center (zone_at zs cz))).
Proof.
  intros Hst. unfold choose_next_target.
  destruct (decide (state a = LEAVING)); [contradiction|].
  unfold checkout_block.
  destruct (bool_decide (unvisited_zones a = []) && _) eqn:Hcond.
  2:{ destruct (unvisited_zones a) eqn:Hun.
      - intros [= <- <- <-]. simpl. discriminate.
      - rewrite <- Hun. destruct (weighted_choice _ _ _ _) as [[z g1]|]; [|congruence].
        destruct (list_remove _ _); simpl; [|congruence].
        intros [= <- <- <-]. simpl. discriminate. }
  destruct (min_by _ _ _) as [cash|] eqn:Hmin.
  2:{ apply andb_true_iff in Hcond as [Hun _].
      apply bool_decide_eq_true_1 in Hun. rewrite Hun.
      intros [= <- <- <-]. simpl. discriminate. }
  destruct (min_by_minimal _ _ _ _ lex_lt_irrefl lex_lt_trans Hmin) as [Hin Hle].
  apply list_elem_of_filter in Hin as [Hcan Hin].
  unfold join_queue. rewrite Hcan.
  destruct (0 <? _)%Z.
  - unfold get_queue_position at 1. simpl.
    destruct (py_div _ _) as [spacing|] eqn:Hdiv; simpl; [|congruence].
    intros [= <- <- <-] _. exists cash. simpl.
    split; [exact Hin|]. split; [exact Hcan|]. split; [reflexivity|].
    split; [reflexivity|]. split; [reflexivity|].
    split; [unfold get_queue_position; simpl; rewrite Hdiv; reflexivity|].
    intros cz Hcz Hczcan.
    assert (Hf : cz ∈ filter (fun cz => can_join_queue (zone_at zs cz) = true)
                      (cash_zones a)) by (apply list_elem_of_filter; auto).
    specialize (Hle cz Hf).
    destruct (Z.lt_trichotomy (queue_length (zone_at zs cash))
                (queue_length (zone_at zs cz))) as [Hlt|[Heq|Hgt]].
    + left. exact Hlt.
    + right. split; [exact Heq|].
      apply Rnot_lt_le. intros Hd.
      assert (lex_lt (queue_length (zone_at zs cz), distance_to a (center (zone_at zs cz)))
                (queue_length (zone_at zs cash), distance_to a (center (zone_at zs cash)))
              = true) by (apply lex_lt_spec; right; simpl; split; [lia|lra]).
      congruence.
    + assert (lex_lt (queue_length (zone_at zs cz), distance_to a (center (zone_at zs cz)))
                (queue_length (zone_at zs cash), distance_to a (center (zone_at zs cash)))
              = true) by (apply lex_lt_spec; left; simpl; lia).
      congruence.
  - simpl. apply andb_true_iff in Hcond as [Hun _].
    apply bool_decide_eq_true_1 in Hun. rewrite Hun.
    intros [= <- <- <-]. simpl. discriminate.
Qed.

Lemma last_shopper_joins :
  choose_next_target half_full_zones last_shopper zero_rng
  = Some ([checkout_with 2; StoreZone_init "shelf" (mkRect 490 (-10) 20 20) 1 None],
          set_state IN_QUEUE
            (set_destination (Some (mkPoint (110 - 1200 * 2) 110))
               (set_queue_position (Some 2%Z)
                  (set_current_cash_zone (Some 0%nat) last_shopper))),
          zero_rng).
Proof. run. repeat (settle_real; run). reals_agree. Qed.

Lemma joined_checkout_is_best_witness :
  exists cash,
    cash ∈ cash_zones last_shopper
    /\ can_join_queue (zone_at half_full_zones cash) = true
    /\ current_cash_zone
         (set_state IN_QUEUE
            (set_destination (Some (mkPoint (110 - 1200 * 2) 110))
               (set_queue_position (Some 2%Z)
                  (set_current_cash_zone (Some 0%nat) last_shopper))))
       = Some cash.
Proof.
  assert (Hst : state last_shopper <> LEAVING) by (simpl; discriminate).
  destruct (joined_checkout_is_best half_full_zones last_shopper zero_rng _ _ _
              Hst last_shopper_joins eq_refl)
    as (cash & H1 & H2 & H3 & _).
  exists cash. auto.
Defined.

(** ** The weighted choice *)

Lemma fold_left_Rplus_acc (l : list R) acc :
  fold_left Rplus l acc = acc + foldr Rplus 0 l.
Proof.
  revert acc. induction l as [|x l IH]; intros acc; simpl; [lra|].
  rewrite IH. lra.
Qed.

Lemma zone_weights_length zs a zones : forall g,
  length (zone_weights zs a zones g).1 = length zones.
Proof.
  induction zones as [|z zones IH]; intros g; simpl; [reflexivity|].
  destruct (zone_weight zs a z g) as [w g1]. specialize (IH g1).
  destruct (zone_weights zs a zones g1) as [ws g2]. simpl in *. lia.
Qed.

Lemma zone_weight_nonneg zs a z g : 0 <= (zone_weight zs a z g).1.
Proof.
  unfold zone_weight.
  destruct (behavior a); simpl;
    repeat match goal with
           | |- context [random_random ?g] => destruct (random_random g)
           end; simpl; apply Rmax_r.
Qed.

Lemma zone_weights_nonneg zs a zones : forall g,
  Forall (fun w => 0 <= w) (zone_weights zs a zones g).1.
Proof.
  induction zones as [|z zones IH]; intros g; simpl; [constructor|].
  pose proof (zone_weight_nonneg zs a z g) as Hw.
  destruct (zone_weight zs a z g) as [w g1]. specialize (IH g1).
  destruct (zone_weights zs a zones g1) as [ws g2]. simpl in *.
  constructor; assumption.
Qed.

(** The roulette loop returns the first zone at which the running sum
    of the weights reaches [r]. *)
Lemma roulette_first_reach zones weights : forall r z,
  length weights = length zones ->
  roulette (zip zones weights) r = Some z ->
  exists i, zones !! i = Some z
    /\ r <= prefix_sum weights (S i)
    /\ forall j, (j < i)%nat -> prefix_sum weights (S j) < r.
Proof.
  unfold prefix_sum. revert weights.
  induction zones as [|z0 zones IH]; intros [|w weights] r z Hlen; simpl;
    try discriminate.
  injection Hlen as Hlen. destruct (decide (r - w <= 0)) as [Hr|Hr].
  - intros [= ->]. exists 0%nat. split; [reflexivity|]. simpl.
    split; [lra|]. intros j Hj. lia.
  - intros H. destruct (IH weights (r - w) z Hlen H) as (i & Hi & Hle & Hlt).
    exists (S i). split; [exact Hi|]. split.
    + simpl in *. lra.
    + intros [|j] Hj.
      * simpl. lra.
      * assert (Hj' : (j < i)%nat) by lia.
        specialize (Hlt j Hj'). simpl in *. lra.
Qed.

Lemma roulette_reaches zones weights : forall r,
  length weights = length zones -> zones <> [] ->
  r <= foldr Rplus 0 weights ->
  exists z, roulette (zip zones weights) r = Some z.
Proof.
  revert weights. induction zones as [|z0 zones IH]; intros [|w weights] r Hlen Hne Hr;
    simpl in *; try discriminate; [contradiction|].
  injection Hlen as Hlen. destruct (decide (r - w <= 0)); [eauto|].
  destruct zones as [|z1 zones].
  - destruct weights; [|discriminate]. simpl in Hr. lra.
  - apply IH; [exact Hlen|discriminate|lra].
Qed.

(** X3.  [_weighted_choice] on an empty list raises; on a non-empty list
    it returns one of the candidates.  When the weights have a positive
    sum and the draw lies in [0, 1], the choice is the roulette's: the
    first candidate at which the running sum of the weights reaches the
    drawn fraction of the total (the fall-through to the last candidate
    is not taken). *)
Theorem weighted_choice_is_roulette zs a zones g :
  match zones with
  | [] => weighted_choice zs a zones g = None
  | _ :: _ =>
      exists z g', weighted_choice zs a zones g = Some (z, g') /\ z ∈ zones
        /\ let weights := (zone_weights zs a zones g).1 in
           let g1 := (zone_weights zs a zones g).2 in
           let total := foldr Rplus 0 weights in
           let u := unit_draw (stream g1 (cursor g1)) in
           0 < total -> 0 <= u <= 1 ->
           exists i, zones !! i = Some z
             /\ total * u <= prefix_sum weights (S i)
             /\ forall j, (j < i)%nat -> prefix_sum weights (S j) < total * u
  end.
Proof.
  destruct zones as [|z0 rest] eqn:Hz.
  - unfold weighted_choice. simpl.
    destruct (decide (0 <= 0)); [reflexivity|lra].
  - rewrite <- Hz. assert (Hne : zones <> []) by (rewrite Hz; discriminate).
    destruct (weighted_choice_total zs a zones g Hne) as (z & g' & Hw).
    exists z, g'. split; [exact Hw|].
    split; [eapply weighted_choice_Some_in; eauto|].
    intros weights g1 total u Htot Hu. revert Hw. unfold weighted_choice.
    pose proof (zone_weights_length zs a zones g) as Hlen.
    subst weights g1 total u.
    destruct (zone_weights zs a zones g) as [weights g1]. simpl in *.
    rewrite fold_left_Rplus_acc, Rplus_0_l.
    destruct (decide (foldr Rplus 0 weights <= 0)); [lra|].
    unfold random_uniform, random_random, rng_next.
    set (r := 0 + (foldr Rplus 0 weights - 0) * unit_draw (stream g1 (cursor g1))).
    assert (Hr : r = foldr Rplus 0 weights * unit_draw (stream g1 (cursor g1)))
      by (unfold r; ring).
    destruct (roulette_reaches zones weights r Hlen Hne) as [z' Hz'].
    { rewrite Hr. nra. }
    rewrite Hz'. intros [= <- _]. rewrite <- Hr.
    eapply roulette_first_reach; eauto.
Qed.

(** X4.  The utility of a zone does not decrease with its attractiveness,
    for non-negative reward and cost sensitivities. *)
Theorem utility_monotone a z1 z2 :
  0 <= reward_sensitivity a -> 0 <= cost_sensitivity a ->
  attractiveness z1 <= attractiveness z2 ->
  utility a z1 <= utility a z2.
Proof.
  intros Hr Hc Hatt. unfold utility.
  assert (H1 : 0.1 <= Rmax (attractiveness z1) 0.1) by apply Rmax_r.
  assert (H12 : Rmax (attractiveness z1) 0.1 <= Rmax (attractiveness z2) 0.1).
  { apply Rle_max_compat_r. exact Hatt. }
  assert (Hinv : / Rmax (attractiveness z2) 0.1 <= / Rmax (attractiveness z1) 0.1).
  { apply Rinv_le_contravar; lra. }
  assert (Hm : reward_sensitivity a * attractiveness z1
               <= reward_sensitivity a * attractiveness z2)
    by (apply Rmult_le_compat_l; assumption).
  assert (Hd : cost_sensitivity a * / Rmax (attractiveness z2) 0.1
               <= cost_sensitivity a * / Rmax (attractiveness z1) 0.1)
    by (apply Rmult_le_compat_l; assumption).
  unfold Rdiv. lra.
Qed.

Lemma utility_monotone_witness :
  utility agent6 (zone_at zones6 0) <= utility agent6 (zone_at zones6 1).
Proof.
  apply utility_monotone; simpl; lra.
Defined.

(** ** Collision rectangle, repulsion and heading *)

Lemma corners_symmetric c a1 a2 a3 a4 :
  a1 + a3 = 2 * c -> a2 + a4 = 2 * c ->
  min_list a1 [a2; a3; a4] + max_list a1 [a2; a3; a4] = 2 * c
  /\ min_list a1 [a2; a3; a4] <= max_list a1 [a2; a3; a4].
Proof.
  intros H13 H24. unfold min_list, max_list. simpl. unfold Rmin, Rmax.
  repeat match goal with
         | |- context [Rle_dec ?x ?y] =>
             lazymatch x with
             | context [Rle_dec] => fail
             | _ => destruct (Rle_dec x y)
             end
         end; lra.
Qed.

Lemma collision_rect_shape a :
  match get_collision_rect a with
  | None => scale a = 0
  | Some r =>
      scale a <> 0 /\ rect_center r = position a
      /\ 0 <= rect_w r /\ 0 <= rect_h r
  end.
Proof.
  unfold get_collision_rect, py_div.
  destruct (decide (scale a = 0)) as [Hs|Hs]; simpl; [exact Hs|].
  set (w := dim_width (dimensions a) / scale a).
  set (l := dim_length (dimensions a) / scale a).
  set (cs := cos (atan2 (pt_y (heading a)) (pt_x (heading a)))).
  set (sn := sin (atan2 (pt_y (heading a)) (pt_x (heading a)))).
  destruct (position a) as [cx cy]. simpl.
  clearbody w l cs sn.
  destruct (corners_symmetric cx
              (cx + w / 2 * cs - l / 2 * sn) (cx - w / 2 * cs - l / 2 * sn)
              (cx - w / 2 * cs + l / 2 * sn) (cx + w / 2 * cs + l / 2 * sn))
    as [Hx1 Hx2]; [lra|lra|].
  destruct (corners_symmetric cy
              (cy + w / 2 * sn + l / 2 * cs) (cy - w / 2 * sn + l / 2 * cs)
              (cy - w / 2 * sn - l / 2 * cs) (cy + w / 2 * sn - l / 2 * cs))
    as [Hy1 Hy2]; [lra|lra|].
  unfold min_list, max_list in *. simpl in *.
  split; [exact Hs|]. split; [|split; lra].
  unfold rect_center. simpl. f_equal; lra.
Qed.

(** X5.  The collision rectangle exists unless the scale is zero; it is
    centred on the position of the agent, whatever the heading, and its
    extents are not negative. *)
Theorem collision_rect_centred a :
  match get_collision_rect a with
  | None => scale a = 0
  | Some r =>
      scale a <> 0 /\ rect_center r = position a
      /\ 0 <= rect_w r /\ 0 <= rect_h r
  end.
Proof. exact (collision_rect_shape a). Qed.

Lemma avoid_one_skips ags self a my_rect v j :
  repels ags self j = false -> avoid_one ags self a my_rect v j = Some v.
Proof.
  unfold repels, avoid_one. destruct (ags !! j) as [other|]; [|reflexivity].
  destruct (bool_decide (j = self) || finished other); [reflexivity|discriminate].
Qed.

Lemma fold_avoid_filter ags self a my_rect others : forall v,
  fold_option (avoid_one ags self a my_rect) others v
  = fold_option (avoid_one ags self a my_rect)
      (filter (fun j => repels ags self j = true) others) v.
Proof.
  induction others as [|j others IH]; intros v; [reflexivity|].
  rewrite filter_cons. destruct (decide (repels ags self j = true)) as [Hj|Hj].
  - simpl. destruct (avoid_one ags self a my_rect v j); simpl; [apply IH|reflexivity].
  - simpl. rewrite avoid_one_skips by (destruct (repels ags self j); congruence).
    simpl. apply IH.
Qed.

(** X6.  The agent itself, finished agents and dangling references do not
    enter the repulsion: removing them from [others] changes nothing.
    With nobody left the result is the zero vector, unless the scale of
    the agent is zero, in which case the call raises all the same. *)
Theorem avoid_collisions_ignores_self_and_finished ags self a others :
  avoid_collisions ags self a others
  = avoid_collisions ags self a
      (filter (fun j => repels ags self j = true) others)
  /\ match filter (fun j => repels ags self j = true) others with
     | [] => avoid_collisions ags self a others
             = if decide (scale a = 0) then None else Some (mkPoint 0 0)
     | _ :: _ => True
     end.
Proof.
  assert (H : avoid_collisions ags self a others
              = avoid_collisions ags self a
                  (filter (fun j => repels ags self j = true) others)).
  { unfold avoid_collisions. destruct (get_collision_rect a) as [r|]; simpl;
      [apply fold_avoid_filter|reflexivity]. }
  split; [exact H|].
  destruct (filter _ others) eqn:Hf; [|exact I].
  rewrite H. unfold avoid_collisions.
  pose proof (collision_rect_shape a) as Hr.
  destruct (get_collision_rect a) as [r|]; simpl.
  - destruct Hr as [Hs _]. destruct (decide (scale a = 0)); [contradiction|reflexivity].
  - destruct (decide (scale a = 0)); [reflexivity|contradiction].
Qed.

Lemma unit_after_normalising x y :
  0 < sqrt (x * x + y * y) ->
  x / sqrt (x * x + y * y) * (x / sqrt (x * x + y * y))
  + y / sqrt (x * x + y * y) * (y / sqrt (x * x + y * y)) = 1.
Proof.
  intros Hl. set (l := sqrt (x * x + y * y)) in *.
  assert (Hll : l * l = x * x + y * y).
  { unfold l. apply sqrt_sqrt. nra. }
  replace (x / l * (x / l) + y / l * (y / l)) with ((x * x + y * y) / (l * l))
    by (field; lra).
  rewrite Hll. field. nra.
Qed.

Lemma sqrt_zero_components x y :
  ~ 0 < sqrt (x * x + y * y) -> x = 0 /\ y = 0.
Proof.
  intros H. assert (H0 : sqrt (x * x + y * y) = 0).
  { apply Rle_antisym; [apply Rnot_lt_le; exact H|apply sqrt_pos]. }
  apply sqrt_eq_0 in H0; [|nra]. split; nra.
Qed.

Lemma turned_nonzero hx hy dx dy :
  hx * hx + hy * hy = 1 -> dx * dx + dy * dy <= 1 ->
  0 < (hx + (dx - hx) * 0.2) * (hx + (dx - hx) * 0.2)
      + (hy + (dy - hy) * 0.2) * (hy + (dy - hy) * 0.2).
Proof.
  intros Hh Hd.
  assert (Hs : 0 <= (hx + dx) * (hx + dx) + (hy + dy) * (hy + dy)).
  { apply Rplus_le_le_0_compat; apply Rle_0_sqr. }
  replace ((hx + dx) * (hx + dx) + (hy + dy) * (hy + dy))
    with ((hx * hx + hy * hy) + 2 * (hx * dx + hy * dy) + (dx * dx + dy * dy))
    in Hs by ring.
  replace 0.2 with (1 / 5) by lra.
  replace ((hx + (dx - hx) * (1 / 5)) * (hx + (dx - hx) * (1 / 5))
           + (hy + (dy - hy) * (1 / 5)) * (hy + (dy - hy) * (1 / 5)))
    with (16 / 25 * (hx * hx + hy * hy) + 8 / 25 * (hx * dx + hy * dy)
          + 1 / 25 * (dx * dx + dy * dy)) by field.
  set (A := hx * hx + hy * hy) in *. set (B := hx * dx + hy * dy) in *.
  set (C := dx * dx + dy * dy) in *. clearbody A B C. lra.
Qed.

Lemma update_heading_unit a target avoid :
  heading_ok a -> heading_ok (update_heading a target avoid).
Proof.
  intros [Hh Hd]. unfold update_heading.
  destruct (truthy (destination a)); [|split; assumption].
  set (dx := pt_x target - pt_x (position a)).
  set (dy := pt_y target - pt_y (position a)).
  set (desired1 := if decide (0 < sqrt (dx * dx + dy * dy))
                   then mkPoint (dx / sqrt (dx * dx + dy * dy))
                                (dy / sqrt (dx * dx + dy * dy))
                   else desired_heading a).
  assert (H1 : pt_x desired1 * pt_x desired1 + pt_y desired1 * pt_y desired1 <= 1).
  { unfold desired1. destruct (decide (0 < sqrt (dx * dx + dy * dy))) as [Hl|Hl].
    - simpl. rewrite unit_after_normalising by exact Hl. lra.
    - exact Hd. }
  clearbody desired1.
  match goal with
  | |- heading_ok (set_heading _ (set_desired_heading ?d _)) => set (desired2 := d)
  end.
  assert (H2 : pt_x desired2 * pt_x desired2 + pt_y desired2 * pt_y desired2 <= 1).
  { unfold desired2. destruct (_ || _); [|exact H1].
    match goal with
    | |- context [padd desired1 ?n] => set (summed := padd desired1 n)
    end.
    destruct (decide (0 < sqrt (pt_x summed * pt_x summed + pt_y summed * pt_y summed)))
      as [Hl|Hl].
    - simpl. rewrite unit_after_normalising by exact Hl. lra.
    - apply sqrt_zero_components in Hl as [-> ->]. lra. }
  clearbody desired2.
  set (tx := pt_x (heading a) + (pt_x desired2 - pt_x (heading a)) * 0.2).
  set (ty := pt_y (heading a) + (pt_y desired2 - pt_y (heading a)) * 0.2).
  assert (Ht : 0 < tx * tx + ty * ty).
  { unfold tx, ty. apply turned_nonzero; assumption. }
  unfold heading_ok. simpl. fold tx ty.
  destruct (decide (0 < sqrt (tx * tx + ty * ty))) as [Hl|Hl].
  - simpl. split; [apply unit_after_normalising; exact Hl|exact H2].
  - exfalso. apply Hl. apply sqrt_lt_R0. exact Ht.
Qed.

(** X7.  [_update_heading] does nothing without a (non-null) destination,
    and otherwise keeps a unit heading a unit vector: the smoothing
    towards a desired heading of length at most one cannot cancel it. *)
Theorem update_heading_keeps_unit a target avoid :
  heading_ok a ->
  heading_ok (update_heading a target avoid)
  /\ (truthy (destination a) = false -> update_heading a target avoid = a).
Proof.
  intros H. split; [apply update_heading_unit; exact H|].
  unfold update_heading. intros ->. reflexivity.
Qed.

Lemma update_heading_keeps_unit_witness :
  heading_ok (update_heading walker (mkPoint 500 0) (mkPoint 0 0)).
Proof.
  apply update_heading_keeps_unit. split; simpl; lra.
Defined.

(** ** The state machine of the movement step *)

Lemma choose_next_target_state zs a g zs' a' g' :
  choose_next_target zs a g = Some (zs', a', g') ->
  profile a' = profile a
  /\ heading a' = heading a /\ desired_heading a' = desired_heading a
  /\ ((state a = LEAVING /\ state a' = LEAVING)
      \/ (state a <> LEAVING
          /\ ((state a' = IN_QUEUE /\ cash_zones a <> [] /\ unvisited_zones a = [])
              \/ state a' = WALKING \/ state a' = FINISHED))).
Proof.
  unfold choose_next_target. destruct (decide (state a = LEAVING)) as [Hl|Hl].
  { destruct (min_by _ _ _); simpl; [|congruence]. intros [= <- <- <-].
    repeat split; auto. }
  unfold checkout_block.
  destruct (bool_decide (unvisited_zones a = []) && _) eqn:Hcond.
  - apply andb_true_iff in Hcond as [Hun Hc].
    apply bool_decide_eq_true_1 in Hun. apply negb_true_iff in Hc.
    apply bool_decide_eq_false_1 in Hc.
    destruct (min_by _ _ _) as [cash|].
    + destruct (join_queue _) as [zone' pos]. destruct (0 <? pos)%Z.
      * destruct (get_queue_position _ _ _ _); simpl; [|congruence].
        intros [= <- <- <-]. repeat split; auto. right. split; [exact Hl|]. left.
        simpl. auto.
      * simpl. rewrite Hun. intros [= <- <- <-]. repeat split; auto.
    + rewrite Hun. intros [= <- <- <-]. repeat split; auto.
  - destruct (unvisited_zones a) eqn:Hun.
    + intros [= <- <- <-]. repeat split; auto.
    + rewrite <- Hun. destruct (weighted_choice _ _ _ _) as [[z g1]|]; [|congruence].
      destruct (list_remove _ _); simpl; [|congruence].
      intros [= <- <- <-]. destruct (_first_move a); repeat split; auto.
Qed.

Lemma update_heading_profile a target avoid :
  profile (update_heading a target avoid) = profile a.
Proof. unfold update_heading. destruct (truthy _); reflexivity. Qed.

Ltac keeps_state Hst :=
  intros [= <- <- <-]; split; [reflexivity|]; simpl; rewrite ?Hst; reflexivity.

Lemma move_towards_target_transition zs ags self a others delta_time g zs' a' g' :
  move_towards_target zs ags self a others delta_time g = Some (zs', a', g') ->
  profile a' = profile a /\ transition (state a) (state a') = true.
Proof.
  unfold move_towards_target. destruct (state a) eqn:Hst.
  - destruct (destination a) as [dest|]; [|keeps_state Hst].
    destruct (point_truthy dest); [|keeps_state Hst].
    destruct (decide (_ <= _)).
    + simpl. rewrite Hst. destruct (cash_zones a) eqn:Hcash; [|keeps_state Hst].
      destruct (point_in _ _); [keeps_state Hst|].
      intros H. apply choose_next_target_state in H as (Hp & _ & _ & Hs).
      split; [exact Hp|]. simpl in Hs. rewrite Hst, Hcash in Hs.
      destruct Hs as [[H _]|[_ [(_ & H & _)|[H|H]]]]; try congruence;
        rewrite H; reflexivity.
    + destruct (avoid_collisions _ _ _ _) as [avoid|]; simpl; [|congruence].
      intros [= <- <- <-]. split.
      { change (profile (update_heading a dest avoid) = profile a).
        apply update_heading_profile. }
      simpl. destruct (update_heading_keeps a dest avoid) as (_ & -> & _).
      rewrite Hst. reflexivity.
  - destruct (decide (_ <= _)); [|keeps_state Hst].
    destruct (random_random g) as [u g1].
    destruct (py_div _ _) as [p|]; simpl; [|congruence].
    destruct (decide (u < p)); [|keeps_state Hst].
    intros H. apply choose_next_target_state in H as (Hp & _ & _ & Hs).
    split; [exact Hp|]. simpl in Hs. rewrite Hst in Hs.
    destruct Hs as [[H _]|[_ [(H & _)|[H|H]]]]; try congruence;
      rewrite H; reflexivity.
  - destruct (current_cash_zone a) as [cz|]; [|keeps_state Hst].
    destruct (sort_queue _) as [queue|]; simpl; [|congruence].
    destruct (bool_decide _); [keeps_state Hst|].
    destruct (queue_position a) as [pos|]; [|keeps_state Hst].
    destruct (bool_decide (pos = 0%Z)); [keeps_state Hst|].
    destruct (get_queue_position _ _ _ _) as [target|]; simpl; [|congruence].
    destruct (decide (_ < _)); [|keeps_state Hst].
    destruct (avoid_collisions _ _ _ _) as [avoid|]; simpl; [|congruence].
    intros [= <- <- <-]. split.
    { change (profile (update_heading a target avoid) = profile a).
      apply update_heading_profile. }
    simpl. destruct (update_heading_keeps a target avoid) as (_ & -> & _).
    rewrite Hst. reflexivity.
  - destruct (decide (_ <= _)); [|keeps_state Hst].
    simpl. destruct (current_cash_zone a); intros H;
      apply choose_next_target_state in H as (Hp & _ & _ & Hs);
      (split; [exact Hp|]); simpl in Hs;
      destruct Hs as [[_ H]|[H _]]; try congruence; rewrite H; reflexivity.
  - destruct (destination a) as [dest|]; [|keeps_state Hst].
    destruct (point_truthy dest); [|keeps_state Hst].
    destruct (decide (_ <= _)).
    + simpl. rewrite Hst. destruct (point_in _ _); keeps_state Hst.
    + destruct (avoid_collisions _ _ _ _) as [avoid|]; simpl; [|congruence].
      intros [= <- <- <-]. split.
      { change (profile (update_heading a dest avoid) = profile a).
        apply update_heading_profile. }
      simpl. destruct (update_heading_keeps a dest avoid) as (_ & -> & _).
      rewrite Hst. reflexivity.
  - keeps_state Hst.
Qed.

(** X8.  One call of [move_towards_target] changes the state only along
    WALKING -> SHOPPING | FINISHED, SHOPPING -> WALKING | IN_QUEUE |
    FINISHED, IN_QUEUE -> PAYING, PAYING -> LEAVING, LEAVING ->
    FINISHED; FINISHED is final; and it leaves alone every attribute
    the constructor fixes (identity, size, scale, speeds, strategy,
    budget, exits, dwell bounds, service time, sensitivities). *)
Theorem movement_follows_state_machine zs ags self a others delta_time g zs' a' g' :
  move_towards_target zs ags self a others delta_time g = Some (zs', a', g') ->
  transition (state a) (state a') = true /\ profile a' = profile a.
Proof.
  intros H. apply move_towards_target_transition in H as [H1 H2]. auto.
Qed.

Lemma first_payment_call :
  move_towards_target [checkout_with 2] (w_agents world_first_paying) 0
    (set_state PAYING (queued_agent 0 1)) [0; 1]%nat 200 zero_rng
  = Some ([checkout_with 1], paid_agent, zero_rng).
Proof.
  pose proof first_completes_payment as Hs. unfold step_agent in Hs.
  simpl in Hs.
  destruct (move_towards_target _ _ _ _ _ _ _) as [[[zs a'] g']|] eqn:Hm;
    [|discriminate].
  unfold world_first_paid in Hs. simpl in Hs. injection Hs as -> -> ->.
  reflexivity.
Qed.

Lemma movement_follows_state_machine_witness :
  transition PAYING (state paid_agent) = true
  /\ profile paid_agent = profile (set_state PAYING (queued_agent 0 1)).
Proof.
  exact (movement_follows_state_machine _ _ _ _ _ _ _ _ _ _ first_payment_call).
Defined.

(** ** The slot of the agent that moves *)

Lemma update_heading_slot a target avoid :
  current_cash_zone (update_heading a target avoid) = current_cash_zone a
  /\ queue_position (update_heading a target avoid) = queue_position a
  /\ state (update_heading a target avoid) = state a.
Proof. unfold update_heading. destruct (truthy _); auto. Qed.

Ltac idle_slot :=
  intros [= <- <- <-]; apply slot_idle; try reflexivity;
  unfold queued in *; simpl; intuition congruence.

Lemma choose_next_target_slot zs a g zs' a' g' :
  choose_next_target zs a g = Some (zs', a', g') ->
  current_cash_zone a = None -> ~ queued a ->
  (forall z, z ∈ cash_zones a -> (0 <= queue_length (zone_at zs z))%Z) ->
  slot_step zs a zs' a'.
Proof.
  intros H Hnone Hnq Hpos. revert H.
  unfold choose_next_target. destruct (decide (state a = LEAVING)) as [Hl|Hl].
  { destruct (min_by _ _ _); simpl; [|congruence]. idle_slot. }
  unfold checkout_block.
  destruct (bool_decide (unvisited_zones a = []) && _) eqn:Hcond.
  - apply andb_true_iff in Hcond as [Hun Hc].
    apply bool_decide_eq_true_1 in Hun.
    destruct (min_by _ _ _) as [cash|] eqn:Hmin.
    + apply min_by_in in Hmin. apply list_elem_of_filter in Hmin as [Hcan Hin].
      unfold join_queue. rewrite Hcan.
      pose proof (Hpos cash Hin) as H0.
      destruct (0 <? _)%Z eqn:Hp; [|apply Z.ltb_ge in Hp; lia].
      destruct (get_queue_position _ _ _ _); simpl; [|congruence].
      intros [= <- <- <-]. eapply slot_joined; eauto.
    + rewrite Hun. idle_slot.
  - destruct (unvisited_zones a) eqn:Hun.
    + idle_slot.
    + rewrite <- Hun.
      destruct (weighted_choice _ _ _ _) as [[z g1]|]; [|congruence].
      destruct (list_remove _ _); simpl; [|congruence].
      destruct (_first_move a); idle_slot.
Qed.

Lemma slot_step_before zs a0 a zs' a' :
  slot_step zs a0 zs' a' ->
  current_cash_zone a0 = current_cash_zone a ->
  queue_position a0 = queue_position a ->
  cash_zones a0 = cash_zones a ->
  (queued a0 <-> queued a) ->
  slot_step zs a zs' a'.
Proof.
  intros [H1 H2 H3 H4|cz H1 H2 H3 H4|cash H1 H2 H3 H4 H5 H6 H7] Hc Hp Hz Hq.
  - apply slot_idle; try congruence. tauto.
  - eapply slot_released; eauto; congruence.
  - eapply slot_joined; eauto; congruence.
Qed.

Ltac slot_via_choice H Hheld Hpos Hst :=
  apply choose_next_target_slot in H;
  [eapply slot_step_before; [exact H|try reflexivity..];
   unfold queued in *; simpl; rewrite ?Hst; intuition congruence
  |simpl; destruct (current_cash_zone _) as [z0|] eqn:Hz0; [|reflexivity];
   match type of Hheld with
   | queued ?x <-> _ =>
       assert (Hq0 : queued x) by (apply Hheld; congruence);
       destruct Hq0; congruence
   end
  |unfold queued in *; simpl; rewrite ?Hst; intuition congruence
  |exact Hpos].

(** The effect of one movement step on the slot of the agent that makes
    it, for an agent that holds a zone only while it is queued, over a
    store whose counters are not negative. *)
Lemma move_towards_target_slot zs ags self a others delta_time g zs' a' g' :
  move_towards_target zs ags self a others delta_time g = Some (zs', a', g') ->
  (queued a <-> current_cash_zone a <> None) ->
  (forall z, z ∈ cash_zones a -> (0 <= queue_length (zone_at zs z))%Z) ->
  slot_step zs a zs' a'.
Proof.
  intros H Hheld Hpos. revert H.
  unfold move_towards_target. destruct (state a) eqn:Hst.
  - destruct (destination a) as [dest|]; [|idle_slot].
    destruct (point_truthy dest); [|idle_slot].
    destruct (decide (_ <= _)).
    + simpl. rewrite Hst. destruct (cash_zones a) eqn:Hcash; [|idle_slot].
      destruct (point_in _ _); [idle_slot|].
      intros H. rewrite <- Hcash in Hpos. slot_via_choice H Hheld Hpos Hst.
    + destruct (avoid_collisions _ _ _ _) as [avoid|]; simpl; [|congruence].
      intros [= <- <- <-].
      destruct (update_heading_slot a dest avoid) as (Hc & Hq & Hs).
      apply slot_idle; try assumption; [reflexivity|].
      unfold queued. simpl. rewrite Hs. tauto.
  - destruct (decide (_ <= _)); [|idle_slot].
    destruct (random_random g) as [u g1].
    destruct (py_div _ _) as [p|]; simpl; [|congruence].
    destruct (decide (u < p)); [|idle_slot].
    intros H. slot_via_choice H Hheld Hpos Hst.
  - destruct (current_cash_zone a) as [cz|] eqn:Hcz; [|idle_slot].
    destruct (sort_queue _) as [queue|]; simpl; [|congruence].
    destruct (bool_decide _); [idle_slot|].
    destruct (queue_position a) as [pos|] eqn:Hqp; [|idle_slot].
    destruct (bool_decide (pos = 0%Z)); [idle_slot|].
    destruct (get_queue_position _ _ _ _) as [target|]; simpl; [|congruence].
    destruct (decide (_ < _)); [|idle_slot].
    destruct (avoid_collisions _ _ _ _) as [avoid|]; simpl; [|congruence].
    intros [= <- <- <-].
    destruct (update_heading_slot a target avoid) as (Hc & Hq & Hs).
    apply slot_idle; simpl; try congruence.
    unfold queued. simpl. rewrite Hs. tauto.
  - destruct (decide (_ <= _)); [|idle_slot].
    simpl. destruct (current_cash_zone a) as [cz|] eqn:Hcz.
    + intros H.
      pose proof (choose_next_target_state _ _ _ _ _ _ H) as (_ & _ & _ & Hs).
      apply choose_next_target_leaving in H as (-> & Hc & _); [|reflexivity].
      simpl in Hs. eapply slot_released; eauto.
      unfold queued. intuition congruence.
    + exfalso. apply Hheld; [right; exact Hst|reflexivity].
  - destruct (destination a) as [dest|]; [|idle_slot].
    destruct (point_truthy dest); [|idle_slot].
    destruct (decide (_ <= _)).
    + simpl. rewrite Hst. destruct (point_in _ _); idle_slot.
    + destruct (avoid_collisions _ _ _ _) as [avoid|]; simpl; [|congruence].
      intros [= <- <- <-].
      destruct (update_heading_slot a dest avoid) as (Hc & Hq & Hs).
      apply slot_idle; try assumption; [reflexivity|].
      unfold queued. simpl. rewrite Hs. tauto.
  - idle_slot.
Qed.

(** ** Counters and holders agree in reachable states *)

Lemma slot_step_length zs a zs' a' :
  slot_step zs a zs' a' -> length zs' = length zs.
Proof.
  intros [-> _ _ _|cz _ _ _ ->|cash _ _ _ _ _ _ ->].
  - reflexivity.
  - apply length_alter.
  - apply length_insert.
Qed.

Lemma slot_step_capacity zs a zs' a' z :
  slot_step zs a zs' a' ->
  max_queue_length (zone_at zs' z) = max_queue_length (zone_at zs z).
Proof.
  intros [-> _ _ _|cz _ _ _ ->|cash _ _ _ _ _ _ ->]; [reflexivity| |].
  - unfold zone_at. rewrite list_lookup_alter.
    destruct (decide (cz = z)) as [->|Hne]; [|reflexivity].
    destruct (zs !! z); reflexivity.
  - destruct (decide (cash < length zs)%nat) as [Hlt|Hge].
    + unfold zone_at. destruct (decide (cash = z)) as [->|Hne].
      * rewrite list_lookup_insert_eq by assumption. simpl.
        destruct (zs !! z); reflexivity.
      * rewrite list_lookup_insert_ne by assumption. reflexivity.
    + rewrite list_insert_ge by lia. reflexivity.
Qed.

(** The agent stored at [i] makes a call with the given effect. *)
Lemma slots_exact_update zs ags c i a zs' a' c' :
  slots_exact (mkWorld zs ags c) ->
  ags !! i = Some a ->
  cash_zones a' = cash_zones a ->
  slot_step zs a zs' a' ->
  slots_exact (mkWorld zs' (<[i := a']> ags) c').
Proof.
  intros (Hrefs & Hcons & Hcount) Hi Hcash Heff.
  assert (Ha : a ∈ ags) by (eapply list_elem_of_lookup_2; eauto).
  destruct (Hrefs a Ha) as [Hcz Hcur]. simpl in *.
  pose proof (slot_step_length _ _ _ _ Heff) as Hlen.
  pose proof (Hcons a Ha) as Hsa.
  split; [|split].
  - intros b Hb. simpl in *. rewrite Hlen.
    apply elem_of_insert_inv in Hb as [->|Hb]; [|apply Hrefs; exact Hb].
    split; [rewrite Hcash; exact Hcz|].
    destruct Heff as [_ Hc _ _|cz _ Hc _ _|cash _ Hin _ Hc _ _ _]; intros z Hz.
    + apply Hcur. congruence.
    + congruence.
    + rewrite Hc in Hz. injection Hz as <-. apply Hcz. exact Hin.
  - intros b Hb. simpl in *.
    apply elem_of_insert_inv in Hb as [->|Hb].
    + destruct Heff as [-> Hc Hp Hq|cz _ Hc Hq _|cash Hnone Hin Hcan Hc Hs Hp ->].
      * unfold slot_consistent in *. rewrite Hc.
        destruct (current_cash_zone a); [|tauto].
        destruct Hsa as (Hqa & k & Hk & Hr). split; [tauto|].
        exists k. split; [congruence|exact Hr].
      * unfold slot_consistent. rewrite Hc. exact Hq.
      * unfold slot_consistent. rewrite Hc. split; [left; exact Hs|].
        eexists. split; [exact Hp|].
        specialize (Hcz cash Hin).
        pose proof (zone_at_lookup zs cash Hcz) as Hz0.
        specialize (Hcount cash _ Hz0).
        unfold zone_at at 3. rewrite list_lookup_insert_eq by assumption.
        simpl. unfold can_join_queue in Hcan. apply Z.ltb_lt in Hcan. lia.
    + specialize (Hcons b Hb). unfold slot_consistent in *.
      destruct (current_cash_zone b); [|exact Hcons].
      rewrite (slot_step_capacity _ _ _ _ _ Heff). exact Hcons.
  - intros z zone' Hz. simpl in *.
    pose proof (holders_insert ags i a a' z Hi) as Hh.
    destruct Heff as [-> Hc _ _|cz Hc Hc' _ ->|cash Hnone Hin Hcan Hc _ _ ->].
    + specialize (Hcount z zone' Hz). unfold holds in Hh. rewrite Hc in Hh.
      lia.
    + rewrite list_lookup_alter in Hz.
      unfold holds in Hh. rewrite Hc, Hc' in Hh.
      destruct (decide (cz = z)) as [->|Hne].
      * destruct (zs !! z) as [zone|] eqn:Hzone; simpl in Hz; [|discriminate].
        injection Hz as <-. specialize (Hcount z zone Hzone). simpl.
        destruct (decide (Some z = Some z)); [|congruence].
        destruct (decide (None = Some z)); [congruence|]. lia.
      * specialize (Hcount z zone' Hz).
        destruct (decide (Some cz = Some z)); [congruence|].
        destruct (decide (None = Some z)); [congruence|]. lia.
    + specialize (Hcz cash Hin). pose proof (zone_at_lookup zs cash Hcz) as Hz0.
      specialize (Hcount cash _ Hz0) as Hc0.
      unfold holds in Hh. rewrite Hc, Hnone in Hh.
      destruct (decide (cash = z)) as [->|Hne].
      * rewrite list_lookup_insert_eq in Hz by assumption.
        injection Hz as <-. simpl.
        destruct (decide (Some z = Some z)); [|congruence].
        destruct (decide (None = Some z)); [congruence|]. lia.
      * rewrite list_lookup_insert_ne in Hz by assumption.
        specialize (Hcount z zone' Hz).
        destruct (decide (Some cash = Some z)); [congruence|].
        destruct (decide (None = Some z)); [congruence|]. lia.
Qed.

(** An agent that holds no slot and is not queued is added to the store. *)
Lemma slots_exact_append zs ags c a c' :
  slots_exact (mkWorld zs ags c) ->
  (forall z, z ∈ cash_zones a -> (z < length zs)%nat) ->
  current_cash_zone a = None -> ~ queued a ->
  slots_exact (mkWorld zs (ags ++ [a]) c').
Proof.
  intros (Hrefs & Hcons & Hcount) Hcash Hcur Hnq. split; [|split].
  - intros b Hb. simpl in *. apply elem_of_app in Hb as [Hb|Hb].
    + apply Hrefs. exact Hb.
    + apply list_elem_of_singleton in Hb. subst b. split; [exact Hcash|].
      congruence.
  - intros b Hb. simpl in *. apply elem_of_app in Hb as [Hb|Hb].
    + apply Hcons. exact Hb.
    + apply list_elem_of_singleton in Hb. subst b.
      unfold slot_consistent. rewrite Hcur. exact Hnq.
  - intros z zone Hz. simpl in *. rewrite holders_app.
    specialize (Hcount z zone Hz). unfold holds. rewrite Hcur.
    destruct (decide (None = Some z)); [congruence|]. lia.
Qed.

Lemma zone_at_app zs z zone :
  (z < length zs)%nat -> zone_at (zs ++ [zone]) z = zone_at zs z.
Proof. intros Hz. unfold zone_at. rewrite lookup_app_l by assumption. reflexivity. Qed.

Lemma slots_exact_new_zone w name rect attractiveness category :
  slots_exact w -> slots_exact (new_zone w name rect attractiveness category).
Proof.
  intros (Hrefs & Hcons & Hcount). split; [|split].
  - intros a Ha. simpl in *. rewrite length_app. simpl.
    destruct (Hrefs a Ha) as [H1 H2]. split; intros z Hz.
    + specialize (H1 z Hz). lia.
    + specialize (H2 z Hz). lia.
  - intros a Ha. simpl in *. specialize (Hcons a Ha).
    destruct (Hrefs a Ha) as [_ H2].
    unfold slot_consistent in *.
    destruct (current_cash_zone a) as [z|]; [|exact Hcons].
    rewrite zone_at_app by (apply H2; reflexivity). exact Hcons.
  - intros z zone Hz. simpl in *.
    destruct (decide (z < length (w_zones w))%nat) as [Hlt|Hge].
    + rewrite lookup_app_l in Hz by assumption. apply Hcount. exact Hz.
    + rewrite lookup_app_r in Hz by lia.
      destruct (z - length (w_zones w))%nat; simpl in Hz; [|discriminate].
      injection Hz as <-. simpl. rewrite holders_none; [reflexivity|].
      intros a Ha Hc. destruct (Hrefs a Ha) as [_ H2].
      specialize (H2 z Hc). lia.
Qed.

(** The counters of a consistent store are not negative. *)
Lemma slots_exact_nonneg w a :
  slots_exact w -> (forall z, z ∈ cash_zones a -> (z < length (w_zones w))%nat) ->
  forall z, z ∈ cash_zones a -> (0 <= queue_length (zone_at (w_zones w) z))%Z.
Proof.
  intros (_ & _ & Hcount) Hv z Hz.
  rewrite (Hcount z _ (zone_at_lookup _ _ (Hv z Hz))). lia.
Qed.

Lemma Agent_init_slot zs counter start_pos store_zones cash exits bhv bdg
    scl spd g zs' a' g' :
  Agent_init zs counter start_pos store_zones cash exits bhv bdg scl spd g
  = Some (zs', a', g') ->
  (forall z, z ∈ cash -> (0 <= queue_length (zone_at zs z))%Z) ->
  exists a0, current_cash_zone a0 = None /\ state a0 = WALKING
             /\ cash_zones a0 = cash /\ cash_zones a' = cash
             /\ slot_step zs a0 zs' a'.
Proof.
  intros H Hpos.
  pose proof (Agent_init_effect _ _ _ _ _ _ _ _ _ _ _ _ _ _ H) as (_ & Hc & _).
  revert H.
  unfold Agent_init, random_uniform, random_random, rng_next. simpl.
  intros H. eexists. split; [|split; [|split; [|split; [exact Hc|]]]].
  4: { eapply choose_next_target_slot; [exact H|reflexivity| |exact Hpos].
       unfold queued. simpl. intuition congruence. }
  all: reflexivity.
Qed.

Lemma slots_exact_spawn w start_pos store_zones cash exits behavior budget
    scale speed g w' g' :
  (forall z, z ∈ store_zones ++ cash -> (z < length (w_zones w))%nat) ->
  spawn_agent w start_pos store_zones cash exits behavior budget scale speed g
  = Some (w', g') ->
  slots_exact w -> slots_exact w'.
Proof.
  intros Hvalid. unfold spawn_agent.
  destruct (Agent_init _ _ _ _ _ _ _ _ _ _ _) as [[[zs a] g1]|] eqn:Hi;
    [|congruence].
  intros [= <- <-] Hinv.
  assert (Hc : forall z, z ∈ cash -> (z < length (w_zones w))%nat).
  { intros z Hz. apply Hvalid. apply elem_of_app. auto. }
  apply Agent_init_slot in Hi as (a0 & Hnone & Hst & Hc0 & Hc1 & Heff).
  - destruct w as [zs0 ags cnt]. simpl in *.
    rewrite <- (insert_app_last ags a0 a).
    eapply (slots_exact_update zs0 (ags ++ [a0]) cnt).
    + apply (slots_exact_append zs0 ags cnt); [exact Hinv| |exact Hnone|].
      * rewrite Hc0. exact Hc.
      * unfold queued. intuition congruence.
    + rewrite lookup_app_r by lia. rewrite Nat.sub_diag. reflexivity.
    + congruence.
    + exact Heff.
  - intros z Hz. destruct Hinv as (_ & _ & Hcount).
    rewrite (Hcount z _ (zone_at_lookup _ _ (Hc z Hz))). lia.
Qed.

Lemma same_slot_step zs a a' :
  current_cash_zone a' = current_cash_zone a ->
  queue_position a' = queue_position a -> state a' = state a ->
  slot_step zs a zs a'.
Proof.
  intros H1 H2 H3. apply slot_idle; auto. unfold queued. rewrite H3. tauto.
Qed.

Lemma slot_consistent_held zs a :
  slot_consistent zs a -> (queued a <-> current_cash_zone a <> None).
Proof.
  unfold slot_consistent. destruct (current_cash_zone a).
  - intros [H _]. split; [congruence|auto].
  - intros H. split; [tauto|congruence].
Qed.

Lemma slots_exact_step w w' : step w w' -> slots_exact w -> slots_exact w'.
Proof.
  intros Hstep Hinv. destruct Hstep.
  - apply slots_exact_new_zone. exact Hinv.
  - eapply slots_exact_spawn; eauto.
  - destruct w as [zs ags cnt]. simpl in *.
    eapply slots_exact_update; eauto. apply same_slot_step; reflexivity.
  - unfold step_agent in H.
    destruct (w_agents w !! self) as [a|] eqn:Ha; simpl in H; [|discriminate].
    destruct (move_towards_target _ _ _ _ _ _ _) as [[[zs a'] g1]|] eqn:Hm;
      [|discriminate].
    injection H as <- <-.
    pose proof (move_towards_target_effect _ _ _ _ _ _ _ _ _ _ Hm)
      as [(_ & Hcash & _) _].
    assert (Hin : a ∈ w_agents w) by (eapply list_elem_of_lookup_2; eauto).
    apply move_towards_target_slot in Hm.
    + destruct w as [zs0 ags cnt]. simpl in *.
      eapply slots_exact_update; eauto.
    + apply (slot_consistent_held (w_zones w)).
      destruct Hinv as (_ & Hcons & _). apply Hcons. exact Hin.
    + apply slots_exact_nonneg; [exact Hinv|].
      destruct Hinv as (Hrefs & _). apply (Hrefs a Hin).
  - destruct w as [zs ags cnt]. simpl in *.
    eapply slots_exact_update; eauto. apply same_slot_step; reflexivity.
Qed.

Lemma slots_exact_init : slots_exact init_world.
Proof.
  split; [|split].
  - intros a Ha. inversion Ha.
  - intros a Ha. inversion Ha.
  - intros z zone Hz. simpl in Hz. discriminate.
Qed.

Lemma slots_exact_reachable w : reachable w -> slots_exact w.
Proof.
  unfold reachable, steps. intros H.
  eapply (rtc_ind_r (R := step) slots_exact); [apply slots_exact_init| |exact H].
  intros y z _ Hs IH. eapply slots_exact_step; eauto.
Qed.

(** X9.  In every reachable state the counter of every zone is exactly the
    number of agents holding one of its slots, an agent holds a zone
    exactly while it is IN_QUEUE or PAYING, and the slot index it was
    given lies between 1 and the capacity of the zone. *)
Theorem queue_counter_counts_queued_agents w :
  reachable w ->
  (forall z zone, w_zones w !! z = Some zone ->
     queue_length zone = Z.of_nat (holders (w_agents w) z))
  /\ forall a, a ∈ w_agents w ->
       match current_cash_zone a with
       | Some z =>
           (state a = IN_QUEUE \/ state a = PAYING)
           /\ exists k zone, queue_position a = Some k
                /\ w_zones w !! z = Some zone
                /\ (1 <= k <= max_queue_length zone)%Z
       | None => state a <> IN_QUEUE /\ state a <> PAYING
       end.
Proof.
  intros Hr. destruct (slots_exact_reachable w Hr) as (Hrefs & Hcons & Hcount).
  split; [exact Hcount|]. intros a Ha. specialize (Hcons a Ha).
  destruct (Hrefs a Ha) as [_ Hcur].
  unfold slot_consistent, queued in Hcons.
  destruct (current_cash_zone a) as [z|].
  - destruct Hcons as (Hq & k & Hk & Hrange). split; [exact Hq|].
    exists k, (zone_at (w_zones w) z). split; [exact Hk|].
    split; [apply zone_at_lookup; apply Hcur; reflexivity|exact Hrange].
  - tauto.
Qed.

(** ** Invariants of single agents along runs *)

Section AgentInvariant.

Variable P : Agent -> Prop.

Hypothesis P_init :
  forall zs counter start_pos store_zones cash exits bhv bdg scl spd g zs' a' g',
    rng_ok g ->
    Agent_init zs counter start_pos store_zones cash exits bhv bdg scl spd g
    = Some (zs', a', g') ->
    P a'.

Hypothesis P_tag :
  forall a gid group_type role,
    P a ->
    P (set_role (Some role)
         (set_group_type (Some group_type) (set_group_id (Some gid) a))).

Hypothesis P_move :
  forall zs ags self a others delta_time g zs' a' g',
    move_towards_target zs ags self a others delta_time g = Some (zs', a', g') ->
    P a -> P a'.

Hypothesis P_position : forall a p, P a -> P (set_position p a).

Lemma agent_invariant_insert (ags : list Agent) i a :
  (forall b, b ∈ ags -> P b) -> P a -> forall b, b ∈ <[i := a]> ags -> P b.
Proof.
  intros Hall Ha b Hb.
  apply elem_of_insert_inv in Hb as [->|Hb]; [exact Ha|apply Hall; exact Hb].
Qed.

Lemma agent_invariant_step w w' :
  step w w' -> (forall a, a ∈ w_agents w -> P a) ->
  forall a, a ∈ w_agents w' -> P a.
Proof.
  intros Hstep Hw. destruct Hstep.
  - exact Hw.
  - unfold spawn_agent in H1.
    destruct (Agent_init _ _ _ _ _ _ _ _ _ _ _) as [[[zs a] g1]|] eqn:Hi;
      [|discriminate].
    injection H1 as <- <-. intros b Hb. simpl in Hb.
    apply elem_of_app in Hb as [Hb|Hb]; [apply Hw; exact Hb|].
    apply list_elem_of_singleton in Hb. subst b. eapply P_init; eauto.
  - simpl. apply agent_invariant_insert; [exact Hw|].
    apply P_tag. apply Hw. eapply list_elem_of_lookup_2; eauto.
  - unfold step_agent in H.
    destruct (w_agents w !! self) as [a|] eqn:Ha; simpl in H; [|discriminate].
    destruct (move_towards_target _ _ _ _ _ _ _) as [[[zs a'] g1]|] eqn:Hm;
      [|discriminate].
    injection H as <- <-. simpl. apply agent_invariant_insert; [exact Hw|].
    eapply P_move; [exact Hm|]. apply Hw. eapply list_elem_of_lookup_2; eauto.
  - simpl. apply agent_invariant_insert; [exact Hw|].
    apply P_position. apply Hw. eapply list_elem_of_lookup_2; eauto.
Qed.

Lemma agent_invariant_reachable w :
  reachable w -> forall a, a ∈ w_agents w -> P a.
Proof.
  unfold reachable, steps. intros H.
  eapply (rtc_ind_r (R := step) (fun w => forall a, a ∈ w_agents w -> P a));
    [| |exact H].
  - intros a Ha. inversion Ha.
  - intros y z _ Hs IH. eapply agent_invariant_step; eauto.
Qed.

End AgentInvariant.

Section AgentRelation.

Variable Rel : Agent -> Agent -> Prop.

Hypothesis Rel_refl : forall a, Rel a a.

Hypothesis Rel_trans : forall a b c, Rel a b -> Rel b c -> Rel a c.

Hypothesis Rel_tag :
  forall a gid group_type role,
    Rel a (set_role (Some role)
             (set_group_type (Some group_type) (set_group_id (Some gid) a))).

Hypothesis Rel_move :
  forall zs ags self a others delta_time g zs' a' g',
    move_towards_target zs ags self a others delta_time g = Some (zs', a', g') ->
    Rel a a'.

Hypothesis Rel_position : forall a p, Rel a (set_position p a).

Lemma lookup_insert_related (ags : list Agent) i j a b b' :
  ags !! i = Some a -> ags !! j = Some b -> Rel b b' ->
  exists a', <[j := b']> ags !! i = Some a' /\ Rel a a'.
Proof.
  intros Hi Hj Hev. destruct (decide (j = i)) as [->|Hne].
  - exists b'. rewrite list_lookup_insert_eq by (eapply lookup_lt_Some; eauto).
    split; [reflexivity|]. congruence.
  - exists a. rewrite list_lookup_insert_ne by assumption.
    split; [exact Hi|apply Rel_refl].
Qed.

Lemma step_related w w' i a :
  step w w' -> w_agents w !! i = Some a ->
  exists a', w_agents w' !! i = Some a' /\ Rel a a'.
Proof.
  intros Hstep Hi. destruct Hstep.
  - exists a. split; [exact Hi|apply Rel_refl].
  - unfold spawn_agent in H1.
    destruct (Agent_init _ _ _ _ _ _ _ _ _ _ _) as [[[zs b] g1]|];
      [|discriminate].
    injection H1 as <- <-. exists a. simpl.
    rewrite lookup_app_l by (eapply lookup_lt_Some; eauto).
    split; [exact Hi|apply Rel_refl].
  - simpl. eapply lookup_insert_related; eauto.
  - unfold step_agent in H.
    destruct (w_agents w !! self) as [b|] eqn:Hb; simpl in H; [|discriminate].
    destruct (move_towards_target _ _ _ _ _ _ _) as [[[zs b'] g1]|] eqn:Hm;
      [|discriminate].
    injection H as <- <-. simpl.
    eapply lookup_insert_related; eauto.
  - simpl. eapply lookup_insert_related; eauto.
Qed.

Lemma steps_related w w' i a :
  steps w w' -> w_agents w !! i = Some a ->
  exists a', w_agents w' !! i = Some a' /\ Rel a a'.
Proof.
  intros Hsteps. revert a. induction Hsteps as [w|w w1 w2 Hs _ IH]; intros a Hi.
  - exists a. split; [exact Hi|apply Rel_refl].
  - destruct (step_related _ _ _ _ Hs Hi) as (a1 & Hi1 & Hev1).
    destruct (IH a1 Hi1) as (a2 & Hi2 & Hev2).
    exists a2. split; [exact Hi2|]. eapply Rel_trans; eauto.
Qed.

End AgentRelation.

Lemma settles_refl a : settles a a.
Proof. unfold settles. auto. Qed.

Lemma settles_trans a b c : settles a b -> settles b c -> settles a c.
Proof.
  unfold settles. intros (H1 & H2 & H3) (H4 & H5 & H6).
  split; [congruence|]. split; [auto|]. intros H.
  destruct (H3 H) as [Hb|Hb]; auto.
Qed.

Lemma settles_move zs ags self a others delta_time g zs' a' g' :
  move_towards_target zs ags self a others delta_time g = Some (zs', a', g') ->
  settles a a'.
Proof.
  intros H. apply move_towards_target_transition in H as [Hp Ht].
  split; [exact Hp|].
  destruct (state a), (state a'); simpl in Ht; try discriminate;
    split; intros; auto; discriminate.
Qed.

(** X10.  Along every run an agent keeps the attributes its constructor fixed;
    once FINISHED it stays FINISHED, and once LEAVING it can only
    become FINISHED: an agent that has paid never shops or queues
    again. *)
Theorem finished_is_final w w' i a :
  steps w w' -> w_agents w !! i = Some a ->
  exists a', w_agents w' !! i = Some a'
    /\ profile a' = profile a
    /\ (state a = FINISHED -> state a' = FINISHED)
    /\ (state a = LEAVING -> state a' = LEAVING \/ state a' = FINISHED).
Proof.
  intros Hs Hi.
  apply (steps_related settles settles_refl settles_trans) with (w := w);
    try assumption.
  - intros b gid gt r. unfold settles. simpl. auto.
  - apply settles_move.
  - intros b p. unfold settles. simpl. auto.
Qed.

Lemma finished_is_final_witness :
  exists a', w_agents world_same_slot !! 0%nat = Some a'
    /\ profile a' = profile paid_agent
    /\ (state paid_agent = FINISHED -> state a' = FINISHED)
    /\ (state paid_agent = LEAVING -> state a' = LEAVING \/ state a' = FINISHED).
Proof.
  apply (finished_is_final world_first_paid world_same_slot 0 paid_agent);
    [|reflexivity].
  eapply rtc_once. eapply step_spawn; [| |apply spawn_third].
  - intros z Hz. simpl in Hz. apply list_elem_of_singleton in Hz. subst z.
    simpl. lia.
  - apply zero_rng_ok.
Defined.

Lemma choose_next_target_heading zs a g zs' a' g' :
  choose_next_target zs a g = Some (zs', a', g') ->
  heading_ok a -> heading_ok a'.
Proof.
  intros H. apply choose_next_target_state in H as (_ & Hh & Hd & _).
  unfold heading_ok. rewrite Hh, Hd. auto.
Qed.

Ltac heading_kept := intros [= <- <- <-] Hok; exact Hok.

Ltac heading_via_choice :=
  let H := fresh in
  intros H Hok; apply choose_next_target_heading in H; [exact H|exact Hok].

Ltac heading_turned :=
  intros [= <- <- <-] Hok;
  match goal with
  | |- heading_ok (set_position _ (update_heading ?a ?t ?v)) =>
      exact (update_heading_unit a t v Hok)
  end.

Lemma move_towards_target_heading zs ags self a others delta_time g zs' a' g' :
  move_towards_target zs ags self a others delta_time g = Some (zs', a', g') ->
  heading_ok a -> heading_ok a'.
Proof.
  unfold move_towards_target. destruct (state a) eqn:Hst.
  - destruct (destination a) as [dest|]; [|heading_kept].
    destruct (point_truthy dest); [|heading_kept].
    destruct (decide (_ <= _)).
    + simpl. rewrite Hst. destruct (cash_zones a); [|heading_kept].
      destruct (point_in _ _); [heading_kept|heading_via_choice].
    + destruct (avoid_collisions _ _ _ _) as [avoid|]; simpl; [|congruence].
      heading_turned.
  - destruct (decide (_ <= _)); [|heading_kept].
    destruct (random_random g) as [u g1].
    destruct (py_div _ _) as [p|]; simpl; [|congruence].
    destruct (decide (u < p)); [heading_via_choice|heading_kept].
  - destruct (current_cash_zone a) as [cz|]; [|heading_kept].
    destruct (sort_queue _) as [queue|]; simpl; [|congruence].
    destruct (bool_decide _); [heading_kept|].
    destruct (queue_position a) as [pos|]; [|heading_kept].
    destruct (bool_decide (pos = 0%Z)); [heading_kept|].
    destruct (get_queue_position _ _ _ _) as [target|]; simpl; [|congruence].
    destruct (decide (_ < _)); [|heading_kept].
    destruct (avoid_collisions _ _ _ _) as [avoid|]; simpl; [|congruence].
    heading_turned.
  - destruct (decide (_ <= _)); [|heading_kept].
    simpl. destruct (current_cash_zone a); heading_via_choice.
  - destruct (destination a) as [dest|]; [|heading_kept].
    destruct (point_truthy dest); [|heading_kept].
    destruct (decide (_ <= _)).
    + simpl. rewrite Hst. destruct (point_in _ _); heading_kept.
    + destruct (avoid_collisions _ _ _ _) as [avoid|]; simpl; [|congruence].
      heading_turned.
  - heading_kept.
Qed.

Lemma constructed_ok_profile a a' :
  profile a' = profile a -> constructed_ok a -> constructed_ok a'.
Proof.
  unfold profile, constructed_ok.
  intros [= H1 H2 H3 H4 H5 H6 H7 H8 H9 H10 H11 H12 H13 H14 H15 H16 H17].
  rewrite H2, H4, H6, H9, H10, H11, H12, H13, H14, H15, H16, H17. auto.
Qed.

Lemma Agent_init_constructed zs counter start_pos store_zones cash exits bhv
    bdg scl spd g zs' a' g' :
  rng_ok g ->
  Agent_init zs counter start_pos store_zones cash exits bhv bdg scl spd g
  = Some (zs', a', g') ->
  constructed_ok a' /\ heading_ok a' /\ agent_id a' = counter
  /\ scale a' = scl /\ behavior a' = bhv /\ budget a' = bdg
  /\ exit_points a' = exits
  /\ speed a' = (if decide (bhv = FAMILY) then spd * 0.7 else spd).
Proof.
  intros Hg. unfold Agent_init, random_uniform, random_random, rng_next. simpl.
  intros H.
  pose proof (choose_next_target_state _ _ _ _ _ _ H) as (Hp & _).
  split; [|split].
  - apply (constructed_ok_profile _ _ Hp). unfold constructed_ok. simpl.
    pose proof (Hg (cursor g)). pose proof (Hg (S (cursor g))).
    pose proof (Hg (S (S (cursor g)))). pose proof (Hg (S (S (S (cursor g))))).
    pose proof (Hg (S (S (S (S (cursor g)))))).
    pose proof (Hg (S (S (S (S (S (cursor g))))))).
    repeat split; try reflexivity; nra.
  - apply choose_next_target_heading in H; [exact H|].
    split; simpl; lra.
  - unfold profile in Hp. simpl in Hp.
    injection Hp as H1 H2 H3 H4 H5 H6 H7 H8 H9 H10 H11 H12 H13 H14 H15 H16 H17.
    repeat split; assumption.
Qed.

Lemma well_formed_reachable w a : reachable w -> a ∈ w_agents w -> well_formed a.
Proof.
  intros Hr Ha. apply (agent_invariant_reachable well_formed) with (w := w);
    try assumption.
  - intros zs counter start_pos store_zones cash exits bhv bdg scl spd g
      zs' a' g' Hg Hi.
    destruct (Agent_init_constructed _ _ _ _ _ _ _ _ _ _ _ _ _ _ Hg Hi)
      as (H1 & H2 & _).
    split; assumption.
  - intros b gid gt r Hb. exact Hb.
  - intros zs ags self b others dt g zs' b' g' Hm [Hc Hh]. split.
    + apply move_towards_target_transition in Hm as [Hp _].
      eapply constructed_ok_profile; eauto.
    + eapply move_towards_target_heading; eauto.
  - intros b p Hb. exact Hb.
Qed.

(** X11.  In every reachable state every agent still has what its constructor
    gave it: the size of its strategy, real_speed 1000, dwell bounds 5
    and 30, a service time in [30, 120), sensitivities in [0.2, 1), an
    impulse probability in [0, 0.5) and the entry heading (1, 0); and
    its heading is a unit vector. *)
Theorem agents_stay_well_formed w a :
  reachable w -> a ∈ w_agents w -> constructed_ok a /\ heading_ok a.
Proof. intros Hr Ha. exact (well_formed_reachable w a Hr Ha). Qed.

Lemma agents_stay_well_formed_witness :
  constructed_ok paid_agent /\ heading_ok paid_agent.
Proof.
  apply (agents_stay_well_formed world_first_paid paid_agent
           reachable_world_first_paid).
  apply list_elem_of_here.
Defined.

Lemma ids_sequential_insert zs zs' ags c i a a' :
  ids_sequential (mkWorld zs ags c) -> ags !! i = Some a ->
  agent_id a' = agent_id a ->
  ids_sequential (mkWorld zs' (<[i := a']> ags) c).
Proof.
  intros [Hc Hid] Hi Ha. simpl in *. split; simpl.
  - rewrite length_insert. exact Hc.
  - intros j b Hj. destruct (decide (i = j)) as [->|Hne].
    + rewrite list_lookup_insert_eq in Hj by (eapply lookup_lt_Some; eauto).
      injection Hj as <-. rewrite Ha. apply Hid. exact Hi.
    + rewrite list_lookup_insert_ne in Hj by assumption. apply Hid. exact Hj.
Qed.

Lemma ids_sequential_step w w' : step w w' -> ids_sequential w -> ids_sequential w'.
Proof.
  intros Hstep Hw. destruct Hstep.
  - exact Hw.
  - unfold spawn_agent in H1.
    destruct (Agent_init _ _ _ _ _ _ _ _ _ _ _) as [[[zs a] g1]|] eqn:Hi;
      [|discriminate].
    injection H1 as <- <-.
    apply Agent_init_constructed in Hi as (_ & _ & Hid & _); [|assumption].
    destruct Hw as [Hc Hids]. split; simpl.
    + rewrite length_app. simpl. lia.
    + intros j b Hj.
      destruct (decide (j < length (w_agents w))%nat) as [Hlt|Hge].
      * rewrite lookup_app_l in Hj by assumption. apply Hids. exact Hj.
      * rewrite lookup_app_r in Hj by lia.
        destruct (j - length (w_agents w))%nat eqn:Hd; simpl in Hj;
          [|discriminate].
        injection Hj as <-. rewrite Hid. lia.
  - destruct w as [zs ags cnt]. simpl in *.
    eapply ids_sequential_insert; eauto.
  - unfold step_agent in H.
    destruct (w_agents w !! self) as [a|] eqn:Ha; simpl in H; [|discriminate].
    destruct (move_towards_target _ _ _ _ _ _ _) as [[[zs a'] g1]|] eqn:Hm;
      [|discriminate].
    injection H as <- <-.
    apply move_towards_target_transition in Hm as [Hp _].
    destruct w as [zs0 ags cnt]. simpl in *.
    eapply ids_sequential_insert; eauto.
    unfold profile in Hp. congruence.
  - destruct w as [zs ags cnt]. simpl in *.
    eapply ids_sequential_insert; eauto.
Qed.

(** X12.  Agent ids are handed out in creation order: in every reachable state
    the class counter is the number of agents created, the agent stored
    at index [i] has id [i], and so no two agents share an id. *)
Theorem agent_ids_are_sequential w :
  reachable w ->
  w_counter w = length (w_agents w)
  /\ (forall i a, w_agents w !! i = Some a -> agent_id a = i)
  /\ forall i j a b, w_agents w !! i = Some a -> w_agents w !! j = Some b ->
       agent_id a = agent_id b -> i = j.
Proof.
  unfold reachable, steps. intros H.
  assert (Hs : ids_sequential w).
  { eapply (rtc_ind_r (R := step) ids_sequential); [| |exact H].
    - split; [reflexivity|]. intros i a Hi. simpl in Hi. discriminate.
    - intros y z _ Hs IH. eapply ids_sequential_step; eauto. }
  destruct Hs as [Hc Hid]. split; [exact Hc|]. split; [exact Hid|].
  intros i j a b Hi Hj Hab.
  rewrite <- (Hid i a Hi), <- (Hid j b Hj). exact Hab.
Qed.

Lemma agent_ids_are_sequential_witness :
  w_counter world_same_slot = length (w_agents world_same_slot).
Proof.
  apply (agent_ids_are_sequential world_same_slot reachable_world_same_slot).
Defined.

Lemma queue_counter_counts_queued_agents_witness :
  queue_length (checkout_with 1)
  = Z.of_nat (holders (w_agents world_first_paid) 0).
Proof.
  destruct (queue_counter_counts_queued_agents world_first_paid
              reachable_world_first_paid) as [H _].
  exact (H 0%nat (checkout_with 1) eq_refl).
Defined.

(** ** The movement step returns *)

Lemma py_div_total x y : y <> 0 -> py_div x y = Some (x / y).
Proof. intros H. unfold py_div. destruct (decide (y = 0)); [contradiction|reflexivity]. Qed.

Lemma sort_queue_total queue :
  (forall jk, jk ∈ queue -> jk.2 <> None) -> exists l, sort_queue queue = Some l.
Proof.
  intros Hall. unfold sort_queue. destruct queue as [|x [|y q]]; [eauto..|].
  assert (Hm : is_Some (mapM (fun jk : nat * option Z => k ← jk.2; Some (jk.1, k))
                          (x :: y :: q))).
  { apply mapM_is_Some. apply Forall_forall. intros jk Hjk. simpl.
    specialize (Hall jk Hjk). destruct (jk.2); [eauto|congruence]. }
  destruct Hm as [keyed ->]. simpl. eauto.
Qed.

Lemma queue_of_keys ags a others jk :
  jk ∈ queue_of ags a others ->
  exists b, ags !! jk.1 = Some b /\ jk.1 ∈ others
            /\ current_cash_zone b = current_cash_zone a
            /\ state b = IN_QUEUE /\ jk.2 = queue_position b.
Proof.
  unfold queue_of. intros H. apply list_elem_of_omap in H as (j & Hj & Hf).
  destruct (ags !! j) as [b|] eqn:Hb; simpl in Hf; [|discriminate].
  destruct (bool_decide _ && bool_decide _) eqn:Hc; [|discriminate].
  injection Hf as <-. apply andb_true_iff in Hc as [H1 H2].
  apply bool_decide_eq_true_1 in H1, H2. exists b. simpl. auto.
Qed.

Lemma min_by_total {A K} (lt : K -> K -> bool) (key : A -> K) l :
  l <> [] -> exists x, min_by lt key l = Some x.
Proof. destruct l; [congruence|]. simpl. eauto. Qed.

Lemma choose_next_target_returns zs a g :
  scale a <> 0 -> exit_points a <> [] ->
  exists r, choose_next_target zs a g = Some r.
Proof.
  intros Hs He. destruct (decide (state a = LEAVING)) as [Hl|Hl].
  - unfold choose_next_target. destruct (decide (state a = LEAVING)); [|contradiction].
    destruct (min_by_total float_lt (distance_to a) _ He) as [p ->]. simpl. eauto.
  - destruct (choose_next_target_total zs a g Hl Hs) as (zs' & a' & g' & ->).
    eauto.
Qed.

Ltac returns := eexists; reflexivity.

(** With nobody in [others] to repel the agent, the repulsion is the
    zero vector. *)
Lemma avoid_collisions_nobody ags self a others :
  scale a <> 0 ->
  (forall j, j ∈ others -> repels ags self j = false) ->
  avoid_collisions ags self a others = Some (mkPoint 0 0).
Proof.
  intros Hs Hall. unfold avoid_collisions.
  destruct (get_collision_rect_total a Hs) as [r ->]. simpl.
  generalize (mkPoint 0 0). induction others as [|j others IH]; intros v; simpl.
  - reflexivity.
  - rewrite avoid_one_skips by (apply Hall, list_elem_of_here). simpl.
    apply IH. intros k Hk. apply Hall. apply list_elem_of_further. exact Hk.
Qed.

(** The movement step of an agent that nobody repels returns whenever
    its scale is not zero, it has an exit, its dwell bounds differ and,
    when it holds a checkout, it has a slot index. *)
Lemma move_towards_target_unrepelled zs ags self a others delta_time g :
  ags !! self = Some a ->
  scale a <> 0 -> exit_points a <> [] ->
  max_shopping_time a - min_shopping_time a <> 0 ->
  (forall j, j ∈ others -> repels ags self j = false) ->
  (current_cash_zone a <> None -> queue_position a <> None) ->
  exists r, move_towards_target zs ags self a others delta_time g = Some r.
Proof.
  intros Hself Hs He Ht Hall Hq.
  pose proof (avoid_collisions_nobody ags self a others Hs Hall) as Hav.
  unfold move_towards_target. destruct (state a) eqn:Hst.
  - destruct (destination a) as [dest|]; [|returns].
    destruct (point_truthy dest); [|returns].
    destruct (decide (_ <= _)).
    + simpl. rewrite Hst. destruct (cash_zones a); [|returns].
      destruct (point_in _ _); [returns|].
      apply choose_next_target_returns; assumption.
    + rewrite Hav. simpl. returns.
  - destruct (decide (_ <= _)); [|returns].
    destruct (random_random g) as [u g1].
    simpl. rewrite py_div_total by exact Ht. simpl.
    destruct (decide (u < _)); [|returns].
    apply choose_next_target_returns; assumption.
  - destruct (current_cash_zone a) as [cz|] eqn:Hcz; [|returns].
    destruct (sort_queue_total (queue_of ags a others)) as [queue ->].
    { intros jk Hjk. apply queue_of_keys in Hjk as (b & Hb & Hin & Hc & Hqb & ->).
      specialize (Hall _ Hin). unfold repels in Hall. rewrite Hb in Hall.
      apply negb_false_iff, orb_true_iff in Hall as [Hj|Hf].
      - apply bool_decide_eq_true_1 in Hj. rewrite Hj, Hself in Hb.
        injection Hb as <-. apply Hq. discriminate.
      - unfold finished in Hf. apply bool_decide_eq_true_1 in Hf. congruence. }
    simpl. destruct (bool_decide _); [returns|].
    destruct (queue_position a) as [pos|]; [|returns].
    destruct (bool_decide (pos = 0%Z)); [returns|].
    unfold get_queue_position. rewrite py_div_total by exact Hs. simpl.
    destruct (decide (_ < _)); [|returns].
    rewrite Hav. simpl. returns.
  - destruct (decide (_ <= _)); [|returns].
    simpl. destruct (current_cash_zone a);
      apply choose_next_target_returns; assumption.
  - destruct (destination a) as [dest|]; [|returns].
    destruct (point_truthy dest); [|returns].
    destruct (decide (_ <= _)).
    + simpl. rewrite Hst. destruct (point_in _ _); returns.
    + rewrite Hav. simpl. returns.
  - returns.
Qed.

(** X13.  An agent that nobody repels never raises: in a reachable state,
    when every agent referenced by [others] is the agent itself or has
    finished, the repulsion is the zero vector and a call of
    [move_towards_target] by an agent with a non-zero scale and at least
    one exit returns, whatever its state, the tick length and the random
    draws. *)
Theorem unrepelled_step_returns w self a others delta_time g :
  reachable w -> w_agents w !! self = Some a ->
  scale a <> 0 -> exit_points a <> [] ->
  (forall j, j ∈ others -> repels (w_agents w) self j = false) ->
  avoid_collisions (w_agents w) self a others = Some (mkPoint 0 0)
  /\ exists w' g', step_agent w self others delta_time g = Some (w', g')
       /\ reachable w'.
Proof.
  intros Hr Hself Hs He Hall.
  split; [apply avoid_collisions_nobody; assumption|].
  assert (Ha : a ∈ w_agents w) by (eapply list_elem_of_lookup_2; eauto).
  destruct (slots_exact_reachable w Hr) as (_ & Hcons & _).
  destruct (move_towards_target_unrepelled (w_zones w) (w_agents w) self a
              others delta_time g Hself Hs He) as [[[zs a'] g'] Hm].
  - destruct (well_formed_reachable w a Hr Ha) as [(_ & _ & -> & -> & _) _].
    lra.
  - exact Hall.
  - intros Hne. specialize (Hcons a Ha). unfold slot_consistent in Hcons.
    destruct (current_cash_zone a); [|congruence].
    destruct Hcons as (_ & k & -> & _). discriminate.
  - assert (Hstep : step_agent w self others delta_time g
                    = Some (mkWorld zs (<[self := a']> (w_agents w)) (w_counter w), g')).
    { unfold step_agent. rewrite Hself. simpl. rewrite Hm. reflexivity. }
    eexists _, g'. split; [exact Hstep|].
    eapply rtc_r; [exact Hr|]. eapply step_move. exact Hstep.
Qed.

Lemma unrepelled_step_returns_witness :
  avoid_collisions (w_agents world_one_queued) 0 (queued_agent 0 1) [0%nat]
  = Some (mkPoint 0 0)
  /\ exists w' g',
       step_agent world_one_queued 0 [0%nat] 1 zero_rng = Some (w', g')
       /\ reachable w'.
Proof.
  apply (unrepelled_step_returns world_one_queued 0 (queued_agent 0 1) [0%nat]
           1 zero_rng reachable_world_one_queued eq_refl).
  - simpl. lra.
  - simpl. discriminate.
  - intros j Hj. apply list_elem_of_singleton in Hj. subst j. reflexivity.
Defined.

(** ** The length of a step *)

Lemma choose_next_target_position zs a g zs' a' g' :
  choose_next_target zs a g = Some (zs', a', g') -> position a' = position a.
Proof.
  unfold choose_next_target. destruct (decide (state a = LEAVING)) as [Hl|Hl].
  { destruct (min_by _ _ _); simpl; [|congruence]. intros [= <- <- <-].
    reflexivity. }
  unfold checkout_block.
  destruct (bool_decide (unvisited_zones a = []) && _) eqn:Hcond.
  - apply andb_true_iff in Hcond as [Hun Hc].
    apply bool_decide_eq_true_1 in Hun.
    destruct (min_by _ _ _) as [cash|].
    + destruct (join_queue _) as [zone' pos]. destruct (0 <? pos)%Z.
      * destruct (get_queue_position _ _ _ _); simpl; [|congruence].
        intros [= <- <- <-]. reflexivity.
      * simpl. rewrite Hun. intros [= <- <- <-]. reflexivity.
    + rewrite Hun. intros [= <- <- <-]. reflexivity.
  - destruct (unvisited_zones a) eqn:Hun.
    + intros [= <- <- <-]. reflexivity.
    + rewrite <- Hun. destruct (weighted_choice _ _ _ _) as [[z g1]|]; [|congruence].
      destruct (list_remove _ _); simpl; [|congruence].
      intros [= <- <- <-]. destruct (_first_move a); reflexivity.
Qed.

(** The distance covered by a step of length [s] along a unit vector. *)
Lemma unit_step_length (a : Agent) hx hy s :
  hx * hx + hy * hy = 1 ->
  distance_to a (padd (position a) (mkPoint (hx * s) (hy * s))) = Rabs s.
Proof.
  intros Hu. unfold distance_to, padd. simpl.
  replace ((pt_x (position a) + hx * s - pt_x (position a))
           * (pt_x (position a) + hx * s - pt_x (position a))
           + (pt_y (position a) + hy * s - pt_y (position a))
             * (pt_y (position a) + hy * s - pt_y (position a)))
    with ((hx * hx + hy * hy) * Rsqr s) by (unfold Rsqr; ring).
  rewrite Hu, Rmult_1_l. apply sqrt_Rsqr_abs.
Qed.

Ltac stays := intros [= <- <- <-]; left; reflexivity.

(** X14.  One call moves the agent by nothing, onto its destination when that
    is within [speed * delta_time], along its unit heading by
    [speed * delta_time] in a queue, or along its unit heading by
    [real_speed * scale * speed * delta_time] when walking or leaving. *)
Theorem step_length_by_state zs ags self a others delta_time g zs' a' g' :
  move_towards_target zs ags self a others delta_time g = Some (zs', a', g') ->
  heading_ok a ->
  position a' = position a
  \/ (exists dest, destination a = Some dest /\ position a' = dest
        /\ (state a = WALKING \/ state a = LEAVING)
        /\ distance_to a dest <= speed a * delta_time)
  \/ (state a = IN_QUEUE
      /\ distance_to a (position a') = Rabs (speed a * delta_time))
  \/ ((state a = WALKING \/ state a = LEAVING)
      /\ distance_to a (position a')
         = Rabs (real_speed a * scale a * speed a * delta_time)).
Proof.
  intros H Hok. revert H.
  unfold move_towards_target. destruct (state a) eqn:Hst.
  - destruct (destination a) as [dest|] eqn:Hd; [|stays].
    destruct (point_truthy dest); [|stays].
    destruct (decide (_ <= _)) as [Hle|Hgt].
    + intros H. right. left. exists dest. split; [reflexivity|].
      split; [|split; [left; reflexivity|exact Hle]].
      revert H. simpl. rewrite Hst. destruct (cash_zones a).
      * destruct (point_in _ _); [intros [= <- <- <-]; reflexivity|].
        intros H. apply choose_next_target_position in H. exact H.
      * intros [= <- <- <-]. reflexivity.
    + destruct (avoid_collisions _ _ _ _) as [avoid|]; simpl; [|congruence].
      intros [= <- <- <-]. right. right. right. split; [auto|].
      pose proof (update_heading_unit a dest avoid Hok) as [Hu _].
      destruct (update_heading_keeps a dest avoid)
        as (Hp & _ & _ & _ & Hsp & Hsc & Hrs).
      simpl. rewrite Hp, Hsp, Hsc, Hrs.
      apply (unit_step_length a _ _ _ Hu).
  - destruct (decide (_ <= _)); [|stays].
    destruct (random_random g) as [u g1].
    destruct (py_div _ _) as [p|]; simpl; [|congruence].
    destruct (decide (u < p)); [|stays].
    intros H. apply choose_next_target_position in H. left. exact H.
  - destruct (current_cash_zone a) as [cz|]; [|stays].
    destruct (sort_queue _) as [queue|]; simpl; [|congruence].
    destruct (bool_decide _); [stays|].
    destruct (queue_position a) as [pos|]; [|stays].
    destruct (bool_decide (pos = 0%Z)); [stays|].
    destruct (get_queue_position _ _ _ _) as [target|]; simpl; [|congruence].
    destruct (decide (_ < _)); [|stays].
    destruct (avoid_collisions _ _ _ _) as [avoid|]; simpl; [|congruence].
    intros [= <- <- <-]. right. right. left. split; [reflexivity|].
    pose proof (update_heading_unit a target avoid Hok) as [Hu _].
    destruct (update_heading_keeps a target avoid)
      as (Hp & _ & _ & _ & Hsp & Hsc & Hrs).
    simpl. rewrite Hp, Hsp, !Rmult_assoc.
    apply (unit_step_length a _ _ _ Hu).
  - destruct (decide (_ <= _)); [|stays].
    simpl. destruct (current_cash_zone a); intros H;
      apply choose_next_target_position in H; left; exact H.
  - destruct (destination a) as [dest|] eqn:Hd; [|stays].
    destruct (point_truthy dest); [|stays].
    destruct (decide (_ <= _)) as [Hle|Hgt].
    + intros H. right. left. exists dest. split; [reflexivity|].
      split; [|split; [right; reflexivity|exact Hle]].
      revert H. simpl. rewrite Hst.
      destruct (point_in _ _); intros [= <- <- <-]; reflexivity.
    + destruct (avoid_collisions _ _ _ _) as [avoid|]; simpl; [|congruence].
      intros [= <- <- <-]. right. right. right. split; [auto|].
      pose proof (update_heading_unit a dest avoid Hok) as [Hu _].
      destruct (update_heading_keeps a dest avoid)
        as (Hp & _ & _ & _ & Hsp & Hsc & Hrs).
      simpl. rewrite Hp, Hsp, Hsc, Hrs.
      apply (unit_step_length a _ _ _ Hu).
  - stays.
Qed.

Lemma step_length_by_state_witness :
  position paid_agent = position (set_state PAYING (queued_agent 0 1)).
Proof.
  destruct (step_length_by_state _ _ _ _ _ _ _ _ _ _ first_payment_call)
    as [H|[(dest & _ & _ & [H|H] & _)|[[H _]|[[H|H] _]]]];
    try discriminate H.
  - split; simpl; lra.
  - exact H.
Defined.

(** ** Paying, and the front of a queue *)

(** X15.  A PAYING agent only counts time until its service time has elapsed;
    then it gives its slot back, becomes LEAVING with the timer reset
    and heads for its nearest exit, without consuming a random draw.
    With no exit point the call raises at that moment. *)
Theorem payment_completion zs ags self a others delta_time g :
  state a = PAYING ->
  (payment_time a + delta_time < service_time a ->
   move_towards_target zs ags self a others delta_time g
   = Some (zs, set_payment_time (payment_time a + delta_time) a, g))
  /\ (service_time a <= payment_time a + delta_time ->
      exit_points a = [] ->
      move_towards_target zs ags self a others delta_time g = None)
  /\ (service_time a <= payment_time a + delta_time ->
      exit_points a <> [] ->
      exists a' p,
        move_towards_target zs ags self a others delta_time g
        = Some (match current_cash_zone a with
                | Some cz =>
                    alter (fun z => set_queue_length (queue_length z - 1) z) cz zs
                | None => zs
                end, a', g)
        /\ state a' = LEAVING /\ payment_time a' = 0
        /\ current_cash_zone a' = None
        /\ destination a' = Some p /\ p ∈ exit_points a
        /\ (forall q, q ∈ exit_points a -> distance_to a p <= distance_to a q)
        /\ position a' = position a /\ queue_position a' = queue_position a).
Proof.
  intros Hst. unfold move_towards_target. rewrite Hst. simpl.
  split; [|split].
  - intros Hlt. destruct (decide (_ <= _)); [lra|reflexivity].
  - intros Hle He. destruct (decide (_ <= _)); [|lra].
    unfold choose_next_target. simpl. rewrite He.
    destruct (current_cash_zone a); reflexivity.
  - intros Hle He. destruct (decide (_ <= _)); [|lra].
    destruct (min_by float_lt (distance_to a) (exit_points a)) as [p|] eqn:Hmin.
    2:{ destruct (exit_points a); [contradiction|discriminate]. }
    destruct (min_by_minimal _ _ _ _ float_lt_irrefl float_lt_trans Hmin)
      as [Hin Hmin'].
    assert (Hnear : forall q, q ∈ exit_points a -> distance_to a p <= distance_to a q).
    { intros q Hq. specialize (Hmin' q Hq). unfold float_lt in Hmin'.
      apply bool_decide_eq_false_1 in Hmin'. lra. }
    unfold choose_next_target. simpl.
    destruct (current_cash_zone a) as [cz|] eqn:Hcz; simpl;
      change (min_by float_lt (distance_to _) (exit_points a))
        with (min_by float_lt (distance_to a) (exit_points a));
      rewrite Hmin; simpl; eexists; exists p;
      (split; [reflexivity|]); simpl; repeat split; auto.
Qed.

Lemma payment_completion_witness :
  move_towards_target [checkout_with 2] (w_agents world_first_paying) 0
    (set_state PAYING (queued_agent 0 1)) [0; 1]%nat 0 zero_rng
  = Some ([checkout_with 2],
          set_payment_time (payment_time (set_state PAYING (queued_agent 0 1)) + 0)
            (set_state PAYING (queued_agent 0 1)),
          zero_rng).
Proof.
  destruct (payment_completion [checkout_with 2] (w_agents world_first_paying) 0
              (set_state PAYING (queued_agent 0 1)) [0; 1]%nat 0 zero_rng eq_refl)
    as [H _].
  apply H.
  destruct (timers_ok_reachable world_first_paying reachable_world_first_paying
              (set_state PAYING (queued_agent 0 1)) (list_elem_of_here _ _))
    as [_ Ht].
  simpl in *. lra.
Defined.

Lemma sort_queue_nil queue : sort_queue queue = Some [] -> queue = [].
Proof.
  unfold sort_queue. destruct queue as [|jk1 [|jk2 rest]];
    [reflexivity|discriminate|].
  destruct (mapM _ _) as [keyed|] eqn:Hm; simpl; [|discriminate].
  intros [= Hnil]. apply fmap_nil_inv in Hnil.
  pose proof (sorted_head_min keyed) as Hs. rewrite Hnil in Hs. subst keyed.
  apply mapM_Some in Hm. apply Forall2_length in Hm. discriminate.
Qed.

Lemma strict_front_promoted zs ags self a others delta_time g cz k :
  ags !! self = Some a -> state a = IN_QUEUE ->
  current_cash_zone a = Some cz -> queue_position a = Some k ->
  (forall j ag, j ∈ others -> j <> self -> ags !! j = Some ag ->
     state ag = IN_QUEUE -> current_cash_zone ag = Some cz ->
     exists kj, queue_position ag = Some kj /\ (k < kj)%Z) ->
  self ∈ others ->
  move_towards_target zs ags self a others delta_time g
  = Some (zs, set_state PAYING a, g).
Proof.
  intros Hself Hst Hcz Hk Hmin.
  intros Hin. unfold move_towards_target. rewrite Hst, Hcz.
  destruct (sort_queue_total (queue_of ags a others)) as [sorted Hs].
  { intros [j kj] Hj. apply queue_of_elem in Hj as (Hj & ag & Hag & Hc & Hq & <-).
    simpl. destruct (decide (j = self)) as [->|Hne].
    - rewrite Hself in Hag. injection Hag as <-. congruence.
    - destruct (Hmin j ag Hj Hne Hag Hq) as (kj & -> & _); [congruence|].
      discriminate. }
  rewrite Hs. simpl.
  assert (Hme : (self, Some k) ∈ queue_of ags a others).
  { apply queue_of_elem. split; [exact Hin|]. exists a. auto. }
  destruct sorted as [|h sorted'].
  { apply sort_queue_nil in Hs. rewrite Hs in Hme. inversion Hme. }
  destruct (decide (h = self)) as [->|Hne].
  { simpl. rewrite bool_decide_eq_true_2 by reflexivity. reflexivity. }
  exfalso.
  destruct (sort_queue_head _ _ h Hs eq_refl) as (kh & Hh & Hle).
  apply queue_of_elem in Hh as (Hhin & ag & Hag & Hc & Hq & Hkh).
  destruct (Hmin h ag Hhin Hne Hag Hq) as (kj & Hkj & Hlt); [congruence|].
  destruct (Hle self (Some k) Hme) as (k1 & k2 & H1 & H2 & H3); [congruence|].
  assert (k1 = kj) by congruence. assert (k2 = k) by congruence. lia.
Qed.

(** X16.  The converse of head promotion: an IN_QUEUE agent that is in
    [others] and whose slot index is strictly below that of every other
    agent of [others] queueing at its zone becomes PAYING, whatever its
    position and the tick length; nothing else changes.  An agent that
    is not in [others] is never promoted. *)
Theorem queue_front_is_promoted zs ags self a others delta_time g cz k :
  ags !! self = Some a -> state a = IN_QUEUE ->
  current_cash_zone a = Some cz -> queue_position a = Some k ->
  (forall j ag, j ∈ others -> j <> self -> ags !! j = Some ag ->
     state ag = IN_QUEUE -> current_cash_zone ag = Some cz ->
     exists kj, queue_position ag = Some kj /\ (k < kj)%Z) ->
  (self ∈ others ->
   move_towards_target zs ags self a others delta_time g
   = Some (zs, set_state PAYING a, g))
  /\ (self ∉ others ->
      forall zs' a' g',
        move_towards_target zs ags self a others delta_time g
        = Some (zs', a', g') ->
        state a' = IN_QUEUE).
Proof.
  intros Hself Hst Hcz Hk Hmin. split.
  - intros Hin. eapply strict_front_promoted; eauto.
  - intros Hnot zs' a' g'. unfold move_towards_target. rewrite Hst, Hcz.
    destruct (sort_queue _) as [sorted|] eqn:Hs; simpl; [|discriminate].
    destruct (bool_decide (head sorted = Some self)) eqn:Hh.
    { apply bool_decide_eq_true_1 in Hh.
      destruct (sort_queue_head _ _ _ Hs Hh) as (kself & Hin & _).
      apply queue_of_elem in Hin as [Hin _]. contradiction. }
    rewrite Hk. destruct (bool_decide (k = 0%Z)); [intros [= <- <- <-]; exact Hst|].
    destruct (get_queue_position _ _ _ _) as [target|]; simpl; [|discriminate].
    destruct (decide (_ < _)); [|intros [= <- <- <-]; exact Hst].
    destruct (avoid_collisions _ _ _ _) as [avoid|]; simpl; [|discriminate].
    intros [= <- <- <-]. simpl.
    destruct (update_heading_keeps a target avoid) as (_ & -> & _). exact Hst.
Qed.

Lemma queue_front_is_promoted_witness :
  move_towards_target (w_zones world_two_queued) (w_agents world_two_queued) 0
    (queued_agent 0 1) [0; 1]%nat 0 zero_rng
  = Some (w_zones world_two_queued, set_state PAYING (queued_agent 0 1), zero_rng).
Proof.
  apply (queue_front_is_promoted (w_zones world_two_queued)
           (w_agents world_two_queued) 0 (queued_agent 0 1) [0; 1]%nat 0
           zero_rng 0%nat 1%Z); try reflexivity.
  - intros j ag Hj Hne Hag _ _.
    apply elem_of_cons in Hj as [->|Hj]; [contradiction|].
    apply list_elem_of_singleton in Hj. subst j. simpl in Hag.
    injection Hag as <-. exists 2%Z. split; [reflexivity|lia].
  - apply list_elem_of_here.
Defined.

(** ** Creating and updating groups *)

Lemma Agent_init_fields zs counter start_pos store_zones cash exits bhv bdg
    scl spd g zs' a' g' :
  Agent_init zs counter start_pos store_zones cash exits bhv bdg scl spd g
  = Some (zs', a', g') ->
  behavior a' = bhv /\ budget a' = bdg /\ position a' = start_pos
  /\ scale a' = scl /\ exit_points a' = exits
  /\ speed a' = (if decide (bhv = FAMILY) then spd * 0.7 else spd)
  /\ dimensions a' = get_dimensions bhv
  /\ agent_id a' = counter.
Proof.
  unfold Agent_init, random_uniform, random_random, rng_next. simpl.
  intros H.
  pose proof (choose_next_target_state _ _ _ _ _ _ H) as (Hp & _).
  apply choose_next_target_position in H.
  unfold profile in Hp. simpl in Hp, H.
  injection Hp as H1 H2 H3 H4 H5 H6 H7 H8 H9 H10 H11 H12 H13 H14 H15 H16 H17.
  repeat split; assumption.
Qed.

Lemma create_members_tagged n gt gid start_pos tz cash exits bhv bdg scl spd :
  forall r0 w g ms w' g',
  create_members n r0 gt gid start_pos tz cash exits bhv bdg scl spd w g
  = Some (ms, w', g') ->
  ms = seq (length (w_agents w)) n
  /\ length (w_agents w') = (length (w_agents w) + n)%nat
  /\ w_counter w' = (w_counter w + n)%nat
  /\ (forall j a, w_agents w !! j = Some a -> w_agents w' !! j = Some a)
  /\ forall k, (k < n)%nat ->
       exists a, w_agents w' !! (length (w_agents w) + k)%nat = Some a
         /\ tagged_member a gid gt (r0 + k) start_pos bhv bdg scl spd exits
              (w_counter w + k).
Proof.
  induction n as [|n IH]; intros r0 w g ms w' g'; simpl.
  - intros [= <- <- <-]. repeat split; try lia; auto.
  - destruct (Agent_init _ _ _ _ _ _ _ _ _ _ _) as [[[zs a] g1]|] eqn:Hi;
      [|discriminate].
    set (agent := set_role (Some r0)
                    (set_group_type (Some gt) (set_group_id (Some gid) a))).
    set (w1 := mkWorld zs (w_agents w ++ [agent]) (S (w_counter w))).
    destruct (create_members n (S r0) _ _ _ _ _ _ _ _ _ _ w1 g1)
      as [[[ms1 w2] g2]|] eqn:Hc; [|discriminate].
    intros [= <- <- <-].
    destruct (IH _ _ _ _ _ _ Hc) as (Hms & Hlen & Hcnt & Hold & Hnew).
    unfold w1 in Hms, Hlen, Hcnt, Hold, Hnew. simpl in *.
    rewrite length_app in Hms, Hlen, Hnew. simpl in *.
    replace (length (w_agents w) + 1)%nat with (S (length (w_agents w)))
      in Hms, Hlen, Hnew by lia.
    split; [rewrite Hms; reflexivity|]. split; [lia|]. split; [lia|].
    split.
    + intros j b Hj. apply Hold. apply lookup_app_l_Some. exact Hj.
    + intros [|k] Hk.
      * exists agent. split.
        -- apply Hold. rewrite Nat.add_0_r, lookup_app_r by lia.
           rewrite Nat.sub_diag. reflexivity.
        -- apply Agent_init_fields in Hi
             as (H1 & H2 & H3 & H4 & H5 & H6 & H7 & H8).
           unfold tagged_member, agent. simpl.
           rewrite !Nat.add_0_r. repeat split; assumption.
      * destruct (Hnew k) as (b & Hb & Ht); [lia|].
        exists b.
        replace (length (w_agents w) + S k)%nat
          with (S (length (w_agents w)) + k)%nat by lia.
        split; [exact Hb|].
        replace (r0 + S k)%nat with (S r0 + k)%nat by lia.
        replace (w_counter w + S k)%nat with (S (w_counter w) + k)%nat by lia.
        exact Ht.
Qed.

(** X17.  [AgentGroup.__init__]: the group has as many members as its type
    says (one for a type that is not in the table), created one after
    the other at the end of the agent store; the earlier agents are
    untouched.  All members share the group id, the type, one strategy
    and one budget, stand on the start position and carry the roles
    0, 1, ...; the strategy is one of the four individual ones exactly
    for the type INDIVIDUAL and FAMILY for every other type, pairs and
    unknown types included, with the size and the speed factor 0.7 that
    go with it. *)
Theorem group_members_tagged w gt start_pos tz cash exits scl spd g grp w' g' :
  AgentGroup_init w gt start_pos tz cash exits scl spd g = Some (grp, w', g') ->
  grp_type grp = gt /\ grp_speed grp = spd
  /\ members grp = seq (length (w_agents w)) (AgentType.SIZES_get gt)
  /\ (gt ∉ [AgentType.INDIVIDUAL; AgentType.PAIR; AgentType.FAMILY] ->
      length (members grp) = 1%nat)
  /\ (forall j a, w_agents w !! j = Some a -> w_agents w' !! j = Some a)
  /\ exists bhv bdg,
       (gt = AgentType.INDIVIDUAL -> bhv ∈ [IMPULSIVE; TARGETED; EXPLORER; BUDGET])
       /\ (gt <> AgentType.INDIVIDUAL -> bhv = FAMILY)
       /\ forall k, (k < AgentType.SIZES_get gt)%nat ->
            exists a, w_agents w' !! (length (w_agents w) + k)%nat = Some a
              /\ tagged_member a (grp_id grp) gt k start_pos bhv bdg scl spd
                   exits (w_counter w + k).
Proof.
  unfold AgentGroup_init. simpl.
  set (g1 := mkRng (stream g) (S (cursor g))).
  destruct (if decide (gt = AgentType.INDIVIDUAL)
            then random_choice [IMPULSIVE; TARGETED; EXPLORER; BUDGET] g1
            else Some (FAMILY, g1)) as [[bhv g2]|] eqn:Hb; [|discriminate].
  destruct (random_choice [LOW; MEDIUM; HIGH] g2) as [[bdg g3]|]; [|discriminate].
  destruct (create_members _ _ _ _ _ _ _ _ _ _ _ _ _ _)
    as [[[ms w1] g4]|] eqn:Hc; [|discriminate].
  intros [= <- <- <-]. simpl.
  destruct (create_members_tagged _ _ _ _ _ _ _ _ _ _ _ _ _ _ _ _ _ Hc)
    as (Hms & Hlen & Hcnt & Hold & Hnew).
  split; [reflexivity|]. split; [reflexivity|]. split; [exact Hms|].
  split.
  { intros Hunknown. rewrite Hms, length_seq. unfold AgentType.SIZES_get.
    repeat destruct (decide _); try reflexivity; subst; exfalso;
      apply Hunknown; repeat constructor. }
  split; [exact Hold|].
  exists bhv, bdg. split; [|split].
  - intros Hi. destruct (decide (gt = AgentType.INDIVIDUAL)); [|contradiction].
    apply random_choice_Some_in in Hb. exact Hb.
  - intros Hi. destruct (decide (gt = AgentType.INDIVIDUAL)); [contradiction|].
    congruence.
  - intros k Hk. destruct (Hnew k Hk) as (a & Ha & Ht).
    exists a. split; [exact Ha|]. exact Ht.
Qed.

Lemma group_members_tagged_witness :
  exists grp w' g',
    AgentGroup_init world_shelves AgentType.PAIR (mkPoint 0 0) [0; 1; 2]%nat []
      [mkPoint 0 0] 1 1 zero_rng = Some (grp, w', g')
    /\ members grp = [0; 1]%nat.
Proof.
  destruct (AgentGroup_init_spec world_shelves AgentType.PAIR (mkPoint 0 0)
              [0; 1; 2]%nat [] [mkPoint 0 0] 1 1 zero_rng)
    as (grp & w' & g' & new & H & _).
  - lra.
  - unfold known_type. repeat constructor.
  - exists grp, w', g'. split; [exact H|].
    destruct (group_members_tagged _ _ _ _ _ _ _ _ _ _ _ _ H) as (_ & _ & Hm & _).
    exact Hm.
Defined.

(** X18.  One group update: the leader makes one movement step against the
    members of its group with the default tick of 0.033; every follower
    keeps all its attributes but the position, so its state, timers,
    destination and itinerary never advance in a group update; agents
    outside the group are untouched and the zones are as the leader's
    step left them. *)
Theorem group_update_moves_followers_only w grp g w' g' :
  NoDup (members grp) ->
  (forall m, m ∈ members grp -> is_Some (w_agents w !! m)) ->
  AgentGroup_update w grp g = Some (w', g') ->
  match members grp with
  | [] => w' = w /\ g' = g
  | leader :: followers =>
      exists w1,
        step_agent w leader (members grp) default_delta_time g = Some (w1, g')
        /\ w_zones w' = w_zones w1 /\ w_counter w' = w_counter w
        /\ w_agents w' !! leader = w_agents w1 !! leader
        /\ (forall j, j ∉ members grp -> w_agents w' !! j = w_agents w !! j)
        /\ forall m, m ∈ followers ->
             exists before after,
               w_agents w !! m = Some before /\ w_agents w' !! m = Some after
               /\ same_but_position after before
  end.
Proof.
  intros Hnd Hvalid. unfold AgentGroup_update.
  destruct (members grp) as [|leader followers] eqn:Hm.
  { intros [= <- <-]. auto. }
  destruct (step_agent w leader (leader :: followers) default_delta_time g)
    as [[w1 g1]|] eqn:Hstep; [|congruence].
  intros [= <- <-]. exists w1. split; [reflexivity|]. simpl.
  destruct (follow_chain_spec (grp_speed grp) leader followers (w_agents w1) Hnd)
    as [Hout Hchain].
  { intros m Hin. eapply step_agent_valid; eauto. }
  pose proof Hnd as Hnd'. apply NoDup_cons in Hnd' as [Hl _].
  split; [reflexivity|]. split.
  { unfold step_agent in Hstep.
    destruct (w_agents w !! leader); simpl in Hstep; [|discriminate].
    destruct (move_towards_target _ _ _ _ _ _ _) as [[[zs a'] g2]|];
      [|discriminate].
    injection Hstep as <- _. reflexivity. }
  split; [apply Hout; exact Hl|]. split.
  - intros j Hj. rewrite Hout.
    + eapply step_agent_others; eauto. intros ->. apply Hj. apply list_elem_of_here.
    + intros Hin. apply Hj. apply list_elem_of_further. exact Hin.
  - intros m Hin. apply list_elem_of_lookup in Hin as [i Hi].
    assert (Hprev : is_Some ((leader :: followers) !! i)).
    { apply lookup_lt_is_Some. apply lookup_lt_Some in Hi. simpl. lia. }
    destruct Hprev as [p Hp].
    destruct (Hchain i p m Hp Hi) as (pred & before & H1 & H2 & H3).
    assert (Hne : m <> leader).
    { intros ->. apply Hl. eapply list_elem_of_lookup_2. exact Hi. }
    rewrite (step_agent_others _ _ _ _ _ _ _ _ Hstep Hne) in H2.
    exists before, (set_position
                      (follow (grp_speed grp) (position pred) (position before))
                      before).
    split; [exact H2|]. split; [exact H3|]. reflexivity.
Qed.

Lemma group_update_moves_followers_only_witness :
  exists before after,
    w_agents world_family !! 2%nat = Some before
    /\ w_agents world_family_after !! 2%nat = Some after
    /\ same_but_position after before.
Proof.
  pose proof (group_update_moves_followers_only world_family family_group
                zero_rng world_family_after zero_rng NoDup_three
                family_members_stored family_update) as H.
  simpl in H. destruct H as (w1 & _ & _ & _ & _ & _ & H).
  apply (H 2%nat). apply list_elem_of_further, list_elem_of_here.
Defined.

(** X19.  The factory never trims: for any target count and any shares over
    the known group types, the groups it returns hold the planned
    members when these already exceed the target, and exactly the
    target otherwise; a negative target or share creates nothing. *)
Theorem factory_never_trims total distribution entrances product_zones cash
    exits scl spd w g :
  Forall (fun tp => known_type tp.1) distribution ->
  entrances <> [] -> scl <> 0 ->
  exists grps w' g',
    generate_agent_groups total distribution entrances product_zones cash
      exits scl spd w g = Some (grps, w', g')
    /\ member_count grps
       = Nat.max (Z.to_nat total) (planned_agents total distribution)
    /\ length grps
       = (length (planned_types total distribution)
          + (Z.to_nat total - planned_agents total distribution))%nat.
Proof.
  intros Hk He Hs. unfold generate_agent_groups.
  destruct (generate_typed_spec total entrances product_zones cash exits scl spd
              Hs He distribution 0%Z w g Hk)
    as (grps & used & w1 & g1 & new1 & -> & Hw1 & Hu & Hm & Hty & Hf).
  destruct (make_groups_spec (Z.to_nat (total - used)) AgentType.INDIVIDUAL
              entrances product_zones cash exits scl spd Hs known_individual
              He w1 g1)
    as (singles & w2 & g2 & new2 & -> & Hw2 & Hts & Hfs).
  exists (grps ++ singles), w2, g2. split; [reflexivity|]. split.
  - rewrite member_count_app, Hm,
      (member_count_formed w2 singles AgentType.INDIVIDUAL _ Hts Hfs).
    change (AgentType.SIZES_get AgentType.INDIVIDUAL) with 1%nat. lia.
  - rewrite length_app.
    rewrite <- (length_fmap grp_type grps), Hty.
    rewrite <- (length_fmap grp_type singles), Hts, length_replicate. lia.
Qed.

Lemma factory_never_trims_witness :
  exists grps w' g',
    generate_agent_groups 2 [(AgentType.FAMILY, 2)] [mkPoint 0 0] [0; 1; 2]%nat
      [] [mkPoint 0 0] 1 1 world_shelves zero_rng = Some (grps, w', g')
    /\ member_count grps
       = Nat.max 2 (planned_agents 2 [(AgentType.FAMILY, 2)]).
Proof.
  destruct (factory_never_trims 2 [(AgentType.FAMILY, 2)] [mkPoint 0 0]
              [0; 1; 2]%nat [] [mkPoint 0 0] 1 1 world_shelves zero_rng)
    as (grps & w' & g' & H1 & H2 & _).
  - unfold known_type. repeat constructor.
  - discriminate.
  - lra.
  - exists grps, w', g'. split; [exact H1|exact H2].
Defined.

(** ** The agent after its constructor *)

(** X20.  What a new agent is doing when its constructor returns: with product
    zones to visit it is WALKING to one of them, taken off the unvisited
    list, and its first-move flag is spent; with none it is IN_QUEUE at a
    checkout that had room, or, when every checkout is full or there is
    none, FINISHED without a destination.  It is never created
    SHOPPING, PAYING or LEAVING, and it stands on its start position. *)
Theorem constructor_outcome zs counter start_pos store_zones cash exits bhv
    bdg scl spd g zs' a' g' :
  Agent_init zs counter start_pos store_zones cash exits bhv bdg scl spd g
  = Some (zs', a', g') ->
  (forall cz, cz ∈ cash ->
     (cz < length zs)%nat /\ (0 <= queue_length (zone_at zs cz))%Z) ->
  position a' = start_pos
  /\ match store_zones with
     | _ :: _ =>
         state a' = WALKING /\ zs' = zs /\ _first_move a' = false
         /\ current_cash_zone a' = None
         /\ exists z, z ∈ store_zones /\ visited_zones a' = [z]
              /\ destination a' = Some (center (zone_at zs z))
              /\ store_zones ≡ₚ z :: unvisited_zones a'
     | [] =>
         _first_move a' = true /\ visited_zones a' = []
         /\ (Forall (fun cz => can_join_queue (zone_at zs cz) = false) cash ->
             state a' = FINISHED /\ destination a' = None /\ zs' = zs
             /\ current_cash_zone a' = None)
         /\ (Exists (fun cz => can_join_queue (zone_at zs cz) = true) cash ->
             state a' = IN_QUEUE
             /\ exists cz, cz ∈ cash /\ current_cash_zone a' = Some cz
                  /\ queue_position a'
                     = Some (queue_length (zone_at zs cz) + 1)%Z
                  /\ queue_length (zone_at zs' cz)
                     = (queue_length (zone_at zs cz) + 1)%Z)
     end.
Proof.
  intros H Hpos.
  pose proof (Agent_init_fields _ _ _ _ _ _ _ _ _ _ _ _ _ _ H)
    as (_ & _ & Hstart & _).
  split; [exact Hstart|]. revert H.
  unfold Agent_init, random_uniform, random_random, rng_next. simpl.
  match goal with
  | |- choose_next_target zs ?a ?g6 = _ -> _ => set (a0 := a); set (g0 := g6)
  end.
  destruct store_zones as [|z0 rest].
  - intros H. unfold choose_next_target in H. simpl in H.
    unfold checkout_block in H. simpl in H.
    destruct cash as [|c0 cash'].
    { simpl in H. subst a0 g0. revert H. intros [= <- <- <-]. simpl.
      split; [reflexivity|]. split; [reflexivity|]. split; [auto|].
      intros He. inversion He. }
    simpl in H.
    destruct (min_by _ _ _) as [cz|] eqn:Hmin.
    + apply min_by_in in Hmin. apply list_elem_of_filter in Hmin as [Hcan Hin].
      simpl in Hin. unfold join_queue in H. rewrite Hcan in H.
      destruct (Hpos cz Hin) as [Hlt H0].
      destruct (0 <? _)%Z eqn:Hp; [|apply Z.ltb_ge in Hp; lia].
      destruct (get_queue_position _ _ _ _); simpl in H; [|discriminate].
      subst a0 g0. revert H. intros [= <- <- <-]. simpl. split; [reflexivity|].
      split; [reflexivity|]. split.
      * intros Hfull. rewrite Forall_forall in Hfull.
        rewrite (Hfull cz Hin) in Hcan. discriminate.
      * intros _. split; [reflexivity|]. exists cz.
        split; [exact Hin|]. split; [reflexivity|]. split; [reflexivity|].
        unfold zone_at at 1.
        rewrite list_lookup_insert_eq by assumption. reflexivity.
    + subst a0 g0. revert H. intros [= <- <- <-]. simpl.
      split; [reflexivity|]. split; [reflexivity|]. split; [auto|].
      intros He. exfalso. apply Exists_exists in He as (cz & Hin & Hcan).
      assert (Hf : cz ∈ filter (fun cz => can_join_queue (zone_at zs cz) = true)
                        (c0 :: cash')) by (apply list_elem_of_filter; auto).
      simpl in Hmin.
      destruct (filter _ (c0 :: cash')); [inversion Hf|discriminate].
  - intros H.
    destruct (choose_next_target_select zs a0 g0) as (z & un & g1 & Hc & Hz & Hr);
      [discriminate|discriminate|].
    rewrite Hc in H. subst a0 g0. revert H. intros [= <- <- <-].
    unfold selected. simpl.
    split; [reflexivity|]. split; [reflexivity|]. split; [reflexivity|].
    split; [reflexivity|]. exists z. split.
    { apply budget_filter_subseteq in Hz.
      apply first_move_filter_subseteq in Hz. exact Hz. }
    split; [reflexivity|]. split; [reflexivity|].
    apply list_remove_perm in Hr. exact Hr.
Qed.

Lemma constructor_outcome_witness :
  exists zs' a' g',
    Agent_init [checkout_with 0] 0 (mkPoint 0 0) [] [0%nat] [mkPoint 0 0]
      TARGETED MEDIUM 1 1 zero_rng = Some (zs', a', g')
    /\ position a' = mkPoint 0 0 /\ _first_move a' = true.
Proof.
  destruct (Agent_init_total [checkout_with 0] 0 (mkPoint 0 0) [] [0%nat]
              [mkPoint 0 0] TARGETED MEDIUM 1 1 zero_rng)
    as (zs' & a' & g' & H); [lra|].
  exists zs', a', g'. split; [exact H|].
  destruct (constructor_outcome _ _ _ _ _ _ _ _ _ _ _ _ _ _ H) as (H1 & H2 & _).
  - intros cz Hcz. apply list_elem_of_singleton in Hcz. subst cz.
    simpl. split; lia.
  - split; assumption.
Defined.

(** X21.  Every agent is built with the entry heading (1, 0) and keeps it, so
    in every reachable state the zones its first selection prefers, those
    "to the right" of the entry heading, are exactly the zones whose
    centre has a smaller y coordinate than the agent. *)
Theorem zones_to_right_is_smaller_y w a zones :
  reachable w -> a ∈ w_agents w ->
  zones_to_right (w_zones w) a zones
  = filter (fun z => pt_y (center (zone_at (w_zones w) z)) < pt_y (position a))
      zones.
Proof.
  intros Hr Ha.
  destruct (well_formed_reachable w a Hr Ha) as [(_ & _ & _ & _ & He & _) _].
  unfold zones_to_right. rewrite He. simpl.
  induction zones as [|z zones IH]; [reflexivity|].
  rewrite !filter_cons, IH.
  destruct (decide (1 * _ - 0 * _ < 0)) as [H1|H1];
    destruct (decide (_ < pt_y (position a))) as [H2|H2];
    try reflexivity; exfalso; lra.
Qed.

Lemma zones_to_right_is_smaller_y_witness :
  zones_to_right (w_zones world_first_paid) paid_agent [0%nat]
  = filter (fun z => pt_y (center (zone_at (w_zones world_first_paid) z))
                     < pt_y (position paid_agent)) [0%nat].
Proof.
  apply (zones_to_right_is_smaller_y world_first_paid paid_agent [0%nat]
           reachable_world_first_paid).
  apply list_elem_of_here.
Defined.

(** ** The application: private checkout objects *)

Lemma holders_le_one ags z :
  (forall i j a b, ags !! i = Some a -> ags !! j = Some b ->
     current_cash_zone a = Some z -> current_cash_zone b = Some z -> i = j) ->
  (holders ags z <= 1)%nat.
Proof.
  induction ags as [|a ags IH]; intros H; [unfold holders; simpl; lia|].
  rewrite holders_cons. unfold holds.
  destruct (decide (current_cash_zone a = Some z)) as [Ha|Ha].
  - rewrite holders_none; [lia|]. intros b Hb Hc.
    apply list_elem_of_lookup in Hb as [j Hj].
    specialize (H 0%nat (S j) a b eq_refl Hj Ha Hc). discriminate.
  - assert (holders ags z <= 1)%nat; [|lia]. apply IH.
    intros i j b c Hi Hj Hb Hc.
    specialize (H (S i) (S j) b c Hi Hj Hb Hc). lia.
Qed.

(** Nobody holds a checkout of an agent that holds nothing. *)
Lemma holders_free zs ags c i a z :
  app_inv (mkWorld zs ags c) -> ags !! i = Some a ->
  current_cash_zone a = None -> z ∈ cash_zones a -> holders ags z = 0%nat.
Proof.
  intros (_ & Hpriv & Hfront) Hi Hnone Hz. apply holders_none.
  intros b Hb Hc. destruct (Hfront b z Hb Hc) as [Hzb _].
  apply list_elem_of_lookup in Hb as [j Hj].
  assert (j = i) by (eapply (Hpriv j i b a z); eauto). subst j.
  simpl in Hj. congruence.
Qed.

Lemma app_inv_update zs ags c i a zs' a' c' :
  app_inv (mkWorld zs ags c) ->
  ags !! i = Some a ->
  cash_zones a' = cash_zones a ->
  slot_step zs a zs' a' ->
  app_inv (mkWorld zs' (<[i := a']> ags) c').
Proof.
  intros Hinv Hi Hcash Heff.
  pose proof Hinv as (Hexact & Hpriv & Hfront).
  assert (Ha : a ∈ ags) by (eapply list_elem_of_lookup_2; eauto).
  split; [eapply slots_exact_update; eauto|]. split.
  - intros j k b d z Hj Hk Hzb Hzd. simpl in *.
    assert (Hold : forall n x, <[i := a']> ags !! n = Some x ->
              exists y, ags !! n = Some y /\ cash_zones x = cash_zones y).
    { intros n x Hn. destruct (decide (i = n)) as [->|Hne].
      - rewrite list_lookup_insert_eq in Hn by (eapply lookup_lt_Some; eauto).
        injection Hn as <-. eauto.
      - rewrite list_lookup_insert_ne in Hn by assumption. eauto. }
    destruct (Hold j b Hj) as (b0 & Hb0 & Hcb).
    destruct (Hold k d Hk) as (d0 & Hd0 & Hcd).
    rewrite Hcb in Hzb. rewrite Hcd in Hzd.
    exact (Hpriv j k b0 d0 z Hb0 Hd0 Hzb Hzd).
  - intros b z Hb Hc. simpl in *.
    apply elem_of_insert_inv in Hb as [->|Hb]; [|apply Hfront; assumption].
    rewrite Hcash.
    destruct Heff as [_ Hsame Hq _|cz _ Hnone _ _|cash Hnone Hin _ Hcur _ Hq _].
    + rewrite Hq. apply (Hfront a z Ha). congruence.
    + congruence.
    + rewrite Hcur in Hc. injection Hc as <-. split; [exact Hin|].
      rewrite Hq. f_equal.
      destruct Hexact as (Hrefs & _ & Hcount). simpl in *.
      destruct (Hrefs a Ha) as [Hcz _].
      rewrite (Hcount cash _ (zone_at_lookup zs cash (Hcz cash Hin))).
      rewrite (holders_free zs ags c i a cash Hinv Hi Hnone Hin). reflexivity.
Qed.

Lemma app_inv_append zs ags c a c' :
  app_inv (mkWorld zs ags c) ->
  (forall z, z ∈ cash_zones a ->
     (z < length zs)%nat /\ forall b, b ∈ ags -> z ∉ cash_zones b) ->
  current_cash_zone a = None -> ~ queued a ->
  app_inv (mkWorld zs (ags ++ [a]) c').
Proof.
  intros (Hexact & Hpriv & Hfront) Hfresh Hnone Hnq.
  split; [|split].
  - apply (slots_exact_append zs ags c); auto. intros z Hz. apply Hfresh. exact Hz.
  - intros i j b d z Hi Hj Hzb Hzd. simpl in *.
    destruct (decide (i < length ags)%nat) as [Hil|Hil];
      destruct (decide (j < length ags)%nat) as [Hjl|Hjl].
    + rewrite lookup_app_l in Hi, Hj by assumption.
      exact (Hpriv i j b d z Hi Hj Hzb Hzd).
    + rewrite lookup_app_l in Hi by assumption.
      rewrite lookup_app_r in Hj by lia.
      destruct (j - length ags)%nat; simpl in Hj; [|discriminate].
      injection Hj as <-. exfalso.
      destruct (Hfresh z Hzd) as [_ Hno]. apply (Hno b); [|exact Hzb].
      eapply list_elem_of_lookup_2; eauto.
    + rewrite lookup_app_l in Hj by assumption.
      rewrite lookup_app_r in Hi by lia.
      destruct (i - length ags)%nat; simpl in Hi; [|discriminate].
      injection Hi as <-. exfalso.
      destruct (Hfresh z Hzb) as [_ Hno]. apply (Hno d); [|exact Hzd].
      eapply list_elem_of_lookup_2; eauto.
    + apply lookup_lt_Some in Hi, Hj. rewrite length_app in Hi, Hj.
      simpl in *. lia.
  - intros b z Hb Hc. simpl in *. apply elem_of_app in Hb as [Hb|Hb].
    + apply Hfront; assumption.
    + apply list_elem_of_singleton in Hb. subst b. congruence.
Qed.

Lemma app_inv_new_zone w name rect attractiveness category :
  app_inv w -> app_inv (new_zone w name rect attractiveness category).
Proof.
  intros (Hexact & Hpriv & Hfront). split; [|split].
  - apply slots_exact_new_zone. exact Hexact.
  - exact Hpriv.
  - exact Hfront.
Qed.

Lemma app_inv_init : app_inv init_world.
Proof.
  split; [apply slots_exact_init|]. split.
  - intros i j a b z Hi. simpl in Hi. discriminate.
  - intros a z Ha. inversion Ha.
Qed.

(** ** The application: spawning *)

Lemma scale_or_default_nonzero real_scale : scale_or_default real_scale <> 0.
Proof.
  unfold scale_or_default. destruct real_scale as [s|]; [|lra].
  destruct (decide (s = 0)); [lra|assumption].
Qed.

(** The zone references a round collects are to the objects it has just
    created. *)
Lemma collect_zones_spec items : forall w prod cash w1 prod1 cash1,
  collect_zones items w prod cash = (w1, prod1, cash1) ->
  w_agents w1 = w_agents w /\ w_counter w1 = w_counter w
  /\ steps w w1 /\ (app_inv w -> app_inv w1)
  /\ (length (w_zones w) <= length (w_zones w1))%nat
  /\ (forall z, z ∈ prod1 ->
        z ∈ prod \/ (length (w_zones w) <= z < length (w_zones w1))%nat)
  /\ (forall z, z ∈ cash1 ->
        z ∈ cash \/ (length (w_zones w) <= z < length (w_zones w1))%nat).
Proof.
  induction items as [|item rest IH]; intros w prod cash w1 prod1 cash1; simpl.
  - intros [= <- <- <-]. split; [reflexivity|]. split; [reflexivity|].
    split; [apply rtc_refl|]. split; [auto|]. split; [lia|]. auto.
  - destruct (decide (zone_type item = "товары")).
    + intros H. apply IH in H as (Ha & Hc & Hs & Hi & Hl & Hp & Hq).
      simpl in *. rewrite length_app in Hl, Hp, Hq. simpl in *.
      split; [exact Ha|]. split; [exact Hc|]. split.
      { eapply rtc_l; [apply step_new_zone|exact Hs]. }
      split. { intros Hinv. apply Hi. apply app_inv_new_zone. exact Hinv. }
      split; [lia|]. split.
      * intros z Hz. destruct (Hp z Hz) as [Hin|Hr]; [|right; lia].
        apply elem_of_app in Hin as [Hin|Hin]; [left; exact Hin|].
        apply list_elem_of_singleton in Hin. subst z. right. lia.
      * intros z Hz. destruct (Hq z Hz) as [Hin|Hr]; [left; exact Hin|right; lia].
    + destruct (decide (zone_type item = "касса")).
      * intros H. apply IH in H as (Ha & Hc & Hs & Hi & Hl & Hp & Hq).
        simpl in *. rewrite length_app in Hl, Hp, Hq. simpl in *.
        split; [exact Ha|]. split; [exact Hc|]. split.
        { eapply rtc_l; [apply step_new_zone|exact Hs]. }
        split. { intros Hinv. apply Hi. apply app_inv_new_zone. exact Hinv. }
        split; [lia|]. split.
        -- intros z Hz. destruct (Hp z Hz) as [Hin|Hr]; [left; exact Hin|right; lia].
        -- intros z Hz. destruct (Hq z Hz) as [Hin|Hr]; [|right; lia].
           apply elem_of_app in Hin as [Hin|Hin]; [left; exact Hin|].
           apply list_elem_of_singleton in Hin. subst z. right. lia.
      * apply IH.
Qed.

Lemma spawn_agent_app_inv w start_pos store_zones cash exits behavior budget
    scale speed g w' g' :
  (forall z, z ∈ cash ->
     (z < length (w_zones w))%nat
     /\ forall b, b ∈ w_agents w -> z ∉ cash_zones b) ->
  spawn_agent w start_pos store_zones cash exits behavior budget scale speed g
  = Some (w', g') ->
  app_inv w -> app_inv w'.
Proof.
  intros Hfresh. unfold spawn_agent.
  destruct (Agent_init _ _ _ _ _ _ _ _ _ _ _) as [[[zs a] g1]|] eqn:Hi;
    [|congruence].
  intros [= <- <-] Hinv.
  apply Agent_init_slot in Hi as (a0 & Hnone & Hst & Hc0 & Hc1 & Heff).
  - destruct w as [zs0 ags cnt]. simpl in *.
    rewrite <- (insert_app_last ags a0 a).
    eapply (app_inv_update zs0 (ags ++ [a0]) cnt).
    + apply (app_inv_append zs0 ags cnt); [exact Hinv| |exact Hnone|].
      * rewrite Hc0. exact Hfresh.
      * unfold queued. intuition congruence.
    + rewrite lookup_app_r by lia. rewrite Nat.sub_diag. reflexivity.
    + congruence.
    + exact Heff.
  - intros z Hz. destruct Hinv as ((_ & _ & Hcount) & _).
    rewrite (Hcount z _ (zone_at_lookup _ _ (proj1 (Hfresh z Hz)))). lia.
Qed.

Lemma extended_same entries real_scale speed_mul w w' :
  w_agents w' = w_agents w ->
  extended_by_spawning entries real_scale speed_mul w w'.
Proof.
  intros Hags. split; intros j a Hj.
  - rewrite Hags. exact Hj.
  - intros Hle. rewrite Hags in Hj. apply lookup_lt_Some in Hj. lia.
Qed.

Lemma extended_trans entries real_scale speed_mul w1 w2 w3 :
  extended_by_spawning entries real_scale speed_mul w1 w2 ->
  extended_by_spawning entries real_scale speed_mul w2 w3 ->
  extended_by_spawning entries real_scale speed_mul w1 w3.
Proof.
  intros [H1 H2] [H3 H4]. split.
  - intros j a Hj. apply H3, H1, Hj.
  - intros j a Hj Hle.
    destruct (decide (length (w_agents w2) <= j)%nat) as [Hge|Hlt].
    + apply (H4 j a Hj Hge).
    + destruct (lookup_lt_is_Some_2 (w_agents w2) j) as [b Hb]; [lia|].
      pose proof (H3 j b Hb) as Hb'. rewrite Hj in Hb'. injection Hb' as ->.
      apply (H2 j b Hb Hle).
Qed.

Lemma spawn_agent_extended w start entries store_zones cash behavior budget
    real_scale speed_mul g w' g' :
  start ∈ entries ->
  spawn_agent w start store_zones cash entries behavior budget
    (scale_or_default real_scale) (1 * speed_mul) g = Some (w', g') ->
  extended_by_spawning entries real_scale speed_mul w w'.
Proof.
  intros Hstart. unfold spawn_agent.
  destruct (Agent_init _ _ _ _ _ _ _ _ _ _ _) as [[[zs a] g1]|] eqn:Hi;
    [|congruence].
  intros [= <- <-]. simpl. split.
  - intros j b Hj. simpl. apply lookup_app_l_Some. exact Hj.
  - intros j b Hj Hle. simpl in Hj. rewrite lookup_app_r in Hj by lia.
    destruct (j - length (w_agents w))%nat; simpl in Hj; [|discriminate].
    injection Hj as <-.
    apply Agent_init_fields in Hi as (Hb & _ & Hp & Hs & He & Hsp & Hd & _).
    unfold spawned_agent. rewrite Hb, Hp. auto.
Qed.

Lemma collect_zones_empty items : forall w prod cash w1 prod1 cash1,
  collect_zones items w prod cash = (w1, prod1, cash1) ->
  (prod1 = [] <->
   prod = [] /\ Forall (fun item => zone_type item <> "товары") items)
  /\ (cash1 = [] <->
      cash = [] /\ Forall (fun item => zone_type item <> "касса") items).
Proof.
  induction items as [|item rest IH]; intros w prod cash w1 prod1 cash1; simpl.
  - intros [= <- <- <-]. split; (split; [intros ->; auto|tauto]).
  - destruct (decide (zone_type item = "товары")) as [Hp|Hp].
    + intros H. apply IH in H as [H1 H2]. split.
      * rewrite H1. split.
        -- intros [Hnil _]. destruct prod; discriminate.
        -- intros [_ Hf]. apply Forall_cons in Hf as [Hf _]. contradiction.
      * rewrite H2. split.
        -- intros [-> Hf]. split; [reflexivity|]. constructor; [|exact Hf].
           rewrite Hp. discriminate.
        -- intros [-> Hf]. apply Forall_cons in Hf as [_ Hf]. auto.
    + destruct (decide (zone_type item = "касса")) as [Hc|Hc].
      * intros H. apply IH in H as [H1 H2]. split.
        -- rewrite H1. split.
           ++ intros [-> Hf]. split; [reflexivity|]. constructor; assumption.
           ++ intros [-> Hf]. apply Forall_cons in Hf as [_ Hf]. auto.
        -- rewrite H2. split.
           ++ intros [Hnil _]. destruct cash; discriminate.
           ++ intros [_ Hf]. apply Forall_cons in Hf as [Hf _]. contradiction.
      * intros H. apply IH in H as [H1 H2]. split.
        -- rewrite H1. split.
           ++ intros [-> Hf]. split; [reflexivity|]. constructor; assumption.
           ++ intros [-> Hf]. apply Forall_cons in Hf as [_ Hf]. auto.
        -- rewrite H2. split.
           ++ intros [-> Hf]. split; [reflexivity|]. constructor; assumption.
           ++ intros [-> Hf]. apply Forall_cons in Hf as [_ Hf]. auto.
Qed.

(** One round of spawning returns; it adds an agent exactly when there
    is an entrance, a product item and a checkout item. *)
Lemma spawn_round_spec w items entry_exit_points real_scale speed_mul g :
  exists w' g' continue,
    spawn_round w items entry_exit_points real_scale speed_mul g
    = Some (w', g', continue)
    /\ stream g' = stream g
    /\ (rng_ok g -> steps w w')
    /\ (app_inv w -> app_inv w')
    /\ extended_by_spawning entry_exit_points real_scale speed_mul w w'
    /\ (continue = true <->
        entry_exit_points <> []
        /\ ~ Forall (fun item => zone_type item <> "товары") items
        /\ ~ Forall (fun item => zone_type item <> "касса") items)
    /\ length (w_agents w')
       = (length (w_agents w) + if continue then 1 else 0)%nat.
Proof.
  unfold spawn_round. destruct entry_exit_points as [|e0 entries] eqn:He.
  { exists w, g, false. split; [reflexivity|]. split; [reflexivity|].
    split; [intros _; apply rtc_refl|]. split; [auto|].
    split; [apply extended_same; reflexivity|].
    split; [|lia]. split; [discriminate|]. intros [H _]. congruence. }
  rewrite <- He. assert (Hne : entry_exit_points <> []) by (rewrite He; discriminate).
  clear He.
  destruct (collect_zones items w [] []) as [[w1 prod] cash] eqn:Hcol.
  pose proof (collect_zones_spec _ _ _ _ _ _ _ Hcol)
    as (Hags & Hcnt & Hsteps & Hinv & Hlen & Hprod & Hcash).
  pose proof (collect_zones_empty _ _ _ _ _ _ _ Hcol) as [Hpe Hce].
  destruct (bool_decide (prod = []) || bool_decide (cash = [])) eqn:Hcond.
  { exists w1, g, false. split; [reflexivity|]. split; [reflexivity|].
    split; [intros _; exact Hsteps|]. split; [exact Hinv|].
    split; [apply extended_same; exact Hags|].
    split; [|rewrite Hags; lia]. split; [discriminate|].
    intros (_ & Hp & Hc). exfalso.
    apply orb_true_iff in Hcond as [Hg|Hg]; apply bool_decide_eq_true_1 in Hg.
    - apply Hp. apply Hpe. exact Hg.
    - apply Hc. apply Hce. exact Hg. }
  apply orb_false_iff in Hcond as [Hp Hc].
  apply bool_decide_eq_false_1 in Hp, Hc.
  destruct (random_choice_in [IMPULSIVE; TARGETED; EXPLORER; FAMILY; BUDGET] g)
    as (bhv & g1 & Hb & _); [discriminate|]. rewrite Hb.
  destruct (random_choice_in [LOW; MEDIUM; HIGH] g1) as (bdg & g2 & Hd & _);
    [discriminate|]. rewrite Hd.
  destruct (random_choice_in entry_exit_points g2 Hne) as (start & g3 & Hs & Hstart).
  rewrite Hs.
  apply random_choice_stream in Hb, Hd, Hs.
  assert (Hspawn : exists w2 g4,
            spawn_agent w1 start prod cash entry_exit_points bhv bdg
              (scale_or_default real_scale) (1 * speed_mul) g3 = Some (w2, g4)).
  { unfold spawn_agent.
    destruct (Agent_init_total (w_zones w1) (w_counter w1) start prod cash
                entry_exit_points bhv bdg (scale_or_default real_scale)
                (1 * speed_mul) g3 (scale_or_default_nonzero real_scale))
      as (zs & a & g4 & ->).
    eauto. }
  destruct Hspawn as (w2 & g4 & Hsp). rewrite Hsp.
  exists w2, g4, true. split; [reflexivity|].
  assert (Hstream : stream g4 = stream g).
  { unfold spawn_agent in Hsp.
    destruct (Agent_init _ _ _ _ _ _ _ _ _ _ _) as [[[zs a] g5]|] eqn:Hi;
      [|discriminate].
    injection Hsp as _ <-. apply Agent_init_stream in Hi as [Hi _]. congruence. }
  split; [exact Hstream|].
  assert (Hvalid : forall z, z ∈ prod ++ cash -> (z < length (w_zones w1))%nat).
  { intros z Hz. apply elem_of_app in Hz as [Hz|Hz].
    - destruct (Hprod z Hz) as [Hin|Hr]; [inversion Hin|lia].
    - destruct (Hcash z Hz) as [Hin|Hr]; [inversion Hin|lia]. }
  split.
  { intros Hg. eapply rtc_r; [exact Hsteps|].
    eapply step_spawn; [exact Hvalid| |exact Hsp].
    apply (rng_ok_stream g g3); [congruence|exact Hg]. }
  split.
  { intros Hw. eapply spawn_agent_app_inv; [|exact Hsp|apply Hinv; exact Hw].
    intros z Hz. split; [apply Hvalid, elem_of_app; auto|].
    intros b Hbin Hzb. rewrite Hags in Hbin.
    destruct Hw as ((Hrefs & _) & _). destruct (Hrefs b Hbin) as [Hlt _].
    specialize (Hlt z Hzb).
    destruct (Hcash z Hz) as [Hin|Hr]; [inversion Hin|lia]. }
  split.
  { eapply extended_trans; [apply extended_same; exact Hags|].
    eapply spawn_agent_extended; eauto. }
  split.
  { split; [|reflexivity]. intros _. split; [exact Hne|]. split.
    - intros Hf. apply Hp. apply Hpe. auto.
    - intros Hf. apply Hc. apply Hce. auto. }
  unfold spawn_agent in Hsp.
  destruct (Agent_init _ _ _ _ _ _ _ _ _ _ _) as [[[zs a] g5]|]; [|discriminate].
  injection Hsp as <- _. simpl. rewrite length_app, Hags. reflexivity.
Qed.

Lemma MainWindow_spawn_agent_spec items entry_exit_points real_scale speed_mul
    mult : forall w g,
  exists w' g',
    MainWindow_spawn_agent mult w items entry_exit_points real_scale
      speed_mul g = Some (w', g')
    /\ stream g' = stream g
    /\ (rng_ok g -> steps w w')
    /\ (app_inv w -> app_inv w')
    /\ extended_by_spawning entry_exit_points real_scale speed_mul w w'
    /\ length (w_agents w')
       = (length (w_agents w)
          + if bool_decide (entry_exit_points <> []
                            /\ ~ Forall (fun item => zone_type item <> "товары") items
                            /\ ~ Forall (fun item => zone_type item <> "касса") items)
            then mult else 0)%nat.
Proof.
  induction mult as [|mult IH]; intros w g; simpl.
  - exists w, g. split; [reflexivity|]. split; [reflexivity|].
    split; [intros _; apply rtc_refl|]. split; [auto|].
    split; [apply extended_same; reflexivity|].
    destruct (bool_decide _); lia.
  - destruct (spawn_round_spec w items entry_exit_points real_scale speed_mul g)
      as (w1 & g1 & continue & -> & Hst & Hsteps & Hinv & Hext & Hc & Hlen).
    destruct continue.
    + destruct (IH w1 g1) as (w2 & g2 & -> & Hst2 & Hsteps2 & Hinv2 & Hext2 & Hlen2).
      exists w2, g2. split; [reflexivity|]. split; [congruence|].
      split.
      { intros Hg. eapply (transitivity (R := rtc step)); [apply Hsteps; exact Hg|].
        apply Hsteps2. apply (rng_ok_stream g g1); assumption. }
      split; [auto|]. split; [eapply extended_trans; eauto|].
      rewrite Hlen2, Hlen. rewrite bool_decide_eq_true_2 by (apply Hc; reflexivity).
      lia.
    + exists w1, g1. split; [reflexivity|]. split; [exact Hst|].
      split; [exact Hsteps|]. split; [exact Hinv|]. split; [exact Hext|].
      rewrite Hlen. rewrite bool_decide_eq_false_2; [lia|].
      intros H. apply Hc in H. discriminate.
Qed.

(** ** The application: runs *)

Lemma step_agent_app_inv w self others delta_time g w' g' :
  step_agent w self others delta_time g = Some (w', g') ->
  app_inv w -> app_inv w'.
Proof.
  intros H Hinv. unfold step_agent in H.
  destruct (w_agents w !! self) as [a|] eqn:Ha; simpl in H; [|discriminate].
  destruct (move_towards_target _ _ _ _ _ _ _) as [[[zs a'] g1]|] eqn:Hm;
    [|discriminate].
  injection H as <- <-.
  pose proof (move_towards_target_effect _ _ _ _ _ _ _ _ _ _ Hm)
    as [(_ & Hcash & _) _].
  assert (Hin : a ∈ w_agents w) by (eapply list_elem_of_lookup_2; eauto).
  pose proof Hinv as (Hexact & _).
  apply move_towards_target_slot in Hm.
  - destruct w as [zs0 ags cnt]. simpl in *.
    eapply app_inv_update; eauto.
  - apply (slot_consistent_held (w_zones w)).
    destruct Hexact as (_ & Hcons & _). apply Hcons. exact Hin.
  - apply slots_exact_nonneg; [exact Hexact|].
    destruct Hexact as (Hrefs & _). apply (Hrefs a Hin).
Qed.

Lemma update_agents_app_inv delta_time todo : forall w g w' g',
  update_agents todo w delta_time g = Some (w', g') ->
  app_inv w -> app_inv w'.
Proof.
  induction todo as [|i todo IH]; intros w g w' g'; simpl.
  - intros [= <- <-]. auto.
  - destruct (w_agents w !! i) as [a|]; simpl; [|discriminate].
    destruct (finished a); [apply IH|].
    destruct (step_agent _ _ _ _ _) as [[w1 g1]|] eqn:Hs; [|discriminate].
    intros H Hinv. eapply IH; [exact H|].
    eapply step_agent_app_inv; eauto.
Qed.

(** A run of the application is a run of elementary steps in which no
    two agents share a checkout object. *)
Lemma app_reachable_sound w : app_reachable w -> reachable w /\ app_inv w.
Proof.
  unfold app_reachable. intros H.
  eapply (rtc_ind_r (R := app_step) (fun w => reachable w /\ app_inv w));
    [| |exact H].
  - split; [apply rtc_refl|apply app_inv_init].
  - intros w1 w2 _ Hstep (Hr & Hinv).
    destruct Hstep as [w0 mult items entries real_scale speed_mul g w0' g' Hg Hsp
                      |w0 delta_time g w0' g' Hu].
    + destruct (MainWindow_spawn_agent_spec items entries real_scale
                  speed_mul mult w0 g)
        as (w3 & g3 & Hs & _ & Hsteps & Hi & _).
      rewrite Hs in Hsp. injection Hsp as <- <-.
      split; [|auto].
      eapply (transitivity (R := rtc step)); [exact Hr|]. apply Hsteps. exact Hg.
    + split.
      * eapply (transitivity (R := rtc step)); [exact Hr|].
        eapply update_loop_steps; eauto.
      * eapply update_agents_app_inv; eauto.
Qed.

(** X22.  Spawning never raises: from any state, with any scene items,
    entrance list, scale setting (also unset or zero), speed multiplier
    and random draws, the spawning loop of [spawn_agent] returns.  It
    adds [mult] agents when an entrance, a product item and a checkout
    item exist and none otherwise, and leaves the earlier agents
    untouched.  Every agent it adds has the scale [real_scale or 1.0],
    which is not zero, stands on one of the entrances, has the entrance
    list as its exits, and has the speed [1.0 * speed_mul], times 0.7
    for the FAMILY strategy. *)
Theorem spawning_never_raises mult w items entry_exit_points real_scale
    speed_mul g :
  exists w' g',
    MainWindow_spawn_agent mult w items entry_exit_points real_scale
      speed_mul g = Some (w', g')
    /\ length (w_agents w')
       = (length (w_agents w)
          + if bool_decide
                 (entry_exit_points <> []
                  /\ ~ Forall (fun item => zone_type item <> "товары") items
                  /\ ~ Forall (fun item => zone_type item <> "касса") items)
            then mult else 0)%nat
    /\ (forall j a, w_agents w !! j = Some a -> w_agents w' !! j = Some a)
    /\ forall j a, w_agents w' !! j = Some a ->
         (length (w_agents w) <= j)%nat ->
         scale a <> 0
         /\ spawned_agent entry_exit_points real_scale speed_mul a.
Proof.
  destruct (MainWindow_spawn_agent_spec items entry_exit_points real_scale
              speed_mul mult w g)
    as (w' & g' & Hs & _ & _ & _ & [Hold Hnew] & Hlen).
  exists w', g'. split; [exact Hs|]. split; [exact Hlen|].
  split; [exact Hold|]. intros j a Hj Hle.
  pose proof (Hnew j a Hj Hle) as Ha. split; [|exact Ha].
  destruct Ha as [-> _]. apply scale_or_default_nonzero.
Qed.

Lemma spawning_never_raises_witness :
  exists w' g',
    MainWindow_spawn_agent 2 init_world
      [mkDrawer "товары" (mkRect 0 0 10 10) 1 None;
       mkDrawer "касса" (mkRect 20 0 10 10) 1 None]
      [mkPoint 0 0] None 1 zero_rng = Some (w', g')
    /\ length (w_agents w') = 2%nat.
Proof.
  destruct (spawning_never_raises 2 init_world
              [mkDrawer "товары" (mkRect 0 0 10 10) 1 None;
               mkDrawer "касса" (mkRect 20 0 10 10) 1 None]
              [mkPoint 0 0] None 1 zero_rng) as (w' & g' & Hs & Hlen & _).
  exists w', g'. split; [exact Hs|]. rewrite Hlen.
  rewrite bool_decide_eq_true_2; [reflexivity|].
  split; [discriminate|]. split; intros Hf.
  - apply Forall_cons in Hf as [Hf _]. apply Hf. reflexivity.
  - apply Forall_cons in Hf as [_ Hf]. apply Forall_cons in Hf as [Hf _].
    apply Hf. reflexivity.
Defined.

(** X23.  In the application every agent is given checkout objects of its own,
    so no queue ever forms: in every state of a run each checkout
    counter is 0 or 1, two agents never hold the same checkout, a queued
    agent holds slot 1 of one of its own checkouts, and an agent that is
    IN_QUEUE becomes PAYING at its next call in [update_loop], wherever
    it stands. *)
Theorem app_checkouts_never_queue w :
  app_reachable w ->
  (forall z zone, w_zones w !! z = Some zone ->
     (0 <= queue_length zone <= 1)%Z)
  /\ (forall i j a b z, w_agents w !! i = Some a -> w_agents w !! j = Some b ->
        current_cash_zone a = Some z -> current_cash_zone b = Some z -> i = j)
  /\ (forall a z, a ∈ w_agents w -> current_cash_zone a = Some z ->
        z ∈ cash_zones a /\ queue_position a = Some 1%Z)
  /\ forall self a delta_time g,
       w_agents w !! self = Some a -> state a = IN_QUEUE ->
       step_agent w self (seq 0 (length (w_agents w))) delta_time g
       = Some (mkWorld (w_zones w) (<[self := set_state PAYING a]> (w_agents w))
                 (w_counter w), g).
Proof.
  intros Happ.
  destruct (app_reachable_sound w Happ) as (Hr & Hexact & Hpriv & Hfront).
  assert (Hone : forall i j a b z,
            w_agents w !! i = Some a -> w_agents w !! j = Some b ->
            current_cash_zone a = Some z -> current_cash_zone b = Some z -> i = j).
  { intros i j a b z Hi Hj Ha Hb.
    destruct (Hfront a z) as [Hza _];
      [eapply list_elem_of_lookup_2; eauto|exact Ha|].
    destruct (Hfront b z) as [Hzb _];
      [eapply list_elem_of_lookup_2; eauto|exact Hb|].
    exact (Hpriv i j a b z Hi Hj Hza Hzb). }
  split; [|split; [exact Hone|split; [exact Hfront|]]].
  - intros z zone Hz. destruct Hexact as (_ & _ & Hcount).
    rewrite (Hcount z zone Hz).
    pose proof (holders_le_one (w_agents w) z) as Hle.
    assert (holders (w_agents w) z <= 1)%nat; [|lia].
    apply Hle. intros i j a b. apply Hone.
  - intros self a delta_time g Hself Hst.
    assert (Ha : a ∈ w_agents w) by (eapply list_elem_of_lookup_2; eauto).
    destruct Hexact as (_ & Hcons & _).
    pose proof (proj1 (slot_consistent_held _ _ (Hcons a Ha))) as Hheld.
    destruct (current_cash_zone a) as [cz|] eqn:Hcz.
    2:{ exfalso. apply Hheld; [left; exact Hst|reflexivity]. }
    destruct (Hfront a cz Ha Hcz) as [_ Hq].
    unfold step_agent. rewrite Hself. simpl.
    rewrite (strict_front_promoted (w_zones w) (w_agents w) self a
               (seq 0 (length (w_agents w))) delta_time g cz 1 Hself Hst Hcz Hq).
    + reflexivity.
    + intros j ag _ Hne Hag _ Hc. exfalso. apply Hne.
      exact (Hone j self ag a cz Hag Hself Hc Hcz).
    + apply elem_of_seq. apply lookup_lt_Some in Hself. lia.
Qed.

Lemma app_checkouts_never_queue_witness :
  exists w' g',
    MainWindow_spawn_agent 2 init_world
      [mkDrawer "товары" (mkRect 0 0 10 10) 1 None;
       mkDrawer "касса" (mkRect 20 0 10 10) 1 None]
      [mkPoint 0 0] None 1 zero_rng = Some (w', g')
    /\ forall z zone, w_zones w' !! z = Some zone ->
         (0 <= queue_length zone <= 1)%Z.
Proof.
  destruct (MainWindow_spawn_agent_spec
              [mkDrawer "товары" (mkRect 0 0 10 10) 1 None;
               mkDrawer "касса" (mkRect 20 0 10 10) 1 None]
              [mkPoint 0 0] None 1 2 init_world zero_rng)
    as (w' & g' & Hs & _).
  exists w', g'. split; [exact Hs|].
  apply (app_checkouts_never_queue w').
  eapply rtc_once. eapply app_spawn; [apply zero_rng_ok|exact Hs].
Defined.

(** ** The collision test *)

Lemma span_intersects_sym lo1 len1 lo2 len2 :
  span_intersects lo1 len1 lo2 len2 = span_intersects lo2 len2 lo1 len1.
Proof.
  unfold span_intersects.
  destruct (decide (len1 < 0)), (decide (len2 < 0));
    repeat (destruct (decide _)); try reflexivity; exfalso; lra.
Qed.

Lemma rect_intersects_sym r1 r2 : rect_intersects r1 r2 = rect_intersects r2 r1.
Proof.
  unfold rect_intersects.
  rewrite (span_intersects_sym (rect_x r1)), (span_intersects_sym (rect_y r1)).
  reflexivity.
Qed.

Lemma span_intersects_inflated lo1 len1 lo2 len2 :
  0 <= len2 ->
  span_intersects lo1 len1 lo2 len2 = true ->
  span_intersects lo1 len1 (lo2 + -50) (len2 + 50 - -50) = true.
Proof.
  unfold span_intersects. intros Hlen.
  destruct (decide (len1 < 0)), (decide (len2 < 0)),
    (decide (len2 + 50 - -50 < 0));
    repeat (destruct (decide _)); try reflexivity; try discriminate;
    intros _; exfalso; lra.
Qed.

(** X24.  [_check_collision] and the proximity test of [_avoid_collisions]
    agree in one direction: two agents whose collision rectangles
    intersect are never skipped by the avoidance loop, since the
    rectangle inflated by 50 intersects as well.  The test is symmetric
    between two distinct live agents, it is false against oneself and
    against a finished agent, and it raises exactly when a rectangle is
    needed of an agent whose scale is zero. *)
Theorem check_collision_implies_avoidance self a j other :
  (check_collision self a j other = Some true ->
   j <> self /\ finished other = false
   /\ exists my_rect other_rect,
        get_collision_rect a = Some my_rect
        /\ get_collision_rect other = Some other_rect
        /\ rect_intersects my_rect
             (rect_adjusted (-50) (-50) 50 50 other_rect) = true)
  /\ (j <> self -> finished a = false -> finished other = false ->
      scale a <> 0 -> scale other <> 0 ->
      check_collision self a j other = check_collision j other self a)
  /\ (j = self \/ finished other = true ->
      check_collision self a j other = Some false)
  /\ (check_collision self a j other = None <->
      j <> self /\ finished other = false /\ (scale a = 0 \/ scale other = 0)).
Proof.
  unfold check_collision.
  pose proof (collision_rect_shape a) as Ha.
  pose proof (collision_rect_shape other) as Ho.
  split; [|split; [|split]].
  - destruct (bool_decide (j = self)) eqn:Hj; simpl; [discriminate|].
    destruct (finished other); simpl; [discriminate|].
    apply bool_decide_eq_false_1 in Hj.
    destruct (get_collision_rect a) as [r1|]; simpl; [|discriminate].
    destruct (get_collision_rect other) as [r2|]; simpl; [|discriminate].
    intros [= Hi]. split; [exact Hj|]. split; [reflexivity|].
    exists r1, r2. split; [reflexivity|]. split; [reflexivity|].
    destruct Ho as (_ & _ & Hw & Hh).
    unfold rect_intersects in *. apply andb_true_iff in Hi as [Hx Hy].
    apply andb_true_iff. simpl. split; apply span_intersects_inflated; assumption.
  - intros Hne Hfa Hfo Hsa Hso. rewrite Hfa, Hfo.
    rewrite !bool_decide_eq_false_2 by congruence. simpl.
    destruct (get_collision_rect a) as [r1|]; [|contradiction].
    destruct (get_collision_rect other) as [r2|]; [|contradiction].
    simpl. rewrite rect_intersects_sym. reflexivity.
  - intros [Hj|Hf].
    + rewrite bool_decide_eq_true_2 by exact Hj. reflexivity.
    + rewrite Hf, orb_true_r. reflexivity.
  - destruct (bool_decide (j = self)) eqn:Hj; simpl.
    { apply bool_decide_eq_true_1 in Hj. split; [discriminate|tauto]. }
    apply bool_decide_eq_false_1 in Hj.
    destruct (finished other); simpl.
    { split; [discriminate|]. intros (_ & H & _). discriminate. }
    destruct (get_collision_rect a) as [r1|]; simpl.
    + destruct Ha as [Hsa _].
      destruct (get_collision_rect other) as [r2|]; simpl.
      * destruct Ho as [Hso _]. split; [discriminate|tauto].
      * split; auto.
    + split; auto.
Qed.

Lemma atan2_east : atan2 0 1 = 0.
Proof.
  unfold atan2. destruct (decide (0 < 1)); [|lra].
  replace (0 / 1) with 0 by lra. apply atan_0.
Qed.

Lemma queued_agent_rect id slot :
  get_collision_rect (queued_agent id slot) = Some (mkRect (-225) (-150) 450 300).
Proof.
  unfold get_collision_rect, queued_agent, py_div.
  cbn [heading position dimensions scale get_dimensions dim_width dim_length pt_x pt_y].
  rewrite atan2_east, cos_0, sin_0.
  destruct (decide (1 = 0)); [lra|].
  cbn [mbind option_bind].
  unfold min_list, max_list. cbn [fold_left].
  replace (0 + 450 / 1 / 2 * 1 - 300 / 1 / 2 * 0) with 225 by lra.
  replace (0 - 450 / 1 / 2 * 1 - 300 / 1 / 2 * 0) with (-225) by lra.
  replace (0 - 450 / 1 / 2 * 1 + 300 / 1 / 2 * 0) with (-225) by lra.
  replace (0 + 450 / 1 / 2 * 1 + 300 / 1 / 2 * 0) with 225 by lra.
  replace (0 + 450 / 1 / 2 * 0 + 300 / 1 / 2 * 1) with 150 by lra.
  replace (0 - 450 / 1 / 2 * 0 + 300 / 1 / 2 * 1) with 150 by lra.
  replace (0 - 450 / 1 / 2 * 0 - 300 / 1 / 2 * 1) with (-150) by lra.
  replace (0 + 450 / 1 / 2 * 0 - 300 / 1 / 2 * 1) with (-150) by lra.
  rewrite (Rmin_right 225 (-225)) by lra.
  rewrite (Rmin_left (-225) (-225)) by lra.
  rewrite (Rmin_left (-225) 225) by lra.
  rewrite (Rmax_left 225 (-225)) by lra.
  rewrite (Rmax_left 225 (-225)) by lra.
  rewrite (Rmax_left 225 225) by lra.
  rewrite (Rmin_left 150 150) by lra.
  rewrite (Rmin_right 150 (-150)) by lra.
  rewrite (Rmin_left (-150) (-150)) by lra.
  rewrite (Rmax_left 150 150) by lra.
  rewrite (Rmax_left 150 (-150)) by lra.
  rewrite (Rmax_left 150 (-150)) by lra.
  do 2 f_equal; lra.
Qed.

Lemma queued_agents_collide :
  check_collision 0 (queued_agent 0 1) 1 (queued_agent 1 2) = Some true.
Proof.
  unfold check_collision. rewrite !queued_agent_rect.
  unfold finished. simpl state.
  rewrite bool_decide_eq_false_2 by discriminate.
  rewrite bool_decide_eq_false_2 by discriminate.
  cbn [orb mbind option_bind]. f_equal.
  unfold rect_intersects, span_intersects. cbn [rect_x rect_y rect_w rect_h].
  destruct (decide (450 < 0)); [lra|]. destruct (decide (300 < 0)); [lra|].
  repeat match goal with
         | |- context [decide ?P] => destruct (decide P); try (exfalso; lra)
         end.
  reflexivity.
Qed.

Lemma check_collision_implies_avoidance_witness :
  exists my_rect other_rect,
    get_collision_rect (queued_agent 0 1) = Some my_rect
    /\ get_collision_rect (queued_agent 1 2) = Some other_rect
    /\ rect_intersects my_rect (rect_adjusted (-50) (-50) 50 50 other_rect) = true.
Proof.
  destruct (check_collision_implies_avoidance 0 (queued_agent 0 1) 1
              (queued_agent 1 2)) as [H _].
  destruct (H queued_agents_collide) as (_ & _ & H').
  exact H'.
Defined.

(** ** Dwelling at a shelf *)

Lemma choose_next_target_shopping_time zs a g zs' a' g' :
  choose_next_target zs a g = Some (zs', a', g') ->
  shopping_time a' = shopping_time a.
Proof.
  unfold choose_next_target. destruct (decide (state a = LEAVING)) as [Hl|Hl].
  { destruct (min_by _ _ _); simpl; [|congruence]. intros [= <- <- <-].
    reflexivity. }
  unfold checkout_block.
  destruct (bool_decide (unvisited_zones a = []) && _) eqn:Hcond.
  - apply andb_true_iff in Hcond as [Hun Hc].
    apply bool_decide_eq_true_1 in Hun.
    destruct (min_by _ _ _) as [cash|].
    + destruct (join_queue _) as [zone' pos]. destruct (0 <? pos)%Z.
      * destruct (get_queue_position _ _ _ _); simpl; [|congruence].
        intros [= <- <- <-]. reflexivity.
      * simpl. rewrite Hun. intros [= <- <- <-]. reflexivity.
    + rewrite Hun. intros [= <- <- <-]. reflexivity.
  - destruct (unvisited_zones a) eqn:Hun.
    + intros [= <- <- <-]. reflexivity.
    + rewrite <- Hun. destruct (weighted_choice _ _ _ _) as [[z g1]|]; [|congruence].
      destruct (list_remove _ _); simpl; [|congruence].
      intros [= <- <- <-]. destruct (_first_move a); reflexivity.
Qed.

(** X25.  Dwelling at a shelf, for an agent with the dwell bounds 5 and 30 its
    constructor sets: until 5 time units have accumulated the agent only
    counts time and consumes no random draw; from then on each call
    consumes one draw [u] and the agent moves on exactly when
    [u < delta_time / 25], with its dwell timer reset and a state other
    than SHOPPING.  Otherwise it stays and keeps counting, also beyond
    [max_shopping_time]: the dwell time has no upper bound.  With a tick
    of 25 or more it moves on at the first such call. *)
Theorem shopping_dwell zs ags self a others delta_time g :
  constructed_ok a -> state a = SHOPPING -> rng_ok g ->
  let t := shopping_time a + delta_time in
  let u := unit_draw (stream g (cursor g)) in
  let g1 := mkRng (stream g) (S (cursor g)) in
  let call := move_towards_target zs ags self a others delta_time g in
  (t < 5 -> call = Some (zs, set_shopping_time t a, g))
  /\ (5 <= t -> delta_time / 25 <= u ->
      call = Some (zs, set_shopping_time t a, g1))
  /\ (5 <= t -> (u < delta_time / 25 \/ 25 <= delta_time) ->
      call = choose_next_target zs (set_shopping_time 0 a) g1
      /\ forall zs' a' g', call = Some (zs', a', g') ->
           state a' <> SHOPPING /\ shopping_time a' = 0).
Proof.
  intros (_ & _ & Hmin & Hmax & _) Hst Hg t u g1 call.
  assert (Hcall : call
            = if decide (5 <= t) then
                if decide (u < delta_time / 25)
                then choose_next_target zs (set_shopping_time 0 a) g1
                else Some (zs, set_shopping_time t a, g1)
              else Some (zs, set_shopping_time t a, g)).
  { unfold call, move_towards_target. rewrite Hst. simpl.
    rewrite Hmin, Hmax. fold t.
    destruct (decide (5 <= t)); [|reflexivity].
    unfold py_div. destruct (decide (30 - 5 = 0)); [lra|]. simpl.
    replace (delta_time / (30 - 5)) with (delta_time / 25) by (f_equal; lra).
    fold u. destruct (decide (u < delta_time / 25)); reflexivity. }
  assert (Hu : 0 <= u < 1) by apply Hg.
  split; [|split].
  - intros Ht. rewrite Hcall. destruct (decide (5 <= t)); [lra|reflexivity].
  - intros Ht Hge. rewrite Hcall. destruct (decide (5 <= t)); [|lra].
    destruct (decide (u < delta_time / 25)); [lra|reflexivity].
  - intros Ht Hlt.
    assert (Hlt' : u < delta_time / 25) by (destruct Hlt; lra).
    assert (Hc : call = choose_next_target zs (set_shopping_time 0 a) g1).
    { rewrite Hcall. destruct (decide (5 <= t)); [|lra].
      destruct (decide (u < delta_time / 25)); [reflexivity|lra]. }
    split; [exact Hc|]. rewrite Hc. intros zs' a' g' H.
    pose proof (choose_next_target_state _ _ _ _ _ _ H) as (_ & _ & _ & Hs).
    apply choose_next_target_shopping_time in H. simpl in H, Hs.
    split; [|exact H]. rewrite Hst in Hs.
    destruct Hs as [[Hs _]|[_ [(Hs & _)|[Hs|Hs]]]]; congruence.
Qed.

Lemma family_leader_constructed :
  constructed_ok (family_member 0 (mkPoint 150 0) SHOPPING).
Proof. unfold constructed_ok. simpl. repeat split; try reflexivity; lra. Qed.

Lemma shopping_dwell_witness :
  move_towards_target family_zones (w_agents world_family) 0
    (family_member 0 (mkPoint 150 0) SHOPPING) [0; 1; 2]%nat 1 zero_rng
  = Some (family_zones,
          set_shopping_time
            (shopping_time (family_member 0 (mkPoint 150 0) SHOPPING) + 1)
            (family_member 0 (mkPoint 150 0) SHOPPING),
          zero_rng).
Proof.
  destruct (shopping_dwell family_zones (w_agents world_family) 0
              (family_member 0 (mkPoint 150 0) SHOPPING) [0; 1; 2]%nat 1
              zero_rng family_leader_constructed eq_refl zero_rng_ok)
    as [H _].
  apply H. simpl. lra.
Defined.
